(** * Limit setting for a background-free direct-detection experiment

    A shallow embedding of [thesis_plots/recoil_rates/limit_setting.py]:
    the detector model [LZ], the rate integrator
    [LimitSetter.integrate_rate], the limit solver [LimitSetter._get_limit]
    and the scan scheduler [LimitSetter.set_limits].

    Numbers.  Python floats are idealised as real numbers ([R]): rounding,
    overflow and infinities are not modelled.  The one non-number the code
    produces on purpose, the [nan] that a scipy interpolator returns outside
    its data range, is kept ([NaN] below).  Where a property depends on
    how the interpolation arithmetic rounds, the interpolant is taken with
    a rounding after each operation ([np.interp_fl]); the exact interpolant
    is the case of a rounding that changes nothing.  [binary64.chord]
    evaluates the same expression on binary64 floats.

    Exceptions.  A Python call either returns or raises; this is the type
    [py_result].

    Threads.  [set_limits] starts one [threading.Thread] per mass.  The
    scheduler is modelled as a transition system whose events are the steps
    of the dispatching thread and the completion of a worker, so that every
    interleaving of completions is a run of the model.  Time is not
    modelled: a [time.sleep] is a point at which workers may finish.

    Libraries.  [numpy] and [scipy.interpolate.interp1d] are modelled by
    what they compute on the calls the code makes; [scipy.integrate.quad]
    and [wimprates.rate_wimp] are parameters. *)

From Stdlib Require Import Strings.Ascii Strings.String.
From Stdlib Require Import Reals Lra Lia List ZArith Bool Arith.
From Stdlib Require Import Sorting.Sorted Sorting.Permutation.
From Stdlib Require PrimFloat.
Import ListNotations.

Open Scope R_scope.

(** ** Python values and exceptions *)

Inductive exn : Type :=
| ValueError
| TypeError
| IndexError
| FileNotFoundError
| OtherError.

Inductive py_result (A : Type) : Type :=
| Ok (a : A)
| Raise (e : exn).

Arguments Ok {A} a.
Arguments Raise {A} e.

Definition bind {A B : Type} (m : py_result A) (k : A -> py_result B)
  : py_result B :=
  match m with
  | Ok a => k a
  | Raise e => Raise e
  end.

Notation "x <- m ;; k" := (bind m (fun x => k))
  (at level 61, m at next level, right associativity).

(** A float as the code can hold it: a number or [nan]. *)
Inductive value : Type :=
| Num (r : R)
| NaN.

(** [a < b] on floats: every comparison with [nan] is false. *)
Definition value_lt (a : value) (b : R) : bool :=
  match a with
  | Num r => if Rlt_dec r b then true else false
  | NaN => false
  end.

(** [a * k] for a float [a] and a number [k]. *)
Definition value_scale (a : value) (k : R) : value :=
  match a with
  | Num r => Num (r * k)
  | NaN => NaN
  end.

(** ** numpy *)

Module np.

(** [np.linspace(start, stop, num)] with the default [endpoint=True]:
    [arange(0, num) * step + start] with [step = (stop - start) / (num - 1)];
    a single sample is [start].  numpy then overwrites the last sample
    with [stop], which over the reals is the value it already has. *)
Definition linspace (start stop : R) (num : nat) : list R :=
  match num with
  | 0%nat => []
  | 1%nat => [start]
  | S div =>
      map (fun i => INR i * ((stop - start) / INR div) + start) (seq 0 num)
  end.

(** [10 ** a] on an array of floats. *)
Definition pow10 (a : list R) : list R := map (Rpower 10) a.

(** [np.log10]. *)
Definition log10 (x : R) : R := ln x / ln 10.

(** The piecewise-linear interpolant of [np.interp] on points sorted by
    abscissa, for [v] not below the first abscissa.  With [j] the last index
    whose abscissa is [<= v]: the last ordinate if [j] is the last index, the
    ordinate [y_j] if [x_j = v], and otherwise
    [slope * (v - x_j) + y_j]. *)
Fixpoint interp (pts : list (R * R)) (v : R) : R :=
  match pts with
  | [] => 0
  | (x0, y0) :: rest =>
      match rest with
      | [] => y0
      | (x1, y1) :: _ =>
          if Rlt_dec v x1 then
            if Req_dec_T x0 v then y0
            else (y1 - y0) / (x1 - x0) * (v - x0) + y0
          else interp rest v
      end
  end.

(** Stable sort of points by abscissa, as [np.argsort(x, kind="mergesort")]
    followed by [x[ind]] and [np.take(y, ind)]. *)
Fixpoint insert_pt (p : R * R) (l : list (R * R)) : list (R * R) :=
  match l with
  | [] => [p]
  | q :: l' =>
      if Rle_dec (fst p) (fst q) then p :: q :: l' else q :: insert_pt p l'
  end.

Fixpoint sort_pts (l : list (R * R)) : list (R * R) :=
  match l with
  | [] => []
  | p :: l' => insert_pt p (sort_pts l')
  end.

(** The order the sort establishes. *)
Definition le_x (p q : R * R) : Prop := fst p <= fst q.

(** *** With rounding

    numpy computes the interpolant in binary64: an operation returns the
    float nearest to its exact result.  [interp_fl rnd] is [interp] with
    the rounding [rnd] after each of the five operations of
    [slope * (v - x_j) + y_j], where
    [slope = (y_(j+1) - y_j) / (x_(j+1) - x_j)]; comparisons are exact.
    Overflow to an infinity is not modelled. *)
Section Rounded.

Variable rnd : R -> R.

Fixpoint interp_fl (pts : list (R * R)) (v : R) : R :=
  match pts with
  | [] => 0
  | (x0, y0) :: rest =>
      match rest with
      | [] => y0
      | (x1, y1) :: _ =>
          if Rlt_dec v x1 then
            if Req_dec_T x0 v then y0
            else
              let slope := rnd (rnd (y1 - y0) / rnd (x1 - x0)) in
              rnd (rnd (slope * rnd (v - x0)) + y0)
          else interp_fl rest v
      end
  end.

End Rounded.

(** What is used of a rounding: it is monotone and leaves 0 as it is, as
    rounding to the nearest float does. *)
Definition rounding (rnd : R -> R) : Prop :=
  (forall a b, a <= b -> rnd a <= rnd b) /\ rnd 0 = 0.

End np.

(** ** scipy.interpolate.interp1d *)

Module scipy.

(** [interp1d] with [kind='linear'] refuses data with fewer than [minval]
    entries.  Releases of scipy differ in [minval]: it is 1 in the current
    ones, which build an interpolator from a single point, and 2 in early
    ones.  The repository pins no release, so the model keeps both. *)
Inductive release : Type :=
| MinTwoEntries
| MinOneEntry.

Definition minval (rel : release) : nat :=
  match rel with
  | MinTwoEntries => 2
  | MinOneEntry => 1
  end.

(** The interpolator object: the data sorted by abscissa and the fill
    value used outside the data range ([bounds_error=False]). *)
Record interp1d_obj : Type := mk_interp1d {
  itp_pts : list (R * R);
  itp_fill : value
}.

(** [interp1d(x, y, fill_value=fill, bounds_error=False)].  The callers
    in this repository pass an [x] and a [y] of one length. *)
Definition interp1d (rel : release) (x y : list R) (fill : value)
  : py_result interp1d_obj :=
  if negb (length x =? length y)%nat then Raise ValueError
  else if (length x <? minval rel)%nat then Raise ValueError
  else Ok (mk_interp1d (np.sort_pts (combine x y)) fill).

(** [itp(v)]: the fill value below the first and above the last abscissa,
    the linear interpolant in between. *)
Definition call (itp : interp1d_obj) (v : R) : value :=
  match itp_pts itp with
  | [] => itp_fill itp
  | p :: rest =>
      if Rlt_dec v (fst p) then itp_fill itp
      else if Rlt_dec (fst (last rest p)) v then itp_fill itp
      else Num (np.interp (itp_pts itp) v)
  end.

(** [itp(v)], the interpolant computed with the rounding [rnd]. *)
Definition call_fl (rnd : R -> R) (itp : interp1d_obj) (v : R) : value :=
  match itp_pts itp with
  | [] => itp_fill itp
  | p :: rest =>
      if Rlt_dec v (fst p) then itp_fill itp
      else if Rlt_dec (fst (last rest p)) v then itp_fill itp
      else Num (np.interp_fl rnd (itp_pts itp) v)
  end.

End scipy.

(** ** The interpolation expression on binary64 floats *)

Module binary64.

Import PrimFloat.

(** [slope * (v - x0) + y0] with [slope = (y1 - y0) / (x1 - x0)], as
    [np.interp] evaluates it between the points [(x0, y0)] and
    [(x1, y1)]. *)
Definition chord (x0 y0 x1 y1 v : float) : float :=
  add (mul (div (sub y1 y0) (sub x1 x0)) (sub v x0)) y0.

(** The float of the literal 2.3, the float next above it, and the float
    of 0.05223. *)
Definition threshold : float := 0x1.2666666666666p+1%float.
Definition above_threshold : float := 0x1.2666666666667p+1%float.
Definition low_count : float := 0x1.abde3fbbd7b2p-5%float.

Definition one : float := 1%float.
Definition ten : float := 10%float.

End binary64.

(** ** The detector model: class [LZ] *)

Module LZ.

Definition exposure : R := 9 / 10.
Definition efficiency : R := 1.
Definition e_roi : R * R := (0, 70).
Definition material : string := "Xe"%string.

(** [eff.values.T]: the table read from
    [data/lz_limit/Fig2_NRefficiency.txt], one list per column. *)
Definition table : Type := list (list R).

(** What lies outside the object: the outcome [pd.read_table] has on the
    file (it raises when the file is missing), the process-wide
    [lru_cache] of [get_eff], and the number of times the file was read. *)
Record world : Type := mk_world {
  dataset : py_result table;
  get_eff_cache : option table;
  n_reads : nat
}.

(** An instance: the attribute [_itp]. *)
Record t : Type := mk { _itp : option scipy.interp1d_obj }.

(** [LZ()]: the class defines no [__init__]; [_itp] is the class attribute
    [None]. *)
Definition new (w : world) : t * world := (mk None, w).

(** [get_eff], under [lru_cache(None)]: a returned table is cached, a
    raised exception is not. *)
Definition get_eff (w : world) : py_result table * world :=
  match get_eff_cache w with
  | Some tbl => (Ok tbl, w)
  | None =>
      match dataset w with
      | Ok tbl => (Ok tbl, mk_world (dataset w) (Some tbl) (S (n_reads w)))
      | Raise e => (Raise e, mk_world (dataset w) None (S (n_reads w)))
      end
  end.

(** The property [_itp_eff].  The first two rows of [eff.values.T] are
    unpacked into the positional arguments [x] and [y] of [interp1d], which
    needs both. *)
Definition _itp_eff (rel : scipy.release) (self : t) (w : world)
  : py_result scipy.interp1d_obj * t * world :=
  match _itp self with
  | Some itp => (Ok itp, self, w)
  | None =>
      let (r, w') := get_eff w in
      match r with
      | Raise e => (Raise e, self, w')
      | Ok eff =>
          match firstn 2 eff with
          | [x; y] =>
              match scipy.interp1d rel x y (Num 0) with
              | Ok itp => (Ok itp, mk (Some itp), w')
              | Raise e => (Raise e, self, w')
              end
          | _ => (Raise TypeError, self, w')
          end
      end
  end.

Definition combined_efficiency (rel : scipy.release) (self : t) (e_nr : R)
  (w : world) : py_result value * t * world :=
  let '(r, self', w') := _itp_eff rel self w in
  (interpolator <- r ;; Ok (scipy.call interpolator e_nr), self', w').

(** A run of efficiency queries on one instance, in order. *)
Fixpoint queries (rel : scipy.release) (self : t) (es : list R) (w : world)
  : list (py_result value) * t * world :=
  match es with
  | [] => ([], self, w)
  | e :: es' =>
      let '(r, self', w') := combined_efficiency rel self e w in
      let '(rs, self'', w'') := queries rel self' es' w' in
      (r :: rs, self'', w'')
  end.

End LZ.

(** ** The limit setter: class [LimitSetter] *)

Module LimitSetter.

Definition no_background_possion : R := 23 / 10.

(** What [integrate_rate] uses of [self.detector]. *)
Record detector : Type := mk_detector {
  exposure : R;
  efficiency : R;
  e_roi : R * R;
  material : string;
  combined_efficiency : R -> py_result value
}.

(** The unit constants of [numericalunits] the integrand uses. *)
Record units : Type := mk_units {
  eV : R; keV : R; GeV : R; c0 : R; cm : R; kg : R; year : R
}.

Section RateIntegrator.

Variable nu : units.
Variable self_detector : detector.

(** [wimprates.rate_wimp(es, mw, sigma_nucleon, interaction='SI',
    material, halo_model=self.halo_model)], an external function. *)
Variable rate_wimp : R -> R -> R -> string -> py_result R.

(** [scipy.integrate.quad(func, a, b, epsrel)], an external function,
    returning the integral and an error estimate. *)
Variable quad :
  (R -> py_result value) -> R -> R -> R -> py_result (value * R).

(** The integrand.  [eff < 1e-6] is false for an efficiency of [nan], and
    the product [rate * eff] is then [nan]. *)
Definition d_rate (mw log_cross_section e_nr : R) : py_result value :=
  eff <- combined_efficiency self_detector e_nr ;;
  if value_lt eff (1 / 1000000) then Ok (Num 0)
  else
    rate0 <- rate_wimp (e_nr * 1000 * eV nu)
                       (mw * GeV nu / (c0 nu) ^ 2)
                       (Rpower 10 log_cross_section * (cm nu) ^ 2)
                       (material self_detector) ;;
    let rate := rate0 * (keV nu * (1000 * kg nu) * year nu) in
    Ok (value_scale eff rate).

Definition integrate_rate (mw log_cross_section : R) : py_result value :=
  r <- quad (d_rate mw log_cross_section)
            (fst (e_roi self_detector)) (snd (e_roi self_detector))
            (1 / 100) ;;
  let total_rate := fst r in
  Ok (value_scale total_rate
        (exposure self_detector * efficiency self_detector)).

End RateIntegrator.

Section LimitSolver.

Variable rel : scipy.release.

(** [self.integrate_rate], which the tests replace by a mock.  The count
    it returns is taken to be a number. *)
Variable integrate_rate : R -> R -> py_result R.

(** The loop of [_get_limit]: the cross-sections at which
    [integrate_rate] was called, in call order, and [n_observed]. *)
Fixpoint observe (mw : R) (sigmas : list R)
  : list R * py_result (list R) :=
  match sigmas with
  | [] => ([], Ok [])
  | s :: rest =>
      match integrate_rate mw s with
      | Raise e => ([s], Raise e)
      | Ok n_i =>
          if Rgt_dec n_i no_background_possion then ([s], Ok [n_i])
          else
            let (calls, r) := observe mw rest in
            (s :: calls, n_observed <- r ;; Ok (n_i :: n_observed))
      end
  end.

(** [itp(self.no_background_possion)] for the mass [mw]. *)
Definition limit_for (sigmas : list R) (mw : R) : py_result value :=
  n_observed <- snd (observe mw sigmas) ;;
  itp <- scipy.interp1d rel n_observed
           (np.pow10 (firstn (length n_observed) sigmas)) NaN ;;
  Ok (scipy.call itp no_background_possion).

(** [results[result_i] = v] on a Python list. *)
Fixpoint setitem (results : list value) (result_i : nat) (v : value)
  : py_result (list value) :=
  match results, result_i with
  | [], _ => Raise IndexError
  | _ :: tl, O => Ok (v :: tl)
  | hd :: tl, S i => tl' <- setitem tl i v ;; Ok (hd :: tl')
  end.

(** [_get_limit]: the list [results] after the call, or the exception
    that ends the call. *)
Definition _get_limit (results : list value) (sigmas : list R)
  (result_i : nat) (mw : R) : py_result (list value) :=
  v <- limit_for sigmas mw ;;
  setitem results result_i v.

(** *** The scan scheduler [set_limits] *)

Variable mass_range : list R.
Variable log_sigma_range : R * R.
Variable n_sigma_bins : nat.
Variable n_threads : Z.

Definition sigmas : list R :=
  np.linspace (fst log_sigma_range) (snd log_sigma_range) n_sigma_bins.

(** Where the dispatching thread stands: at the test of the inner
    [while] for the mass of index [i] (or leaving the [for] loop when
    the masses are exhausted), at the test of the final [while] with the
    current [n_alive], or returned. *)
Inductive pc : Type :=
| Launching (i : nat)
| Joining (n_alive : Z)
| Returned (out : list value).

(** Threads are named by their [result_i].  [st_threads] is the list
    [threads]; [st_alive] holds the threads for which [is_alive()] is
    true. *)
Record state : Type := mk_state {
  st_pc : pc;
  st_threads : list nat;
  st_alive : list nat;
  st_results : list value
}.

Definition is_alive (s : state) (t : nat) : bool :=
  existsb (Nat.eqb t) (st_alive s).

Definition init : state :=
  mk_state (Launching 0) [] [] (repeat (Num 0) (length mass_range)).

Inductive event : Type :=
| Main
| Finish (t : nat).

(** One step of the dispatching thread. *)
Definition step_main (s : state) : option state :=
  match st_pc s with
  | Launching i =>
      match nth_error mass_range i with
      | Some mw =>
          if (Z.of_nat (length (st_threads s)) >? n_threads)%Z then
            Some (mk_state (Launching i)
                    (filter (is_alive s) (st_threads s))
                    (st_alive s) (st_results s))
          else
            Some (mk_state (Launching (S i))
                    (st_threads s ++ [i])
                    (i :: st_alive s) (st_results s))
      | None =>
          Some (mk_state (Joining n_threads)
                  (st_threads s) (st_alive s) (st_results s))
      end
  | Joining n_alive =>
      if (n_alive =? 0)%Z then
        Some (mk_state (Returned (st_results s))
                (st_threads s) (st_alive s) (st_results s))
      else
        Some (mk_state
                (Joining (Z.of_nat
                   (length (filter (is_alive s) (st_threads s)))))
                (st_threads s) (st_alive s) (st_results s))
  | Returned _ => None
  end.

(** The worker [t] runs [_get_limit] to its end and dies.  An exception
    raised in a [threading.Thread] ends that thread only. *)
Definition step_finish (t : nat) (s : state) : option state :=
  if is_alive s t then
    let results' :=
      match nth_error mass_range t with
      | Some mw =>
          match _get_limit (st_results s) sigmas t mw with
          | Ok r => r
          | Raise _ => st_results s
          end
      | None => st_results s
      end in
    Some (mk_state (st_pc s) (st_threads s)
            (filter (fun u => negb (Nat.eqb t u)) (st_alive s)) results')
  else None.

Definition step (ev : event) (s : state) : option state :=
  match ev with
  | Main => step_main s
  | Finish t => step_finish t s
  end.

Fixpoint run (evs : list event) (s : state) : option state :=
  match evs with
  | [] => Some s
  | ev :: evs' =>
      match step ev s with
      | Some s' => run evs' s'
      | None => None
      end
  end.

(** [set_limits] returns [out] along the schedule [evs]. *)
Definition set_limits (evs : list event) (out : list value) : Prop :=
  exists s, run evs init = Some s /\ st_pc s = Returned out.

(** The number of solve tasks alive in a state. *)
Definition n_running (s : state) : nat := length (st_alive s).

(** What the task of index [j] leaves in its slot: the value it solved
    for, or the initial 0 when it raised. *)
Definition slot (j : nat) : value :=
  match nth_error mass_range j with
  | Some mw =>
      match limit_for sigmas mw with
      | Ok v => v
      | Raise _ => Num 0
      end
  | None => Num 0
  end.

(** The number of tasks launched so far. *)
Definition launched (s : state) : nat :=
  match st_pc s with
  | Launching i => i
  | _ => length mass_range
  end.

(** What holds of every state a run of [set_limits] goes through. *)
Record invariant (s : state) : Prop := mk_invariant {
  inv_length : length (st_results s) = length mass_range;
  inv_launched : (launched s <= length mass_range)%nat;
  inv_nodup : NoDup (st_alive s);
  inv_alive_lt : forall t, In t (st_alive s) -> (t < launched s)%nat;
  inv_tracked : incl (st_alive s) (st_threads s);
  inv_cap :
    (Z.of_nat (length (st_threads s)) <= Z.max n_threads 0 + 1)%Z;
  inv_done : forall j, (j < launched s)%nat -> ~ In j (st_alive s) ->
    nth j (st_results s) (Num 0) = slot j;
  inv_pending : forall j, (launched s <= j)%nat \/ In j (st_alive s) ->
    nth j (st_results s) (Num 0) = Num 0;
  inv_join : forall a, st_pc s = Joining a -> a = 0%Z ->
    n_threads = 0%Z \/ st_alive s = [];
  inv_ret : forall out, st_pc s = Returned out ->
    length out = length mass_range /\
    (n_threads = 0%Z \/ (st_alive s = [] /\ out = st_results s))
}.

End LimitSolver.

(** *** The limit solver with rounded interpolation *)

Section RoundedSolver.

Variable rnd : R -> R.

(** [10 ** s] as it is computed. *)
Variable pow10 : R -> R.

Variable rel : scipy.release.
Variable integrate_rate : R -> R -> py_result R.

(** [itp(self.no_background_possion)] for the mass [mw], the interpolant
    computed with the rounding [rnd]. *)
Definition limit_for_fl (sigmas : list R) (mw : R) : py_result value :=
  n_observed <- snd (observe integrate_rate mw sigmas) ;;
  itp <- scipy.interp1d rel n_observed
           (map pow10 (firstn (length n_observed) sigmas)) NaN ;;
  Ok (scipy.call_fl rnd itp no_background_possion).

(** A valid grid: the cross-sections [10 ** s] computed for its points are
    floats, are not negative, and do not decrease along the grid. *)
Definition valid_grid (sigmas : list R) : Prop :=
  StronglySorted (fun a b => pow10 a <= pow10 b) sigmas /\
  Forall (fun s => 0 <= pow10 s /\ rnd (pow10 s) = pow10 s) sigmas.

End RoundedSolver.

(** *** The loop of [_get_limit] on counts that may be [nan] *)

Section Counts.

(** [self.integrate_rate] as [integrate_rate] above returns it: a number or
    [nan]. *)
Variable integrate_rate : R -> R -> py_result value.

(** [n_i > self.no_background_possion]: false for [nan]. *)
Definition exceeds (n_i : value) : bool :=
  match n_i with
  | Num r => if Rgt_dec r no_background_possion then true else false
  | NaN => false
  end.

(** The loop: the cross-sections at which [integrate_rate] was called, in
    call order, and [n_observed]. *)
Fixpoint observe_counts (mw : R) (sigmas : list R)
  : list R * py_result (list value) :=
  match sigmas with
  | [] => ([], Ok [])
  | s :: rest =>
      match integrate_rate mw s with
      | Raise e => ([s], Raise e)
      | Ok n_i =>
          if exceeds n_i then ([s], Ok [n_i])
          else
            let (calls, r) := observe_counts mw rest in
            (s :: calls, n_observed <- r ;; Ok (n_i :: n_observed))
      end
  end.

End Counts.

(** *** The scheduler at a finer grain

    In [step_finish] a worker stores its result and ends in one event.
    In the code the store [results[result_i] = ...] is the last statement
    of [_get_limit], and [is_alive()] is still true after it, until the
    thread has ended.  Here the two are separate events: [Store t] and
    [Exit t].  A worker whose [_get_limit] raises ends without a store. *)

Section Grain.

Variable rel : scipy.release.
Variable integrate_rate : R -> R -> py_result R.
Variable mass_range : list R.
Variable log_sigma_range : R * R.
Variable n_sigma_bins : nat.
Variable n_threads : Z.

(** The state of the scheduler, and the workers that have stored their
    result. *)
Record fine_state : Type := mk_fine {
  fs_sched : state;
  fs_stored : list nat
}.

Inductive fine_event : Type :=
| Dispatch
| Store (t : nat)
| Exit (t : nat).

Definition fine_init : fine_state := mk_fine (init mass_range) [].

Definition has_stored (fs : fine_state) (t : nat) : bool :=
  existsb (Nat.eqb t) (fs_stored fs).

(** What [_get_limit] does for the worker [t]: the list after the store,
    or the exception. *)
Definition work (s : state) (t : nat) : py_result (list value) :=
  match nth_error mass_range t with
  | Some mw =>
      _get_limit rel integrate_rate (st_results s)
        (sigmas log_sigma_range n_sigma_bins) t mw
  | None => Raise IndexError
  end.

Definition fine_step (ev : fine_event) (fs : fine_state)
  : option fine_state :=
  let s := fs_sched fs in
  match ev with
  | Dispatch =>
      match step_main mass_range n_threads s with
      | Some s' => Some (mk_fine s' (fs_stored fs))
      | None => None
      end
  | Store t =>
      if is_alive s t && negb (has_stored fs t) then
        match work s t with
        | Ok r =>
            Some (mk_fine
                    (mk_state (st_pc s) (st_threads s) (st_alive s) r)
                    (t :: fs_stored fs))
        | Raise _ => None
        end
      else None
  | Exit t =>
      if is_alive s t
         && (has_stored fs t
             || match work s t with Ok _ => false | Raise _ => true end)
      then
        Some (mk_fine
                (mk_state (st_pc s) (st_threads s)
                   (filter (fun u => negb (Nat.eqb t u)) (st_alive s))
                   (st_results s))
                (fs_stored fs))
      else None
  end.

Fixpoint fine_run (evs : list fine_event) (fs : fine_state)
  : option fine_state :=
  match evs with
  | [] => Some fs
  | ev :: evs' =>
      match fine_step ev fs with
      | Some fs' => fine_run evs' fs'
      | None => None
      end
  end.

(** What holds of every state a run at the finer grain goes through. *)
Record fine_invariant (fs : fine_state) : Prop := mk_fine_invariant {
  fi_length : length (st_results (fs_sched fs)) = length mass_range;
  fi_launched : (launched mass_range (fs_sched fs) <= length mass_range)%nat;
  fi_alive_lt : forall t, In t (st_alive (fs_sched fs)) ->
    (t < launched mass_range (fs_sched fs))%nat;
  fi_stored_lt : forall t, In t (fs_stored fs) ->
    (t < launched mass_range (fs_sched fs))%nat;
  fi_done : forall j,
    In j (fs_stored fs) \/
    ((j < launched mass_range (fs_sched fs))%nat /\
     ~ In j (st_alive (fs_sched fs))) ->
    nth j (st_results (fs_sched fs)) (Num 0)
    = slot rel integrate_rate mass_range log_sigma_range n_sigma_bins j;
  fi_pending : forall j,
    ~ In j (fs_stored fs) ->
    (launched mass_range (fs_sched fs) <= j)%nat \/
    In j (st_alive (fs_sched fs)) ->
    nth j (st_results (fs_sched fs)) (Num 0) = Num 0
}.

End Grain.

End LimitSetter.

(** ** Inputs

    The end-to-end scenario: one mass of 50 GeV,
    [log_sigma_range = (-46, -44)], [n_sigma_bins = 5], and
    [integrate_rate] replaced by a mock whose count is
    [10 ** (log_sigma + 46)]; and the other mocks, detectors and datasets
    on which the properties below are instantiated. *)

Module Scenario.

(** The mock of the scenario. *)
Definition mock_integrate_rate (mw log_cross_section : R) : py_result R :=
  Ok (Rpower 10 (log_cross_section + 46)).

(** A mock whose count is 3 at every cross-section. *)
Definition saturated_integrate_rate (mw log_cross_section : R)
  : py_result R :=
  Ok 3.

(** A mock that raises at every call. *)
Definition failing_integrate_rate (mw log_cross_section : R)
  : py_result R :=
  Raise OtherError.

(** A detector whose efficiency is 0 at every energy. *)
Definition blind_detector : LimitSetter.detector :=
  LimitSetter.mk_detector LZ.exposure LZ.efficiency LZ.e_roi LZ.material
    (fun _ => Ok (Num 0)).

(** A rate formula that raises whenever it is evaluated. *)
Definition raising_rate_wimp (es mw sigma_nucleon : R) (material : string)
  : py_result R :=
  Raise OtherError.

(** A quadrature of one sample, at the middle of the interval. *)
Definition midpoint_quad (func : R -> py_result value) (a b epsrel : R)
  : py_result (value * R) :=
  y <- func ((a + b) / 2) ;; Ok (value_scale y (b - a), 0).

Definition unit_system : LimitSetter.units :=
  LimitSetter.mk_units 1 1 1 1 1 1 1.

(** A dataset of two rows: efficiency 0 at 1 keV and 1 at 3 keV, not yet
    read. *)
Definition efficiency_world : LZ.world :=
  LZ.mk_world (Ok [[1; 3]; [0; 1]]) None 0.

(** The dataset file is missing. *)
Definition missing_world : LZ.world :=
  LZ.mk_world (Raise FileNotFoundError) None 0.

(** The schedule of a scan of one mass: launch, the task ends, leave the
    [for] loop, poll once, return. *)
Definition single_schedule : list LimitSetter.event :=
  [LimitSetter.Main; LimitSetter.Finish 0; LimitSetter.Main;
   LimitSetter.Main; LimitSetter.Main].

Definition mass_range : list R := [50].
Definition log_sigma_range : R * R := (-46, -44).
Definition n_sigma_bins : nat := 5.

End Scenario.

(** ** Python strings *)

Module str.

(** [s.replace(old, new)]: the occurrences of [old] are replaced from left
    to right without overlap; with an empty [old], [new] is put before
    every character and at the end.  [skip] counts the characters of an
    occurrence still to be passed over. *)
Fixpoint replace_from (skip : nat) (old new s : string) : string :=
  match s with
  | EmptyString => EmptyString
  | String c s' =>
      match skip with
      | S k => replace_from k old new s'
      | O =>
          if String.prefix old s then
            (new ++ replace_from (String.length old - 1) old new s')%string
          else String c (replace_from 0 old new s')
      end
  end.

Fixpoint intersperse_before (new s : string) : string :=
  match s with
  | EmptyString => new
  | String c s' => (new ++ String c (intersperse_before new s'))%string
  end.

Definition replace (s old new : string) : string :=
  match old with
  | EmptyString => intersperse_before new s
  | _ => replace_from 0 old new s
  end.

(** [s[:-1]]. *)
Fixpoint drop_last (s : string) : string :=
  match s with
  | EmptyString => EmptyString
  | String c EmptyString => EmptyString
  | String c s' => String c (drop_last s')
  end.

(** [sep.join(parts)] is [String.concat sep parts]. *)
Definition join (sep : string) (parts : list string) : string :=
  String.concat sep parts.

End str.

(** ** The helpers of [thesis_plots/main.py] *)

Module main.

(** Keys of a [dict], as far as they are modelled: strings and integers. *)
Inductive key : Type :=
| KStr (s : string)
| KInt (z : Z).

(** Python objects, as far as the helpers tell them apart.  [PObject]
    stands for an instance of any other class, which is not iterable; its
    flag says whether [hash] accepts it. *)
Inductive obj : Type :=
| PNone
| PInt (z : Z)
| PStr (s : string)
| PBytes (s : string)
| PTuple (l : list obj)
| PList (l : list obj)
| PDict (items : list (key * obj))
| PSeries (l : list obj)
| PArray (l : list obj)
| PObject (hashes : bool) (name : string).

Definition key_obj (k : key) : obj :=
  match k with
  | KStr s => PStr s
  | KInt z => PInt z
  end.

(** [to_str_tuple]; a tuple is held as [PTuple]. *)
Definition to_str_tuple (x : obj) : py_result obj :=
  match x with
  | PStr _ | PBytes _ => Ok (PTuple [x])
  | PList l => Ok (PTuple l)
  | PTuple l => Ok (PTuple l)
  | _ => Raise TypeError
  end.

(** [string_to_mathrm].  Neither backslash in the source starts an escape
    sequence of Python: the replacement is a backslash and a space, and the
    result opens with a dollar sign, a backslash and [mathrm]. *)
Definition string_to_mathrm (string : String.string) : String.string :=
  let string := str.replace string " " "\ " in
  ("$\mathrm{" ++ string ++ "}$")%string.

(** [hash(obj)] does not raise [TypeError]. *)
Fixpoint hashable (o : obj) : bool :=
  match o with
  | PNone | PInt _ | PStr _ | PBytes _ => true
  | PTuple l => forallb hashable l
  | PList _ | PDict _ | PSeries _ | PArray _ => false
  | PObject hashes _ => hashes
  end.

(** The order of [<] on two keys of one kind. *)
Definition key_leb (k1 k2 : key) : bool :=
  match k1, k2 with
  | KStr s1, KStr s2 => String.leb s1 s2
  | KInt z1, KInt z2 => (z1 <=? z2)%Z
  | KInt _, KStr _ => true
  | KStr _, KInt _ => false
  end.

Definition same_kind (k1 k2 : key) : bool :=
  match k1, k2 with
  | KStr _, KStr _ | KInt _, KInt _ => true
  | _, _ => false
  end.

Fixpoint insert_item {A : Type} (p : key * A) (l : list (key * A))
  : list (key * A) :=
  match l with
  | [] => [p]
  | q :: l' =>
      if key_leb (fst p) (fst q) then p :: q :: l'
      else q :: insert_item p l'
  end.

Fixpoint sort_by_key {A : Type} (l : list (key * A)) : list (key * A) :=
  match l with
  | [] => []
  | p :: l' => insert_item p (sort_by_key l')
  end.

(** [sorted(obj.items())].  The keys of a [dict] differ from one another,
    so the order of two items is the order of their keys; comparing a
    string with an integer raises [TypeError]. *)
Definition sorted_items {A : Type} (items : list (key * A))
  : py_result (list (key * A)) :=
  match items with
  | [] => Ok []
  | (k, _) :: rest =>
      if forallb (fun q => same_kind k (fst q)) rest
      then Ok (sort_by_key items)
      else Raise TypeError
  end.

Fixpoint sequence {A : Type} (l : list (py_result A)) : py_result (list A) :=
  match l with
  | [] => Ok []
  | r :: l' => a <- r ;; rest <- sequence l' ;; Ok (a :: rest)
  end.

(** [hashablize].  In the branch of a [dict] each value is paired with the
    outcome of the recursive call before the items are sorted; the sort
    looks at the keys only, so the outcomes are met in the order in which
    the source computes them. *)
Fixpoint hashablize (o : obj) : py_result obj :=
  if hashable o then Ok o
  else
    match o with
    | PDict items =>
        sorted <- sorted_items
                    (map (fun kv : key * obj =>
                            let (k, v) := kv in (k, hashablize v)) items) ;;
        elems <- sequence
                   (map (fun kr : key * py_result obj =>
                           v <- snd kr ;; Ok (PTuple [key_obj (fst kr); v]))
                      sorted) ;;
        Ok (PTuple elems)
    | PTuple l | PList l | PSeries l | PArray l =>
        elems <- sequence (map hashablize l) ;;
        Ok (PTuple elems)
    | _ => Raise TypeError
    end.

(** [base64.b32encode] (RFC 4648): five bytes give eight characters, one
    per group of five bits; a shorter tail is filled with zero bytes and
    the characters that carry none of its bits are replaced by [=]. *)
Definition b32_alphabet : list ascii :=
  list_ascii_of_string "ABCDEFGHIJKLMNOPQRSTUVWXYZ234567".

Definition b32_char (n : N) : ascii :=
  nth (N.to_nat (n mod 32)) b32_alphabet "="%char.

Definition quantum (b1 b2 b3 b4 b5 : Byte.byte) : N :=
  ((((Byte.to_N b1 * 256 + Byte.to_N b2) * 256 + Byte.to_N b3) * 256
    + Byte.to_N b4) * 256 + Byte.to_N b5)%N.

Definition encode_quantum (q : N) : list ascii :=
  map (fun k => b32_char (N.shiftr q (5 * k))) [7; 6; 5; 4; 3; 2; 1; 0]%N.

Fixpoint b32encode (s : list Byte.byte) : list ascii :=
  match s with
  | [] => []
  | [b1] =>
      firstn 2 (encode_quantum (quantum b1 Byte.x00 Byte.x00 Byte.x00
                                  Byte.x00))
      ++ repeat "="%char 6
  | [b1; b2] =>
      firstn 4 (encode_quantum (quantum b1 b2 Byte.x00 Byte.x00 Byte.x00))
      ++ repeat "="%char 4
  | [b1; b2; b3] =>
      firstn 5 (encode_quantum (quantum b1 b2 b3 Byte.x00 Byte.x00))
      ++ repeat "="%char 3
  | [b1; b2; b3; b4] =>
      firstn 7 (encode_quantum (quantum b1 b2 b3 b4 Byte.x00))
      ++ repeat "="%char 1
  | b1 :: b2 :: b3 :: b4 :: b5 :: rest =>
      encode_quantum (quantum b1 b2 b3 b4 b5) ++ b32encode rest
  end.

(** [s[:stop]] for an integer [stop]: a negative [stop] counts from the
    end. *)
Definition slice_to {A : Type} (s : list A) (stop : Z) : list A :=
  if (0 <=? stop)%Z then firstn (Z.to_nat stop) s
  else firstn (List.length s - Z.to_nat (- stop)) s.

(** [c.lower()] on an ASCII character. *)
Definition lower (c : ascii) : ascii :=
  let n := nat_of_ascii c in
  if ((65 <=? n) && (n <=? 90))%nat then ascii_of_nat (n + 32) else c.

Section DeterministicHash.

(** [json.dumps(hashable, cls=json.JSONEncoder)], an external function,
    which raises on what it cannot serialise; its output is ASCII, so that
    [encode('ascii')] does not raise. *)
Variable json_dumps : obj -> py_result string.

(** [sha1(data).digest()], an external function. *)
Variable sha1_digest : string -> list Byte.byte.

Definition deterministic_hash (thing : obj) (length : Z)
  : py_result string :=
  hashable <- hashablize thing ;;
  jsonned <- json_dumps hashable ;;
  let digest := sha1_digest jsonned in
  Ok (string_of_list_ascii (map lower (slice_to (b32encode digest) length))).

End DeterministicHash.

(** Whether some space of [s] does not follow a backslash; [escaped] says
    whether the character before [s] is a backslash. *)
Fixpoint bare_space_after (escaped : bool) (s : string) : bool :=
  match s with
  | EmptyString => false
  | String c s' =>
      if Ascii.eqb c " " then negb escaped || bare_space_after false s'
      else bare_space_after (Ascii.eqb c "\") s'
  end.

Definition has_bare_space (s : string) : bool := bare_space_after false s.

(** *** [print_versions] *)

(** What [print_versions] reads of an imported module: the entries
    [__version__] and [__path__] of its [__dict__], when it has them. *)
Record module_info : Type := mk_module {
  dunder_version : option obj;
  dunder_path : option (list string)
}.

(** What [Repo(module_path, search_parent_directories=True)] gives: the
    exception [InvalidGitRepositoryError], or a repository, whose
    [active_branch] and [head.object.hexsha] are [None] here when reading
    them raises [TypeError].  Other exceptions of [Repo] are left out. *)
Inductive repo : Type :=
| InvalidGitRepository
| Repo (active_branch : option string) (hexsha : option string).

(** A [dict] of columns, in insertion order. *)
Definition columns : Type := list (string * list obj).

(** [d[key].append(v)] on a [defaultdict(list)]. *)
Fixpoint append_to (d : columns) (key : string) (v : obj) : columns :=
  match d with
  | [] => [(key, [v])]
  | (k, col) :: d' =>
      if String.eqb k key then (k, col ++ [v]) :: d'
      else (k, col) :: append_to d' key v
  end.

(** [d[key] = col]. *)
Fixpoint assign (d : columns) (key : string) (col : list obj) : columns :=
  match d with
  | [] => [(key, col)]
  | (k, c) :: d' =>
      if String.eqb k key then (k, col) :: d'
      else (k, c) :: assign d' key col
  end.

Definition opt_str (o : option string) : obj :=
  match o with
  | Some s => PStr s
  | None => PNone
  end.

Section Versions.

(** [import_module(name)]: the module, [Ok None] for the [ImportError]
    that [_version_info_for_module] catches, or another exception. *)
Variable import_module : obj -> py_result (option module_info).
Variable open_repo : option string -> repo.

(** The text an f-string gives for an object. *)
Variable format : obj -> string.
Variable python_version : string.
Variable sys_executable : string.
Variable getfqdn : string.
Variable to_string : columns -> string.

(** [_version_info_for_module]: the lines printed and the value
    returned, [None] for a module that is not installed. *)
Definition _version_info_for_module (module_name : obj) (include_git : bool)
  : list string * py_result (option (obj * obj * obj)) :=
  match import_module module_name with
  | Raise e => ([], Raise e)
  | Ok None => ([(format module_name ++ " is not installed")%string], Ok None)
  | Ok (Some mod_) =>
      let version :=
        match dunder_version mod_ with Some v => v | None => PNone end in
      match
        match dunder_path mod_ with
        | None => Ok None
        | Some [] => Raise IndexError
        | Some (p :: _) => Ok (Some p)
        end
      with
      | Raise e => ([], Raise e)
      | Ok module_path =>
          let git :=
            if include_git then
              match open_repo module_path with
              | InvalidGitRepository => PNone
              | Repo active_branch hexsha =>
                  let branch :=
                    match active_branch with
                    | Some b => b
                    | None => "unknown"%string
                    end in
                  let commit_hash :=
                    match hexsha with
                    | Some h => h
                    | None => "unknown"%string
                    end in
                  PStr ("branch:" ++ branch ++ " | "
                        ++ String.substring 0 7 commit_hash)
              end
            else PNone in
          ([], Ok (Some (version, opt_str module_path, git)))
      end
  end.

(** The loop of [print_versions] over the module names. *)
Fixpoint collect (modules : list obj) (include_git : bool)
  (versions : columns) : list string * py_result columns :=
  match modules with
  | [] => ([], Ok versions)
  | m :: rest =>
      let (printed, result) := _version_info_for_module m include_git in
      match result with
      | Raise e => (printed, Raise e)
      | Ok None =>
          let (printed', r) := collect rest include_git versions in
          (printed ++ printed', r)
      | Ok (Some (version, path, git_info)) =>
          let versions := append_to versions "module" m in
          let versions := append_to versions "version" version in
          let versions := append_to versions "path" path in
          let versions := append_to versions "git" git_info in
          let (printed', r) := collect rest include_git versions in
          (printed ++ printed', r)
      end
  end.

(** [print_versions]: the lines printed, and the data frame (its columns)
    or the message. *)
Definition print_versions (modules : obj)
  (print_output include_python return_string include_git : bool)
  : list string * py_result (columns + string) :=
  let versions : columns :=
    if include_python then
      assign (assign (assign (assign [] "module" [PStr "python"])
                        "version" [PStr python_version])
                "path" [PStr sys_executable])
        "git" [PNone]
    else [] in
  match to_str_tuple modules with
  | Ok (PTuple names) =>
      let (printed, r) := collect names include_git versions in
      match r with
      | Raise e => (printed, Raise e)
      | Ok df =>
          let info :=
            ("Host " ++ getfqdn ++ String "010" (to_string df))%string in
          (if print_output then printed ++ [info] else printed,
           Ok (if return_string then inr info else inl df))
      end
  | Ok _ => ([], Raise TypeError)
  | Raise e => ([], Raise e)
  end.

(** Whether [import_module] finds the module, and the line printed when
    it does not. *)
Definition installed (m : obj) : bool :=
  match import_module m with
  | Ok (Some _) => true
  | _ => false
  end.

Definition not_found (m : obj) : bool :=
  match import_module m with
  | Ok None => true
  | _ => false
  end.

Definition not_installed_line (m : obj) : string :=
  (format m ++ " is not installed")%string.

End Versions.

(** The four columns of the table of versions, in the order in which
    [print_versions] creates them. *)
Definition table (modules versions paths gits : list obj) : columns :=
  [("module"%string, modules); ("version"%string, versions);
   ("path"%string, paths); ("git"%string, gits)].

(** What the columns of [print_versions] look like: none at all, or the
    four columns of equal length whose first one is [ms], the last one
    holding only [None] when git information is not asked for. *)
Definition table_of (include_git : bool) (ms : list obj) (d : columns)
  : Prop :=
  (ms = [] /\ d = []) \/
  exists vs ps gs,
    d = table ms vs ps gs /\
    List.length vs = List.length ms /\ List.length ps = List.length ms /\
    List.length gs = List.length ms /\
    (include_git = false -> Forall (eq PNone) gs).

End main.

(** ** [StandardHaloModelReadable] *)

Module StandardHaloModelReadable.

(** [settings_name], on the items of [self.settings] in the order of the
    [dict]: each item gives its name, an underscore, its value and an
    underscore, and the last character of the whole is dropped. *)
Definition settings_name (settings : list (string * string)) : string :=
  let settings_name :=
    str.join ""
      (map (fun item : string * string =>
              (fst item ++ "_" ++ snd item ++ "_")%string) settings) in
  str.drop_last settings_name.

(** The names of the items of [self.settings], with the values, formatted
    by the f-strings of the source, left as they come. *)
Definition settings (v_0 v_esc rho_dm : string) : list (string * string) :=
  [("v_0", v_0); ("v_esc", v_esc); ("rho_dm", rho_dm)]%string.

End StandardHaloModelReadable.

(** ** More inputs *)

Module Samples.

(** A mock whose count is 1 at every cross-section, below the threshold. *)
Definition faint_integrate_rate (mw log_cross_section : R) : py_result R :=
  Ok 1.

(** Two masses. *)
Definition two_masses : list R := [50; 60].

(** The state in which both tasks of [two_masses] have been launched and
    none has ended. *)
Definition both_running : LimitSetter.state :=
  LimitSetter.mk_state (LimitSetter.Launching 2) [0; 1]%nat [1; 0]%nat
    [Num 0; Num 0].

(** A stand-in for [json.dumps] that returns the empty string, and one for
    [sha1] that returns twenty zero bytes. *)
Definition json_stub (o : main.obj) : py_result string := Ok ""%string.

Definition zero_digest (data : string) : list Byte.byte :=
  repeat Byte.x00 20.

(** A [dict] of two items, and the same items inserted in the other
    order. *)
Definition config : main.obj :=
  main.PDict [(main.KStr "b", main.PInt 2);
              (main.KStr "a", main.PList [main.PInt 1])].

Definition config_swapped : main.obj :=
  main.PDict [(main.KStr "a", main.PList [main.PInt 1]);
              (main.KStr "b", main.PInt 2)].

(** A mock that is the mock of the scenario for a mass of at most 50 GeV
    and the saturated one for a heavier mass. *)
Definition split_integrate_rate (mw log_cross_section : R) : py_result R :=
  if Rle_dec mw 50 then Scenario.mock_integrate_rate mw log_cross_section
  else Scenario.saturated_integrate_rate mw log_cross_section.

(** The schedule of a scan of two masses in which the second task ends
    before the first. *)
Definition crossed_schedule : list LimitSetter.event :=
  [LimitSetter.Main; LimitSetter.Main; LimitSetter.Finish 1;
   LimitSetter.Finish 0; LimitSetter.Main; LimitSetter.Main;
   LimitSetter.Main].

(** A mock that returns [nan] at the first point of the scenario and 3
    elsewhere. *)
Definition nan_first_integrate_rate (mw log_cross_section : R)
  : py_result value :=
  if Req_dec_T log_cross_section (-46) then Ok NaN else Ok (Num 3).

(** An environment with one installed module, [numpy], one whose
    [__path__] is empty, [hollow], and no repository anywhere. *)
Definition import_stub (m : main.obj) : py_result (option main.module_info) :=
  match m with
  | main.PStr "numpy" =>
      Ok (Some (main.mk_module (Some (main.PStr "1.26")) (Some ["/site/numpy"%string])))
  | main.PStr "hollow" => Ok (Some (main.mk_module None (Some [])))
  | _ => Ok None
  end.

Definition no_repo (path : option string) : main.repo :=
  main.InvalidGitRepository.

Definition format_stub (o : main.obj) : string :=
  match o with
  | main.PStr s => s
  | _ => "?"%string
  end.

Definition to_string_stub (df : main.columns) : string := ""%string.

End Samples.

(** * Properties *)

(** ** Sorting and interpolation *)

Section Interpolation.

Import np.

Lemma last_cons {A : Type} (l : list A) : forall a d,
  last (a :: l) d = last l a.
Proof.
  induction l as [|b l IH]; intros a d; [reflexivity|].
  change (last (a :: b :: l) d) with (last (b :: l) d).
  rewrite !IH. reflexivity.
Qed.

Lemma last_in {A : Type} (l : list A) : forall d, In (last l d) (d :: l).
Proof.
  induction l as [|a l IH]; intros d; [left; reflexivity|].
  right. rewrite last_cons. apply IH.
Qed.

Lemma insert_pt_In p q l :
  In q (np.insert_pt p l) <-> q = p \/ In q l.
Proof.
  induction l as [|a l IH]; simpl.
  - intuition.
  - destruct (Rle_dec (fst p) (fst a)); simpl; rewrite ?IH; intuition.
Qed.

Lemma sort_pts_In q l : In q (np.sort_pts l) <-> In q l.
Proof.
  induction l as [|a l IH]; simpl; [tauto|].
  rewrite insert_pt_In, IH. intuition.
Qed.

Lemma insert_pt_sorted p l :
  StronglySorted le_x l -> StronglySorted le_x (np.insert_pt p l).
Proof.
  induction 1 as [|a l Hs IH Ha]; simpl.
  - constructor; constructor.
  - destruct (Rle_dec (fst p) (fst a)) as [Hle|Hgt].
    + constructor; [constructor; assumption|].
      constructor; [exact Hle|].
      rewrite Forall_forall in *. intros x Hx.
      unfold le_x in *. specialize (Ha x Hx). lra.
    + constructor; [exact IH|].
      rewrite Forall_forall in *. intros x Hx.
      apply insert_pt_In in Hx. destruct Hx as [->|Hx].
      * unfold le_x. lra.
      * auto.
Qed.

Lemma sort_pts_sorted l : StronglySorted le_x (np.sort_pts l).
Proof.
  induction l; simpl; [constructor | apply insert_pt_sorted; assumption].
Qed.

(** In a sorted list the last abscissa is the largest. *)
Lemma sorted_last_max l :
  StronglySorted le_x l ->
  forall p q, In q l -> fst q <= fst (last l p).
Proof.
  induction 1 as [|a l Hs IH Ha]; intros p q Hq; [destruct Hq|].
  destruct l as [|b l'].
  - destruct Hq as [->|[]]. simpl. lra.
  - change (last (a :: b :: l') p) with (last (b :: l') p).
    destruct Hq as [->|Hq].
    + rewrite Forall_forall in Ha.
      assert (Hb : le_x q b) by (apply Ha; left; reflexivity).
      specialize (IH p b (or_introl eq_refl)). unfold le_x in Hb. lra.
    + apply IH. exact Hq.
Qed.

Lemma sorted_head_min a l :
  StronglySorted le_x (a :: l) ->
  forall q, In q (a :: l) -> fst a <= fst q.
Proof.
  intros Hs q [->|Hq]; [lra|].
  inversion Hs as [|? ? _ Ha]; subst.
  rewrite Forall_forall in Ha. exact (Ha q Hq).
Qed.

(** The interpolant at [v] is read off the two neighbouring points that
    bracket [v]. *)
Lemma interp_segment pts : forall p v,
  fst p <= v -> v < fst (last pts p) ->
  exists pre p0 p1 post,
    p :: pts = pre ++ p0 :: p1 :: post /\
    fst p0 <= v < fst p1 /\
    np.interp (p :: pts) v =
      (snd p1 - snd p0) / (fst p1 - fst p0) * (v - fst p0) + snd p0.
Proof.
  induction pts as [|q pts IH]; intros p v Hlo Hhi.
  - simpl in Hhi. lra.
  - destruct p as [x0 y0]. destruct q as [x1 y1].
    change (np.interp ((x0, y0) :: (x1, y1) :: pts) v) with
      (if Rlt_dec v x1 then
         if Req_dec_T x0 v then y0
         else (y1 - y0) / (x1 - x0) * (v - x0) + y0
       else np.interp ((x1, y1) :: pts) v).
    destruct (Rlt_dec v x1) as [Hlt|Hge].
    + exists [], (x0, y0), (x1, y1), pts. simpl in *.
      split; [reflexivity|]. split; [lra|].
      destruct (Req_dec_T x0 v) as [->|Hne]; [|reflexivity].
      unfold Rdiv. ring.
    + rewrite last_cons in Hhi.
      destruct (IH (x1, y1) v) as (pre & p0 & p1 & post & E & Hb & Hv).
      * simpl. lra.
      * exact Hhi.
      * exists ((x0, y0) :: pre), p0, p1, post.
        rewrite E. split; [reflexivity|]. split; [exact Hb|].
        rewrite <- E. exact Hv.
Qed.

(** An interpolator called between two of its abscissae returns the value
    of the chord through the two neighbouring points that bracket the
    argument. *)
Lemma call_between x y fill v a b :
  length x = length y ->
  In a x -> In b x -> a <= v < b ->
  exists pre p0 p1 post,
    np.sort_pts (combine x y) = pre ++ p0 :: p1 :: post /\
    fst p0 <= v < fst p1 /\
    scipy.call (scipy.mk_interp1d (np.sort_pts (combine x y)) fill) v
      = Num ((snd p1 - snd p0) / (fst p1 - fst p0) * (v - fst p0) + snd p0).
Proof.
  intros Hlen Ha Hb Hv.
  assert (Hin : forall r, In r x -> exists s, In (r, s) (combine x y)).
  { clear -Hlen. revert y Hlen.
    induction x as [|x0 x IH]; intros y Hlen r Hr; [destruct Hr|].
    destruct y as [|y0 y]; [discriminate|].
    destruct Hr as [->|Hr].
    - exists y0. left. reflexivity.
    - destruct (IH y (eq_add_S _ _ Hlen) r Hr) as [s Hs].
      exists s. right. exact Hs. }
  destruct (Hin a Ha) as [sa Hsa]. destruct (Hin b Hb) as [sb Hsb].
  apply (proj2 (sort_pts_In _ _)) in Hsa.
  apply (proj2 (sort_pts_In _ _)) in Hsb.
  assert (Hs := sort_pts_sorted (combine x y)).
  unfold scipy.call. simpl.
  destruct (np.sort_pts (combine x y)) as [|p rest] eqn:E;
    [destruct Hsa|].
  assert (Hmin : fst p <= a)
    by exact (sorted_head_min p rest Hs (a, sa) Hsa).
  assert (Hmax : b <= fst (last rest p)).
  { destruct rest as [|q rest'].
    - destruct Hsb as [Ep|[]]. subst p. simpl. lra.
    - inversion Hs as [|? ? Hs' Hp]; subst.
      rewrite Forall_forall in Hp.
      destruct Hsb as [Ep|Hsb].
      + assert (H1 : le_x p q) by (apply Hp; left; reflexivity).
        assert (H2 : fst q <= fst (last (q :: rest') p))
          by (apply sorted_last_max; [exact Hs'|left; reflexivity]).
        unfold le_x in H1. rewrite Ep in H1. simpl in H1. lra.
      + exact (sorted_last_max _ Hs' p (b, sb) Hsb). }
  destruct (Rlt_dec v (fst p)); [lra|].
  destruct (Rlt_dec (fst (last rest p)) v); [lra|].
  destruct (interp_segment rest p v)
    as (pre & p0 & p1 & post & E' & Hbr & Hval);
    [lra|lra|].
  exists pre, p0, p1, post. rewrite Hval. auto.
Qed.

(** Outside the range of its abscissae an interpolator returns its fill
    value. *)
Lemma call_outside x y fill v :
  (forall a, In a x -> v < a) \/ (forall a, In a x -> a < v) ->
  scipy.call (scipy.mk_interp1d (np.sort_pts (combine x y)) fill) v = fill.
Proof.
  intros Hout. unfold scipy.call. simpl.
  destruct (np.sort_pts (combine x y)) as [|p rest] eqn:E; [reflexivity|].
  assert (Hx : forall q, In q (p :: rest) -> In (fst q) x).
  { intros [qx qy] Hq. rewrite <- E in Hq.
    apply (proj1 (sort_pts_In _ _)) in Hq.
    apply in_combine_l in Hq. exact Hq. }
  assert (Hp : In (fst p) x) by (apply Hx; left; reflexivity).
  assert (Hl : In (fst (last rest p)) x).
  { apply Hx. apply last_in. }
  destruct Hout as [Hlow|Hhigh].
  - destruct (Rlt_dec v (fst p)) as [_|Hn]; [reflexivity|].
    exfalso. apply Hn, Hlow, Hp.
  - destruct (Rlt_dec v (fst p)) as [_|_]; [reflexivity|].
    destruct (Rlt_dec (fst (last rest p)) v) as [_|Hn]; [reflexivity|].
    exfalso. apply Hn, Hhigh, Hl.
Qed.

End Interpolation.

(** ** The limit solver *)

Section Solver.

Variable rel : scipy.release.
Variable integrate_rate : R -> R -> py_result R.

Local Notation thr := LimitSetter.no_background_possion.
Local Notation observe := (LimitSetter.observe integrate_rate).
Local Notation limit_for := (LimitSetter.limit_for rel integrate_rate).

Lemma firstn_length_app {A : Type} (l1 l2 : list A) n :
  n = length l1 -> firstn n (l1 ++ l2) = l1.
Proof.
  intros ->. induction l1 as [|a l1 IH]; simpl.
  - reflexivity.
  - rewrite IH. reflexivity.
Qed.

(** The loop calls the integrator on the grid points in grid order, up to
    and including the first one whose count exceeds the threshold. *)
Lemma observe_prefix mw pre cs s c post :
  Forall2 (fun s' c' => integrate_rate mw s' = Ok c' /\ c' <= thr) pre cs ->
  integrate_rate mw s = Ok c -> c > thr ->
  observe mw (pre ++ s :: post) = (pre ++ [s], Ok (cs ++ [c])).
Proof.
  intros Hpre Hs Hc.
  induction Hpre as [|s' c' pre cs [Hs' Hc'] _ IH]; simpl.
  - rewrite Hs. destruct (Rgt_dec c thr); [reflexivity|contradiction].
  - rewrite Hs'. destruct (Rgt_dec c' thr) as [Hgt|_]; [lra|].
    rewrite IH. reflexivity.
Qed.

(** When no count exceeds the threshold the whole grid is evaluated. *)
Lemma observe_all mw sigmas cs :
  Forall2 (fun s' c' => integrate_rate mw s' = Ok c' /\ c' <= thr) sigmas cs ->
  observe mw sigmas = (sigmas, Ok cs).
Proof.
  induction 1 as [|s' c' pre cs' [Hs' Hc'] _ IH]; simpl.
  - reflexivity.
  - rewrite Hs'. destruct (Rgt_dec c' thr) as [Hgt|_]; [lra|].
    rewrite IH. reflexivity.
Qed.

(** The calls, the data of the interpolator and the value written, when
    the count first exceeds the threshold at the grid point [s]. *)
Lemma limit_for_prefix mw pre cs s c post results i :
  Forall2 (fun s' c' => integrate_rate mw s' = Ok c' /\ c' <= thr) pre cs ->
  integrate_rate mw s = Ok c -> c > thr ->
  observe mw (pre ++ s :: post) = (pre ++ [s], Ok (cs ++ [c])) /\
  limit_for (pre ++ s :: post) mw =
    (itp <- scipy.interp1d rel (cs ++ [c]) (np.pow10 (pre ++ [s])) NaN ;;
     Ok (scipy.call itp thr)) /\
  LimitSetter._get_limit rel integrate_rate results (pre ++ s :: post) i mw =
    (itp <- scipy.interp1d rel (cs ++ [c]) (np.pow10 (pre ++ [s])) NaN ;;
     LimitSetter.setitem results i (scipy.call itp thr)).
Proof.
  intros Hpre Hs Hc.
  assert (Hobs := observe_prefix mw pre cs s c post Hpre Hs Hc).
  assert (Hlen : length (cs ++ [c]) = length (pre ++ [s])).
  { rewrite !length_app. simpl.
    rewrite (Forall2_length Hpre). reflexivity. }
  assert (Hfirst : firstn (length (cs ++ [c])) (pre ++ s :: post)
                   = pre ++ [s]).
  { replace (pre ++ s :: post) with ((pre ++ [s]) ++ post)
      by (rewrite <- app_assoc; reflexivity).
    apply firstn_length_app. exact Hlen. }
  assert (Hlim : limit_for (pre ++ s :: post) mw =
    (itp <- scipy.interp1d rel (cs ++ [c]) (np.pow10 (pre ++ [s])) NaN ;;
     Ok (scipy.call itp thr))).
  { unfold LimitSetter.limit_for. rewrite Hobs. simpl snd.
    unfold bind at 1. rewrite Hfirst. reflexivity. }
  split; [exact Hobs|]. split; [exact Hlim|].
  unfold LimitSetter._get_limit. rewrite Hlim.
  destruct (scipy.interp1d rel (cs ++ [c]) (np.pow10 (pre ++ [s])) NaN);
    reflexivity.
Qed.

(** C4.  The solver calls the rate integrator on the grid points in grid
    order and stops at the first grid point [s] whose count exceeds 2.3:
    the calls are exactly [pre ++ [s]], whatever the grid holds after [s].
    The interpolator is built from the counts and the cross-sections of
    exactly these points, and its value at 2.3 is what is written to the
    result slot. *)
Theorem get_limit_stops_at_first_exceedance mw pre cs s c post results i :
  Forall2 (fun s' c' => integrate_rate mw s' = Ok c' /\ c' <= thr) pre cs ->
  integrate_rate mw s = Ok c -> c > thr ->
  observe mw (pre ++ s :: post) = (pre ++ [s], Ok (cs ++ [c])) /\
  limit_for (pre ++ s :: post) mw =
    (itp <- scipy.interp1d rel (cs ++ [c]) (np.pow10 (pre ++ [s])) NaN ;;
     Ok (scipy.call itp thr)) /\
  LimitSetter._get_limit rel integrate_rate results (pre ++ s :: post) i mw =
    (itp <- scipy.interp1d rel (cs ++ [c]) (np.pow10 (pre ++ [s])) NaN ;;
     LimitSetter.setitem results i (scipy.call itp thr)).
Proof. exact (limit_for_prefix mw pre cs s c post results i). Qed.

End Solver.

(** ** Where the solved limit lies *)

Lemma Rpower10_mono a b : a <= b -> Rpower 10 a <= Rpower 10 b.
Proof. intros H. apply Rle_Rpower; lra. Qed.

Lemma Rpower10_pos a : 0 < Rpower 10 a.
Proof. unfold Rpower. apply exp_pos. Qed.

Lemma interp1d_two_or_more rel x y fill :
  length x = length y -> (2 <= length x)%nat ->
  scipy.interp1d rel x y fill
    = Ok (scipy.mk_interp1d (np.sort_pts (combine x y)) fill).
Proof.
  intros Hlen H2. unfold scipy.interp1d.
  rewrite Hlen, Nat.eqb_refl. simpl negb. cbv iota.
  rewrite <- Hlen.
  destruct (length x <? scipy.minval rel)%nat eqn:E; [|reflexivity].
  apply Nat.ltb_lt in E. destruct rel; simpl in E; lia.
Qed.

(** A one-point interpolator, when the release builds it, has nothing but
    its fill value below its only abscissa. *)
Lemma limit_first_point_exceeds rel integrate_rate mw s0 c0 rest :
  integrate_rate mw s0 = Ok c0 ->
  c0 > LimitSetter.no_background_possion ->
  LimitSetter.observe integrate_rate mw (s0 :: rest) = ([s0], Ok [c0]) /\
  LimitSetter.limit_for rel integrate_rate (s0 :: rest) mw =
    match rel with
    | scipy.MinTwoEntries => Raise ValueError
    | scipy.MinOneEntry => Ok NaN
    end.
Proof.
  intros H0 Hc0.
  destruct (limit_for_prefix rel integrate_rate mw
              [] [] s0 c0 rest [] 0%nat (Forall2_nil _) H0 Hc0)
    as (Hobs & Hlim & _).
  simpl app in *. split; [exact Hobs|]. rewrite Hlim.
  destruct rel; [reflexivity|].
  unfold scipy.interp1d, scipy.call, bind. simpl.
  destruct (Rlt_dec LimitSetter.no_background_possion c0); [reflexivity|lra].
Qed.

(** ** The end-to-end scenario *)

Lemma scenario_grid :
  np.linspace (-46) (-44) 5 = [-46; -91 / 2; -45; -89 / 2; -44].
Proof.
  unfold np.linspace. simpl.
  repeat (apply f_equal2; [lra|]). reflexivity.
Qed.

Lemma Rpower10_half_sq : Rpower 10 (1 / 2) * Rpower 10 (1 / 2) = 10.
Proof.
  rewrite <- Rpower_plus.
  replace (1 / 2 + 1 / 2) with 1 by lra.
  apply Rpower_1. lra.
Qed.

Lemma Rpower10_half_gt : Rpower 10 (1 / 2) > 23 / 10.
Proof.
  pose proof Rpower10_half_sq as Hsq.
  pose proof (Rpower10_pos (1 / 2)) as Hpos.
  nra.
Qed.

Lemma scenario_limit rel :
  LimitSetter.limit_for rel Scenario.mock_integrate_rate
    (np.linspace (-46) (-44) 5) 50
  = Ok (Num (23 / 10 * Rpower 10 (-46))).
Proof.
  rewrite scenario_grid.
  set (r := Rpower 10 (1 / 2)).
  assert (Hr : r > 23 / 10) by apply Rpower10_half_gt.
  destruct (limit_for_prefix rel Scenario.mock_integrate_rate 50
              [-46] [1] (-91 / 2) r [-45; -89 / 2; -44] [] 0%nat)
    as (_ & Hlim & _).
  - constructor; [|constructor]. unfold Scenario.mock_integrate_rate.
    replace (-46 + 46) with 0 by lra. rewrite Rpower_O by lra.
    split; [reflexivity|]. unfold LimitSetter.no_background_possion. lra.
  - unfold Scenario.mock_integrate_rate, r. do 2 f_equal. lra.
  - exact Hr.
  - simpl app in Hlim. rewrite Hlim.
    rewrite interp1d_two_or_more by (simpl; auto).
    unfold bind, scipy.call, np.pow10. simpl.
    destruct (Rle_dec 1 r) as [_|Hn]; [|lra]. simpl.
    unfold LimitSetter.no_background_possion.
    destruct (Rlt_dec (23 / 10) 1) as [Hc|_]; [lra|].
    destruct (Rlt_dec r (23 / 10)) as [Hc|_]; [lra|].
    destruct (Rlt_dec (23 / 10) r) as [_|Hc]; [|lra].
    destruct (Req_dec_T 1 (23 / 10)) as [Hc|_]; [lra|].
    do 2 f_equal.
    replace (Rpower 10 (-91 / 2)) with (Rpower 10 (-46) * r).
    + field. lra.
    + unfold r. rewrite <- Rpower_plus. f_equal. lra.
Qed.

Lemma log10_scenario :
  np.log10 (23 / 10 * Rpower 10 (-46)) = np.log10 (23 / 10) - 46.
Proof.
  unfold np.log10.
  rewrite ln_mult by (try apply Rpower10_pos; lra).
  unfold Rpower. rewrite ln_exp.
  assert (0 < ln 10) by (rewrite <- ln_1; apply ln_increasing; lra).
  field. lra.
Qed.

(** ** The scan scheduler *)

Lemma setitem_spec results : forall i v,
  (i < length results)%nat ->
  exists r, LimitSetter.setitem results i v = Ok r /\
    length r = length results /\
    nth i r (Num 0) = v /\
    forall j, j <> i -> nth j r (Num 0) = nth j results (Num 0).
Proof.
  induction results as [|hd tl IH]; intros i v Hi; simpl in Hi; [lia|].
  destruct i as [|i].
  - exists (v :: tl). simpl. repeat split.
    intros [|j] Hj; [congruence|reflexivity].
  - destruct (IH i v) as (r & Hr & Hlen & Hnth & Hoth); [lia|].
    exists (hd :: r). simpl. rewrite Hr. simpl. repeat split.
    + rewrite Hlen. reflexivity.
    + exact Hnth.
    + intros [|j] Hj; [reflexivity|]. apply Hoth. congruence.
Qed.

Section Scheduler.

Variable rel : scipy.release.
Variable integrate_rate : R -> R -> py_result R.
Variable mass_range : list R.
Variable log_sigma_range : R * R.
Variable n_sigma_bins : nat.
Variable n_threads : Z.

Import LimitSetter.

Local Notation state := (LimitSetter.state).
Local Notation sigmas := (LimitSetter.sigmas log_sigma_range n_sigma_bins).
Local Notation step :=
  (LimitSetter.step rel integrate_rate mass_range log_sigma_range
     n_sigma_bins n_threads).
Local Notation run :=
  (LimitSetter.run rel integrate_rate mass_range log_sigma_range
     n_sigma_bins n_threads).
Local Notation init := (LimitSetter.init mass_range).
Local Notation set_limits :=
  (LimitSetter.set_limits rel integrate_rate mass_range log_sigma_range
     n_sigma_bins n_threads).
Local Notation limit_of mw :=
  (LimitSetter.limit_for rel integrate_rate sigmas mw).
Local Notation invariant :=
  (LimitSetter.invariant rel integrate_rate mass_range log_sigma_range
     n_sigma_bins n_threads).
Local Notation slot :=
  (LimitSetter.slot rel integrate_rate mass_range log_sigma_range
     n_sigma_bins).
Local Notation launched := (LimitSetter.launched mass_range).

Lemma is_alive_In (s : state) t : is_alive s t = true <-> In t (st_alive s).
Proof.
  unfold is_alive. rewrite existsb_exists. split.
  - intros (u & Hu & E). apply Nat.eqb_eq in E. subst. exact Hu.
  - intros H. exists t. split; [exact H|apply Nat.eqb_refl].
Qed.

Lemma run_app evs1 : forall evs2 s,
  run (evs1 ++ evs2) s =
  match run evs1 s with
  | Some s' => run evs2 s'
  | None => None
  end.
Proof.
  induction evs1 as [|ev evs1 IH]; intros evs2 s; simpl; [reflexivity|].
  destruct (step ev s); [apply IH|reflexivity].
Qed.

Lemma filter_alive_nil (s : state) :
  st_alive s = [] -> filter (is_alive s) (st_threads s) = [].
Proof.
  intros E. induction (st_threads s) as [|t l IH]; simpl; [reflexivity|].
  unfold is_alive at 1. rewrite E. simpl. exact IH.
Qed.

(** Every worker can run to its end: the running tasks can all finish,
    which leaves the dispatching thread where it was. *)
Lemma drain : forall k (s : state),
  (length (st_alive s) <= k)%nat ->
  exists evs s', run evs s = Some s' /\
    st_alive s' = [] /\ st_pc s' = st_pc s /\ st_threads s' = st_threads s.
Proof.
  induction k as [|k IH]; intros s Hk.
  - exists [], s. destruct (st_alive s); [auto|simpl in Hk; lia].
  - destruct (st_alive s) as [|t rest] eqn:E.
    + exists [], s. auto.
    + assert (Hal : is_alive s t = true)
        by (apply is_alive_In; rewrite E; left; reflexivity).
      destruct (step (Finish t) s) as [s1|] eqn:E1;
        simpl in E1; unfold step_finish in E1; rewrite Hal in E1;
        [|discriminate].
      injection E1 as E1.
      destruct (IH s1) as (evs & s' & Hrun & Ha & Hp & Ht).
      * rewrite <- E1. simpl. rewrite E. simpl. rewrite Nat.eqb_refl. simpl.
        pose proof (filter_length_le (fun u => negb (t =? u)%nat) rest).
        simpl in Hk. lia.
      * exists (Finish t :: evs), s'. simpl. unfold step_finish.
        rewrite Hal, E1. rewrite Hrun, Ha, Hp, Ht. rewrite <- E1. auto.
Qed.

Lemma join_returns (s : state) a :
  st_pc s = Joining a -> st_alive s = [] ->
  exists evs out, exists s', run evs s = Some s' /\ st_pc s' = Returned out.
Proof.
  intros Hpc Ha.
  destruct (Z.eqb a 0) eqn:Ea.
  - exists [Main], (st_results s). eexists. simpl. unfold step_main.
    rewrite Hpc, Ea. split; reflexivity.
  - exists [Main; Main], (st_results s). eexists. simpl. unfold step_main.
    rewrite Hpc, Ea. simpl. rewrite (filter_alive_nil s Ha). simpl.
    split; reflexivity.
Qed.

Lemma launch_returns : forall k i (s : state),
  (0 <= n_threads)%Z ->
  (length mass_range - i <= k)%nat ->
  st_pc s = Launching i -> st_alive s = [] ->
  exists evs out, exists s', run evs s = Some s' /\ st_pc s' = Returned out.
Proof.
  induction k as [|k IH]; intros i s Hn Hk Hpc Ha.
  - assert (Hnone : nth_error mass_range i = None)
      by (apply nth_error_None; lia).
    destruct (join_returns
                (mk_state (Joining n_threads) (st_threads s) (st_alive s)
                   (st_results s)) n_threads eq_refl Ha)
      as (evs & out & s' & Hrun & Hout).
    exists (Main :: evs), out, s'. simpl. unfold step_main.
    rewrite Hpc, Hnone. auto.
  - destruct (nth_error mass_range i) as [mw|] eqn:Hmw.
    + (* the state in which task [i] is launched *)
      assert (Hlaunch : exists evs0 s0, run evs0 s = Some s0 /\
                st_pc s0 = Launching (S i) /\ st_alive s0 = [i]).
      { destruct (Z.of_nat (length (st_threads s)) >? n_threads)%Z eqn:Egt.
        - exists [Main; Main]. eexists. simpl. unfold step_main.
          rewrite Hpc, Hmw, Egt. simpl. rewrite Hmw.
          rewrite (filter_alive_nil s Ha). simpl.
          destruct (0 >? n_threads)%Z eqn:E0; [lia|].
          rewrite Ha. auto.
        - exists [Main]. eexists. simpl. unfold step_main.
          rewrite Hpc, Hmw, Egt, Ha. auto. }
      destruct Hlaunch as (evs0 & s0 & Hrun0 & Hpc0 & Ha0).
      destruct (drain 1 s0) as (evs1 & s1 & Hrun1 & Ha1 & Hpc1 & _);
        [rewrite Ha0; simpl; lia|].
      destruct (IH (S i) s1 Hn) as (evs2 & out & s2 & Hrun2 & Hout);
        [lia|congruence|exact Ha1|].
      exists (evs0 ++ evs1 ++ evs2), out, s2.
      rewrite run_app, Hrun0, run_app, Hrun1. auto.
    + destruct (join_returns
                  (mk_state (Joining n_threads) (st_threads s) (st_alive s)
                     (st_results s)) n_threads eq_refl Ha)
        as (evs & out & s' & Hrun & Hout).
      exists (Main :: evs), out, s'. simpl. unfold step_main.
      rewrite Hpc, Hmw. auto.
Qed.

(** With a concurrency limit that is not negative, whatever has happened
    so far, the call can still return. *)
Lemma can_return (s : state) :
  (0 <= n_threads)%Z ->
  exists evs out, exists s', run evs s = Some s' /\ st_pc s' = Returned out.
Proof.
  intros Hn.
  destruct (drain (length (st_alive s)) s (le_n _))
    as (evs1 & s1 & Hrun1 & Ha1 & Hpc1 & _).
  destruct (st_pc s1) as [i|a|out] eqn:Hpc.
  - destruct (launch_returns (length mass_range - i) i s1 Hn (le_n _) Hpc Ha1)
      as (evs2 & out & s2 & Hrun2 & Hout).
    exists (evs1 ++ evs2), out, s2. rewrite run_app, Hrun1. auto.
  - destruct (join_returns s1 a Hpc Ha1) as (evs2 & out & s2 & Hrun2 & Hout).
    exists (evs1 ++ evs2), out, s2. rewrite run_app, Hrun1. auto.
  - exists evs1, out, s1. auto.
Qed.

Lemma invariant_init : invariant init.
Proof.
  constructor; unfold LimitSetter.launched; simpl;
    try (intros; discriminate).
  - apply repeat_length.
  - lia.
  - constructor.
  - intros t [].
  - intros t [].
  - lia.
  - intros j Hj. lia.
  - intros j _. destruct (Nat.lt_ge_cases j (length mass_range)) as [Hlt|Hge].
    + apply nth_repeat_lt. exact Hlt.
    + apply nth_overflow. rewrite repeat_length. exact Hge.
Qed.

Lemma filter_alive_length0 (s : state) :
  incl (st_alive s) (st_threads s) ->
  Z.of_nat (length (filter (is_alive s) (st_threads s))) = 0%Z ->
  st_alive s = [].
Proof.
  intros Hincl Hlen.
  destruct (st_alive s) as [|t r] eqn:E; [reflexivity|exfalso].
  assert (Hin : In t (filter (is_alive s) (st_threads s))).
  { apply filter_In. split.
    - apply Hincl. left. reflexivity.
    - apply is_alive_In. rewrite E. left. reflexivity. }
  destruct (filter (is_alive s) (st_threads s)); [destruct Hin|].
  simpl in Hlen. lia.
Qed.

(** Each field of the invariant, after a step that leaves most of the
    state as it was: what is unchanged is closed at once. *)
Ltac inv_fields :=
  constructor; unfold LimitSetter.launched; simpl; auto;
  try (intros; discriminate).

Lemma invariant_main (s s' : state) :
  invariant s -> step_main mass_range n_threads s = Some s' -> invariant s'.
Proof.
  intros [Hlen Hl Hnd Hlt Htr Hcap Hdone Hpend Hjoin Hret] Hstep.
  unfold step_main in Hstep. unfold LimitSetter.launched in *.
  destruct (st_pc s) as [i|a|out] eqn:Hpc; [| |discriminate].
  - destruct (nth_error mass_range i) as [mw|] eqn:Hmw.
    + assert (Hi : (i < length mass_range)%nat)
        by (apply nth_error_Some; congruence).
      destruct (Z.of_nat (length (st_threads s)) >? n_threads)%Z eqn:Egt;
        injection Hstep as <-.
      * inv_fields.
        -- intros t Ht. apply filter_In. split; [apply Htr, Ht|].
           apply is_alive_In, Ht.
        -- pose proof (filter_length_le (is_alive s) (st_threads s)). lia.
      * inv_fields.
        -- constructor; [|exact Hnd]. intros Hin. apply Hlt in Hin. lia.
        -- intros t [<-|Ht]; [lia|]. apply Hlt in Ht. lia.
        -- intros t [<-|Ht]; apply in_or_app;
             [right; left; reflexivity|left; apply Htr, Ht].
        -- rewrite length_app. simpl. lia.
        -- intros j Hj Hn. apply Hdone; [|tauto].
           assert (j <> i) by (intros ->; apply Hn; left; reflexivity). lia.
        -- intros j [Hj|[<-|Hj]]; apply Hpend; auto; left; lia.
    + assert (Hi : (length mass_range <= i)%nat)
        by (apply nth_error_None; exact Hmw).
      injection Hstep as <-.
      inv_fields.
      * intros t Ht. apply Hlt in Ht. lia.
      * intros j Hj Hn. apply Hdone; [lia|exact Hn].
      * intros j [Hj|Hj]; apply Hpend; auto; left; lia.
      * intros a E Ha. injection E as <-. left. exact Ha.
  - destruct (a =? 0)%Z eqn:Ea; injection Hstep as <-.
    + apply Z.eqb_eq in Ea.
      inv_fields.
      intros out E. injection E as <-. split; [exact Hlen|].
      destruct (Hjoin a eq_refl Ea) as [H0|H0]; auto.
    + inv_fields.
      intros a' E Ha'. injection E as <-. right.
      apply filter_alive_length0; assumption.
Qed.

Lemma invariant_finish t (s s' : state) :
  invariant s ->
  step_finish rel integrate_rate mass_range log_sigma_range n_sigma_bins
    t s = Some s' ->
  invariant s'.
Proof.
  intros [Hlen Hl Hnd Hlt Htr Hcap Hdone Hpend Hjoin Hret] Hstep.
  unfold step_finish in Hstep.
  destruct (is_alive s t) eqn:Hal; [|discriminate].
  apply is_alive_In in Hal.
  assert (Ht : (t < length mass_range)%nat) by (apply Hlt in Hal; lia).
  assert (Hne : st_alive s <> []) by (intros E; rewrite E in Hal; destruct Hal).
  destruct (nth_error mass_range t) as [mw|] eqn:Hmw;
    [|apply nth_error_None in Hmw; lia].
  (* what the worker leaves in the shared list *)
  assert (Hres : exists r,
    match _get_limit rel integrate_rate (st_results s) sigmas t mw with
    | Ok r => r
    | Raise _ => st_results s
    end = r /\
    length r = length mass_range /\
    nth t r (Num 0) = slot t /\
    forall j, j <> t -> nth j r (Num 0) = nth j (st_results s) (Num 0)).
  { unfold _get_limit, LimitSetter.slot. rewrite Hmw.
    destruct (LimitSetter.limit_for rel integrate_rate sigmas mw)
      as [v|e]; simpl.
    - destruct (setitem_spec (st_results s) t v) as (r & Hr & H1 & H2 & H3);
        [lia|].
      exists r. rewrite Hr. repeat split; auto. lia.
    - exists (st_results s). repeat split; auto. }
  destruct Hres as (r & Er & Hrlen & Hrt & Hro).
  rewrite Er in Hstep. injection Hstep as <-.
  constructor; unfold LimitSetter.launched in *; simpl; auto.
  - apply NoDup_filter, Hnd.
  - intros u Hu. apply filter_In in Hu. apply Hlt, Hu.
  - intros u Hu. apply filter_In in Hu. apply Htr, Hu.
  - intros j Hj Hn. destruct (Nat.eq_dec j t) as [->|Hjt]; [exact Hrt|].
    rewrite Hro by exact Hjt. apply Hdone; [exact Hj|].
    intros Hin. apply Hn. apply filter_In. split; [exact Hin|].
    apply negb_true_iff, Nat.eqb_neq. congruence.
  - intros j Hj.
    assert (Hjt : j <> t).
    { destruct Hj as [Hj|Hj].
      - apply Hlt in Hal. lia.
      - apply filter_In in Hj. destruct Hj as [_ Hj].
        apply negb_true_iff, Nat.eqb_neq in Hj. congruence. }
    rewrite Hro by exact Hjt. apply Hpend.
    destruct Hj as [Hj|Hj]; [left; exact Hj|].
    right. apply filter_In in Hj. apply Hj.
  - intros a E Ha. destruct (Hjoin a E Ha) as [H0|H0]; [left; exact H0|].
    contradiction.
  - intros out E. destruct (Hret out E) as [H1 [H0|[H0 _]]].
    + split; [exact H1|left; exact H0].
    + contradiction.
Qed.

Lemma invariant_run evs : forall s s',
  invariant s -> run evs s = Some s' -> invariant s'.
Proof.
  induction evs as [|ev evs IH]; intros s s' Hinv Hrun; simpl in Hrun.
  - injection Hrun as <-. exact Hinv.
  - destruct (step ev s) as [s1|] eqn:E; [|discriminate].
    apply (IH s1 s'); [|exact Hrun].
    destruct ev; simpl in E.
    + exact (invariant_main s s1 Hinv E).
    + exact (invariant_finish t s s1 Hinv E).
Qed.

(** The number of tasks alive at once never exceeds the limit plus one. *)
Lemma n_running_bound evs s :
  run evs init = Some s ->
  (Z.of_nat (n_running s) <= Z.max n_threads 0 + 1)%Z.
Proof.
  intros Hrun.
  destruct (invariant_run evs init s invariant_init Hrun)
    as [_ _ Hnd _ Htr Hcap _ _ _ _].
  pose proof (NoDup_incl_length Hnd Htr). unfold n_running. lia.
Qed.

(** With a limit other than 0, the vector returned holds, at every index,
    what the task of that index left there. *)
Lemma set_limits_result evs out :
  n_threads <> 0%Z ->
  set_limits evs out ->
  length out = length mass_range /\
  forall j, (j < length mass_range)%nat -> nth j out (Num 0) = slot j.
Proof.
  intros Hn (s & Hrun & Hpc).
  destruct (invariant_run evs init s invariant_init Hrun)
    as [_ _ _ _ _ _ Hdone _ _ Hret].
  destruct (Hret out Hpc) as [Hlen [H0|[Ha ->]]]; [contradiction|].
  split; [exact Hlen|]. intros j Hj. apply Hdone.
  - unfold LimitSetter.launched. rewrite Hpc. exact Hj.
  - rewrite Ha. intros [].
Qed.

End Scheduler.

(** ** Runs of the scheduler on given inputs *)

(** A scan of one mass under a limit of 1: the task is launched, ends, and
    the dispatching thread leaves both loops. *)
Lemma single_mass_run rel integrate_rate m range bins :
  LimitSetter.set_limits rel integrate_rate [m] range bins 1
    Scenario.single_schedule
    [LimitSetter.slot rel integrate_rate [m] range bins 0].
Proof.
  unfold LimitSetter.set_limits, LimitSetter.slot, Scenario.single_schedule.
  cbn -[LimitSetter.limit_for LimitSetter.sigmas].
  unfold LimitSetter._get_limit.
  destruct (LimitSetter.limit_for rel integrate_rate
              (LimitSetter.sigmas range bins) m) as [v|e];
    simpl; eexists; split; reflexivity.
Qed.

Lemma linspace_head lo hi bins :
  (1 <= bins)%nat -> exists rest, np.linspace lo hi bins = lo :: rest.
Proof.
  intros Hb. destruct bins as [|[|k]]; [lia| |].
  - exists []. reflexivity.
  - unfold np.linspace. simpl seq. simpl map. eexists.
    apply f_equal2; [|reflexivity]. simpl INR. ring.
Qed.

Lemma nth_error_of_nth (out : list value) i v :
  (i < length out)%nat -> nth i out (Num 0) = v -> nth_error out i = Some v.
Proof.
  intros Hi <-. apply nth_error_nth'. exact Hi.
Qed.

Lemma slot_of rel integrate_rate mass_range range bins i mw :
  nth_error mass_range i = Some mw ->
  LimitSetter.slot rel integrate_rate mass_range range bins i =
  match LimitSetter.limit_for rel integrate_rate
          (LimitSetter.sigmas range bins) mw with
  | Ok v => v
  | Raise _ => Num 0
  end.
Proof. intros E. unfold LimitSetter.slot. rewrite E. reflexivity. Qed.

Lemma returned_slot rel integrate_rate mass_range range bins n_threads
  evs out i mw :
  (1 <= n_threads)%Z ->
  LimitSetter.set_limits rel integrate_rate mass_range range bins n_threads
    evs out ->
  nth_error mass_range i = Some mw ->
  length out = length mass_range /\
  nth_error out i =
    Some match LimitSetter.limit_for rel integrate_rate
                 (LimitSetter.sigmas range bins) mw with
         | Ok v => v
         | Raise _ => Num 0
         end.
Proof.
  intros Hn Hret Hmw.
  assert (Hi : (i < length mass_range)%nat)
    by (apply nth_error_Some; congruence).
  destruct (set_limits_result rel integrate_rate mass_range range bins
              n_threads evs out) as [Hlen Hnth]; [lia|exact Hret|].
  split; [exact Hlen|].
  apply nth_error_of_nth; [lia|].
  rewrite Hnth by exact Hi. apply slot_of. exact Hmw.
Qed.

Lemma extends_to_return rel integrate_rate mass_range range bins n_threads
  evs s :
  (0 <= n_threads)%Z ->
  LimitSetter.run rel integrate_rate mass_range range bins n_threads
    evs (LimitSetter.init mass_range) = Some s ->
  exists evs' out,
    LimitSetter.set_limits rel integrate_rate mass_range range bins
      n_threads (evs ++ evs') out.
Proof.
  intros Hn Hrun.
  destruct (can_return rel integrate_rate mass_range range bins n_threads
              s Hn) as (evs' & out & s' & Hrun' & Hpc).
  exists evs', out, s'. rewrite run_app, Hrun. auto.
Qed.

(** *** The concurrency cap *)

(** C1.  With [n_threads = 1] and two masses, the dispatching thread
    launches the second task while the first is still alive: after its
    first two steps two solve tasks are alive at once, one more than the
    limit. *)
Theorem limit_one_runs_two_tasks rel integrate_rate m0 m1 range bins :
  exists s,
    LimitSetter.run rel integrate_rate [m0; m1] range bins 1
      [LimitSetter.Main; LimitSetter.Main] (LimitSetter.init [m0; m1])
      = Some s /\
    LimitSetter.st_alive s = [1%nat; 0%nat] /\
    LimitSetter.n_running s = 2%nat.
Proof.
  eexists. split; [reflexivity|]. split; reflexivity.
Qed.

(** With a limit of [k] and more than [k] masses, the first [k + 1] steps
    of the dispatching thread launch [k + 1] tasks. *)
Lemma launch_burst rel integrate_rate mass_range range bins (k : nat) :
  forall j, (j <= S k)%nat -> (j <= length mass_range)%nat ->
  LimitSetter.run rel integrate_rate mass_range range bins (Z.of_nat k)
    (repeat LimitSetter.Main j) (LimitSetter.init mass_range)
  = Some (LimitSetter.mk_state (LimitSetter.Launching j) (seq 0 j)
            (rev (seq 0 j)) (repeat (Num 0) (length mass_range))).
Proof.
  induction j as [|j IH]; intros Hk Hlen; [reflexivity|].
  replace (repeat LimitSetter.Main (S j))
    with (repeat LimitSetter.Main j ++ [LimitSetter.Main])
    by (symmetry; apply repeat_cons).
  rewrite run_app, IH by lia.
  destruct (nth_error mass_range j) as [mw|] eqn:Hmw;
    [|apply nth_error_None in Hmw; lia].
  cbn [LimitSetter.run LimitSetter.step]. unfold LimitSetter.step_main.
  cbn [LimitSetter.st_pc LimitSetter.st_threads LimitSetter.st_alive
       LimitSetter.st_results].
  rewrite Hmw, length_seq.
  destruct (Z.of_nat j >? Z.of_nat k)%Z eqn:E; [lia|].
  rewrite seq_S, rev_app_distr. reflexivity.
Qed.

Lemma limit_exceeded_by_one rel integrate_rate mass_range range bins
  (k : nat) :
  (S k <= length mass_range)%nat ->
  exists s,
    LimitSetter.run rel integrate_rate mass_range range bins (Z.of_nat k)
      (repeat LimitSetter.Main (S k)) (LimitSetter.init mass_range)
      = Some s /\
    LimitSetter.n_running s = S k.
Proof.
  intros Hlen. eexists. split.
  - apply launch_burst; [lia|exact Hlen].
  - unfold LimitSetter.n_running. cbn [LimitSetter.st_alive].
    rewrite length_rev, length_seq. reflexivity.
Qed.

(** With a limit of 0 the final loop is not entered: the call can return
    while the last task is alive, its slot still at 0. *)
Lemma zero_limit_returns_early rel integrate_rate m range bins :
  exists s,
    LimitSetter.run rel integrate_rate [m] range bins 0
      [LimitSetter.Main; LimitSetter.Main; LimitSetter.Main]
      (LimitSetter.init [m]) = Some s /\
    LimitSetter.st_pc s = LimitSetter.Returned [Num 0] /\
    LimitSetter.st_alive s = [0%nat].
Proof.
  eexists. split; [reflexivity|]. split; reflexivity.
Qed.

(** *** Failing tasks *)

Lemma failing_limit rel :
  LimitSetter.limit_for rel Scenario.failing_integrate_rate
    (LimitSetter.sigmas Scenario.log_sigma_range Scenario.n_sigma_bins) 50
    = Raise OtherError.
Proof. reflexivity. Qed.

Lemma failing_run rel :
  LimitSetter.set_limits rel Scenario.failing_integrate_rate
    Scenario.mass_range Scenario.log_sigma_range Scenario.n_sigma_bins 1
    Scenario.single_schedule [Num 0].
Proof.
  pose proof (single_mass_run rel Scenario.failing_integrate_rate 50
                Scenario.log_sigma_range Scenario.n_sigma_bins) as H.
  rewrite (slot_of _ _ [50] _ _ 0%nat 50 eq_refl), failing_limit in H.
  exact H.
Qed.




(** *** The scenario, scheduled *)

Lemma scenario_sigmas :
  LimitSetter.sigmas Scenario.log_sigma_range Scenario.n_sigma_bins
  = np.linspace (-46) (-44) 5.
Proof. reflexivity. Qed.

Lemma scenario_run rel :
  LimitSetter.set_limits rel Scenario.mock_integrate_rate
    Scenario.mass_range Scenario.log_sigma_range Scenario.n_sigma_bins 1
    Scenario.single_schedule [Num (23 / 10 * Rpower 10 (-46))].
Proof.
  pose proof (single_mass_run rel Scenario.mock_integrate_rate 50
                Scenario.log_sigma_range Scenario.n_sigma_bins) as H.
  rewrite (slot_of _ _ [50] _ _ 0%nat 50 eq_refl) in H.
  rewrite scenario_sigmas, scenario_limit in H. exact H.
Qed.

Lemma saturated_limit rel :
  LimitSetter.limit_for rel Scenario.saturated_integrate_rate
    (LimitSetter.sigmas Scenario.log_sigma_range Scenario.n_sigma_bins) 50
  = match rel with
    | scipy.MinTwoEntries => Raise ValueError
    | scipy.MinOneEntry => Ok NaN
    end.
Proof.
  rewrite scenario_sigmas, scenario_grid.
  apply (limit_first_point_exceeds rel Scenario.saturated_integrate_rate
           50 (-46) 3); [reflexivity|].
  unfold LimitSetter.no_background_possion. lra.
Qed.

(** Under a release that asks for two entries the slot keeps its 0. *)
Lemma saturated_run :
  LimitSetter.set_limits scipy.MinTwoEntries
    Scenario.saturated_integrate_rate
    Scenario.mass_range Scenario.log_sigma_range Scenario.n_sigma_bins 1
    Scenario.single_schedule [Num 0].
Proof.
  pose proof (single_mass_run scipy.MinTwoEntries
                Scenario.saturated_integrate_rate 50
                Scenario.log_sigma_range Scenario.n_sigma_bins) as H.
  rewrite (slot_of _ _ [50] _ _ 0%nat 50 eq_refl), saturated_limit in H.
  exact H.
Qed.

Lemma saturated_run_nan :
  LimitSetter.set_limits scipy.MinOneEntry
    Scenario.saturated_integrate_rate
    Scenario.mass_range Scenario.log_sigma_range Scenario.n_sigma_bins 1
    Scenario.single_schedule [NaN].
Proof.
  pose proof (single_mass_run scipy.MinOneEntry
                Scenario.saturated_integrate_rate 50
                Scenario.log_sigma_range Scenario.n_sigma_bins) as H.
  rewrite (slot_of _ _ [50] _ _ 0%nat 50 eq_refl), saturated_limit in H.
  exact H.
Qed.

(** *** Alignment of the result vector *)

(** A scan of two masses under a limit of 1 in which the second task ends
    before the first: each slot holds what its own task leaves. *)
Lemma crossed_run rel integrate_rate m0 m1 range bins :
  LimitSetter.set_limits rel integrate_rate [m0; m1] range bins 1
    Samples.crossed_schedule
    [LimitSetter.slot rel integrate_rate [m0; m1] range bins 0;
     LimitSetter.slot rel integrate_rate [m0; m1] range bins 1].
Proof.
  unfold LimitSetter.set_limits, LimitSetter.slot, Samples.crossed_schedule.
  cbn -[LimitSetter.limit_for LimitSetter.sigmas].
  unfold LimitSetter._get_limit.
  destruct (LimitSetter.limit_for rel integrate_rate
              (LimitSetter.sigmas range bins) m1) as [v1|e1];
    destruct (LimitSetter.limit_for rel integrate_rate
                (LimitSetter.sigmas range bins) m0) as [v0|e0];
    simpl; eexists; split; reflexivity.
Qed.

(** The solver looks at the integrator at its own mass only. *)
Lemma observe_ext (f g : R -> R -> py_result R) mw :
  (forall s, f mw s = g mw s) ->
  forall sigmas, LimitSetter.observe f mw sigmas
                 = LimitSetter.observe g mw sigmas.
Proof.
  intros Hfg. induction sigmas as [|s rest IH]; [reflexivity|].
  simpl. rewrite Hfg, IH. reflexivity.
Qed.

Lemma limit_for_ext rel (f g : R -> R -> py_result R) mw sigmas :
  (forall s, f mw s = g mw s) ->
  LimitSetter.limit_for rel f sigmas mw = LimitSetter.limit_for rel g sigmas mw.
Proof.
  intros Hfg. unfold LimitSetter.limit_for.
  rewrite (observe_ext f g mw Hfg). reflexivity.
Qed.

Lemma split_limit_light rel :
  LimitSetter.limit_for rel Samples.split_integrate_rate
    (LimitSetter.sigmas Scenario.log_sigma_range Scenario.n_sigma_bins) 50
  = Ok (Num (23 / 10 * Rpower 10 (-46))).
Proof.
  rewrite (limit_for_ext rel Samples.split_integrate_rate
             Scenario.mock_integrate_rate).
  - rewrite scenario_sigmas. apply scenario_limit.
  - intros s. unfold Samples.split_integrate_rate.
    destruct (Rle_dec 50 50); [reflexivity|lra].
Qed.

Lemma split_limit_heavy :
  LimitSetter.limit_for scipy.MinOneEntry Samples.split_integrate_rate
    (LimitSetter.sigmas Scenario.log_sigma_range Scenario.n_sigma_bins) 60
  = Ok NaN.
Proof.
  rewrite (limit_for_ext scipy.MinOneEntry Samples.split_integrate_rate
             Scenario.saturated_integrate_rate).
  - rewrite scenario_sigmas, scenario_grid.
    apply (limit_first_point_exceeds scipy.MinOneEntry
             Scenario.saturated_integrate_rate 60 (-46) 3); [reflexivity|].
    unfold LimitSetter.no_background_possion. lra.
  - intros s. unfold Samples.split_integrate_rate.
    destruct (Rle_dec 60 50); [lra|reflexivity].
Qed.

Lemma split_crossed_run :
  LimitSetter.set_limits scipy.MinOneEntry Samples.split_integrate_rate
    Samples.two_masses Scenario.log_sigma_range Scenario.n_sigma_bins 1
    Samples.crossed_schedule [Num (23 / 10 * Rpower 10 (-46)); NaN].
Proof.
  pose proof (crossed_run scipy.MinOneEntry Samples.split_integrate_rate
                50 60 Scenario.log_sigma_range Scenario.n_sigma_bins) as H.
  rewrite (slot_of _ _ [50; 60] _ _ 0%nat 50 eq_refl) in H.
  rewrite (slot_of _ _ [50; 60] _ _ 1%nat 60 eq_refl) in H.
  rewrite split_limit_light, split_limit_heavy in H. exact H.
Qed.




(** *** A count that exceeds the threshold at the first grid point *)

(** C10, refuted.  With the saturated mock and a release of scipy that
    builds one-point interpolators, the construction does not raise: the
    interpolator returns [nan] at 2.3, and [set_limits] returns with [nan],
    not 0, in the slot. *)
Lemma one_point_interpolator_yields_nan :
  LimitSetter.observe Scenario.saturated_integrate_rate 50
    (LimitSetter.sigmas Scenario.log_sigma_range Scenario.n_sigma_bins)
    = ([-46], Ok [3]) /\
  scipy.interp1d scipy.MinOneEntry [3] (np.pow10 [-46]) NaN
    = Ok (scipy.mk_interp1d [(3, Rpower 10 (-46))] NaN) /\
  LimitSetter.limit_for scipy.MinOneEntry Scenario.saturated_integrate_rate
    (LimitSetter.sigmas Scenario.log_sigma_range Scenario.n_sigma_bins) 50
    = Ok NaN /\
  LimitSetter.set_limits scipy.MinOneEntry
    Scenario.saturated_integrate_rate
    Scenario.mass_range Scenario.log_sigma_range Scenario.n_sigma_bins 1
    Scenario.single_schedule [NaN].
Proof.
  split; [|split; [reflexivity|split]].
  - rewrite scenario_sigmas, scenario_grid.
    apply (limit_first_point_exceeds scipy.MinOneEntry
             Scenario.saturated_integrate_rate 50 (-46) 3); [reflexivity|].
    unfold LimitSetter.no_background_possion. lra.
  - apply saturated_limit.
  - apply saturated_run_nan.
Qed.

(** C10, as the code has it.  When the count of a mass exceeds 2.3 already
    at the first grid point, the solve task collects that one count only
    and the slot of the mass receives no limiting cross-section: a release
    of scipy that builds one-point interpolators returns [nan] at 2.3,
    which is what the slot holds when [set_limits] returns; a release that
    asks for two entries raises, and the slot keeps its initial 0. *)
Theorem first_point_exceedance_leaves_no_limit rel integrate_rate mass_range
  range bins n_threads evs out i mw c0 :
  (1 <= n_threads)%Z ->
  (1 <= bins)%nat ->
  LimitSetter.set_limits rel integrate_rate mass_range range bins n_threads
    evs out ->
  nth_error mass_range i = Some mw ->
  integrate_rate mw (fst range) = Ok c0 ->
  c0 > LimitSetter.no_background_possion ->
  LimitSetter.observe integrate_rate mw (LimitSetter.sigmas range bins)
    = ([fst range], Ok [c0]) /\
  LimitSetter.limit_for rel integrate_rate (LimitSetter.sigmas range bins) mw
    = match rel with
      | scipy.MinTwoEntries => Raise ValueError
      | scipy.MinOneEntry => Ok NaN
      end /\
  nth_error out i
    = Some match rel with
           | scipy.MinTwoEntries => Num 0
           | scipy.MinOneEntry => NaN
           end.
Proof.
  intros Hn Hb Hret Hmw Hc0 Hgt.
  destruct (linspace_head (fst range) (snd range) bins Hb) as [rest Hgrid].
  destruct (limit_first_point_exceeds rel integrate_rate mw
              (fst range) c0 rest Hc0 Hgt) as [Hobs Hlim].
  unfold LimitSetter.sigmas. rewrite Hgrid.
  split; [exact Hobs|]. split; [exact Hlim|].
  destruct (returned_slot rel integrate_rate mass_range
              range bins n_threads evs out i mw Hn Hret Hmw) as [_ H].
  unfold LimitSetter.sigmas in H. rewrite Hgrid, Hlim in H.
  destruct rel; exact H.
Qed.

Lemma first_point_exceedance_leaves_no_limit_witness :
  LimitSetter.observe Scenario.saturated_integrate_rate 50
    (LimitSetter.sigmas Scenario.log_sigma_range Scenario.n_sigma_bins)
    = ([fst Scenario.log_sigma_range], Ok [3]) /\
  LimitSetter.limit_for scipy.MinOneEntry Scenario.saturated_integrate_rate
    (LimitSetter.sigmas Scenario.log_sigma_range Scenario.n_sigma_bins) 50
    = Ok NaN /\
  nth_error [NaN] 0 = Some NaN.
Proof.
  apply (first_point_exceedance_leaves_no_limit scipy.MinOneEntry
           Scenario.saturated_integrate_rate Scenario.mass_range
           Scenario.log_sigma_range Scenario.n_sigma_bins 1
           Scenario.single_schedule [NaN] 0 50 3).
  - lia.
  - unfold Scenario.n_sigma_bins. lia.
  - apply saturated_run_nan.
  - reflexivity.
  - reflexivity.
  - unfold LimitSetter.no_background_possion. lra.
Defined.

(** *** The end-to-end scenario, settled *)

Lemma log10_23_bounds : 36 / 100 < np.log10 (23 / 10) < 37 / 100.
Proof.
  unfold np.log10.
  assert (H10 : 0 < ln 10) by (rewrite <- ln_1; apply ln_increasing; lra).
  assert (Hlo : INR 36 * ln 10 < INR 100 * ln (23 / 10)).
  { rewrite <- !ln_pow by lra. apply ln_increasing; [apply pow_lt; lra|lra]. }
  assert (Hhi : INR 100 * ln (23 / 10) < INR 37 * ln 10).
  { rewrite <- !ln_pow by lra. apply ln_increasing; [apply pow_lt; lra|lra]. }
  rewrite !INR_IZR_INZ in Hlo, Hhi. simpl in Hlo, Hhi.
  split.
  - apply Rmult_lt_reg_r with (ln 10); [exact H10|].
    unfold Rdiv at 2. rewrite Rmult_assoc, Rinv_l by lra. lra.
  - apply Rmult_lt_reg_r with (ln 10); [exact H10|].
    unfold Rdiv at 1. rewrite Rmult_assoc, Rinv_l by lra. lra.
Qed.

Lemma scenario_observe :
  LimitSetter.observe Scenario.mock_integrate_rate 50
    (np.linspace (-46) (-44) 5)
  = ([-46; -91 / 2], Ok [1; Rpower 10 (1 / 2)]).
Proof.
  rewrite scenario_grid.
  apply (observe_prefix Scenario.mock_integrate_rate 50 [-46] [1]
           (-91 / 2) (Rpower 10 (1 / 2)) [-45; -89 / 2; -44]).
  - constructor; [|constructor]. unfold Scenario.mock_integrate_rate.
    replace (-46 + 46) with 0 by lra. rewrite Rpower_O by lra.
    split; [reflexivity|]. unfold LimitSetter.no_background_possion. lra.
  - unfold Scenario.mock_integrate_rate. do 2 f_equal. lra.
  - apply Rpower10_half_gt.
Qed.

Lemma singleton_of_nth_error {A : Type} (l : list A) (a : A) :
  length l = 1%nat -> nth_error l 0 = Some a -> l = [a].
Proof.
  destruct l as [|b [|c l]]; simpl; intros Hlen Hnth; try discriminate.
  injection Hnth as ->. reflexivity.
Qed.

(** C3.  In the scenario (one mass of 50 GeV, the grid of 5 points from
    -46 to -44, the mock count [10 ** (log_sigma + 46)]) the solver stops
    at the second grid point and solves for 2.3e-46; this is what
    [set_limits] returns for the mass, on the schedule of a single task
    and on every other schedule that returns; its [log10] is
    [log10(2.3) - 46], which lies between -45.64 and -45.63. *)
Theorem scenario_limit_is_2_3e_46 rel :
  LimitSetter.sigmas Scenario.log_sigma_range Scenario.n_sigma_bins
    = [-46; -91 / 2; -45; -89 / 2; -44] /\
  LimitSetter.observe Scenario.mock_integrate_rate 50
    (LimitSetter.sigmas Scenario.log_sigma_range Scenario.n_sigma_bins)
    = ([-46; -91 / 2], Ok [1; Rpower 10 (1 / 2)]) /\
  LimitSetter.limit_for rel Scenario.mock_integrate_rate
    (LimitSetter.sigmas Scenario.log_sigma_range Scenario.n_sigma_bins) 50
    = Ok (Num (23 / 10 * Rpower 10 (-46))) /\
  LimitSetter.set_limits rel Scenario.mock_integrate_rate
    Scenario.mass_range Scenario.log_sigma_range Scenario.n_sigma_bins 1
    Scenario.single_schedule [Num (23 / 10 * Rpower 10 (-46))] /\
  (forall evs out,
     LimitSetter.set_limits rel Scenario.mock_integrate_rate
       Scenario.mass_range Scenario.log_sigma_range Scenario.n_sigma_bins 1
       evs out ->
     out = [Num (23 / 10 * Rpower 10 (-46))]) /\
  np.log10 (23 / 10 * Rpower 10 (-46)) = np.log10 (23 / 10) - 46 /\
  -4564 / 100 < np.log10 (23 / 10 * Rpower 10 (-46)) < -4563 / 100.
Proof.
  rewrite scenario_sigmas.
  split; [apply scenario_grid|].
  split; [apply scenario_observe|].
  split; [apply scenario_limit|].
  split; [apply scenario_run|].
  split.
  - intros evs out Hret.
    destruct (returned_slot rel Scenario.mock_integrate_rate
                Scenario.mass_range Scenario.log_sigma_range
                Scenario.n_sigma_bins 1 evs out 0 50) as [Hlen H];
      [lia|exact Hret|reflexivity|].
    rewrite scenario_sigmas, scenario_limit in H.
    apply singleton_of_nth_error; assumption.
  - split; [apply log10_scenario|].
    rewrite log10_scenario. pose proof log10_23_bounds. lra.
Qed.

(** *** Witnesses and counterexamples of the limit solver *)

Lemma get_limit_stops_at_first_exceedance_witness :
  LimitSetter.observe Scenario.mock_integrate_rate 50
    ([-46] ++ -91 / 2 :: [-45; -89 / 2; -44])
    = ([-46] ++ [-91 / 2], Ok ([1] ++ [Rpower 10 (1 / 2)])) /\
  LimitSetter.limit_for scipy.MinOneEntry Scenario.mock_integrate_rate
    ([-46] ++ -91 / 2 :: [-45; -89 / 2; -44]) 50 =
    (itp <- scipy.interp1d scipy.MinOneEntry ([1] ++ [Rpower 10 (1 / 2)])
              (np.pow10 ([-46] ++ [-91 / 2])) NaN ;;
     Ok (scipy.call itp LimitSetter.no_background_possion)) /\
  LimitSetter._get_limit scipy.MinOneEntry Scenario.mock_integrate_rate
    [Num 0] ([-46] ++ -91 / 2 :: [-45; -89 / 2; -44]) 0 50 =
    (itp <- scipy.interp1d scipy.MinOneEntry ([1] ++ [Rpower 10 (1 / 2)])
              (np.pow10 ([-46] ++ [-91 / 2])) NaN ;;
     LimitSetter.setitem [Num 0] 0
       (scipy.call itp LimitSetter.no_background_possion)).
Proof.
  apply (get_limit_stops_at_first_exceedance scipy.MinOneEntry
           Scenario.mock_integrate_rate 50 [-46] [1] (-91 / 2)
           (Rpower 10 (1 / 2)) [-45; -89 / 2; -44] [Num 0] 0).
  - constructor; [|constructor]. unfold Scenario.mock_integrate_rate.
    replace (-46 + 46) with 0 by lra. rewrite Rpower_O by lra.
    split; [reflexivity|]. unfold LimitSetter.no_background_possion. lra.
  - unfold Scenario.mock_integrate_rate. do 2 f_equal. lra.
  - apply Rpower10_half_gt.
Defined.


(** ** The detector model *)

Lemma interp_at_last pts : forall p v,
  (forall q, In q (p :: pts) -> fst q <= v) ->
  np.interp (p :: pts) v = snd (last pts p).
Proof.
  induction pts as [|q pts IH]; intros [x0 y0] v Hle; [reflexivity|].
  destruct q as [x1 y1].
  change (np.interp ((x0, y0) :: (x1, y1) :: pts) v) with
    (if Rlt_dec v x1 then
       if Req_dec_T x0 v then y0
       else (y1 - y0) / (x1 - x0) * (v - x0) + y0
     else np.interp ((x1, y1) :: pts) v).
  assert (H1 : x1 <= v) by (apply (Hle (x1, y1)); right; left; reflexivity).
  destruct (Rlt_dec v x1); [lra|].
  rewrite last_cons. apply IH.
  intros q' Hq'. apply Hle. right. exact Hq'.
Qed.

Lemma in_combine_of_l (x y : list R) :
  length x = length y ->
  forall r, In r x -> exists s, In (r, s) (combine x y).
Proof.
  revert y. induction x as [|x0 x IH]; intros y Hlen r Hr; [destruct Hr|].
  destruct y as [|y0 y]; [discriminate|].
  destruct Hr as [->|Hr].
  - exists y0. left. reflexivity.
  - destruct (IH y (eq_add_S _ _ Hlen) r Hr) as [s Hs].
    exists s. right. exact Hs.
Qed.

(** At the largest abscissa an interpolator returns an ordinate tabulated
    for it. *)
Lemma call_at_max x y fill v :
  length x = length y ->
  In v x -> (forall a, In a x -> a <= v) ->
  exists r, In (v, r) (combine x y) /\
    scipy.call (scipy.mk_interp1d (np.sort_pts (combine x y)) fill) v
      = Num r.
Proof.
  intros Hlen Hv Hmax. unfold scipy.call. simpl.
  assert (Hs := sort_pts_sorted (combine x y)).
  assert (Hx : forall q, In q (np.sort_pts (combine x y)) ->
                         In q (combine x y) /\ fst q <= v).
  { intros [qx qy] Hq. apply (proj1 (sort_pts_In _ _)) in Hq.
    split; [exact Hq|]. apply Hmax. apply in_combine_l in Hq. exact Hq. }
  destruct (in_combine_of_l x y Hlen v Hv) as [sv Hsv].
  apply (proj2 (sort_pts_In _ _)) in Hsv.
  destruct (np.sort_pts (combine x y)) as [|p rest] eqn:E; [destruct Hsv|].
  assert (Hlast : In (last rest p) (p :: rest)) by apply last_in.
  assert (Hge : v <= fst (last rest p)).
  { rewrite <- (last_cons rest p p).
    exact (sorted_last_max _ Hs p (v, sv) Hsv). }
  destruct (Hx p (or_introl eq_refl)) as [_ Hp].
  destruct (Hx _ Hlast) as [Hin Hle].
  destruct (Rlt_dec v (fst p)); [lra|].
  destruct (Rlt_dec (fst (last rest p)) v); [lra|].
  exists (snd (last rest p)). split.
  - replace v with (fst (last rest p)) by lra.
    rewrite <- surjective_pairing. exact Hin.
  - f_equal. apply interp_at_last. intros q Hq. apply (Hx q Hq).
Qed.

(** The first query on a fresh instance builds the interpolator and keeps
    it. *)
Lemma first_query rel w xs ys more e :
  fst (LZ.get_eff w) = Ok (xs :: ys :: more) ->
  length xs = length ys ->
  (2 <= length xs)%nat ->
  LZ.combined_efficiency rel (LZ.mk None) e w =
    (Ok (scipy.call
           (scipy.mk_interp1d (np.sort_pts (combine xs ys)) (Num 0)) e),
     LZ.mk (Some (scipy.mk_interp1d (np.sort_pts (combine xs ys)) (Num 0))),
     snd (LZ.get_eff w)).
Proof.
  intros Htbl Hlen H2.
  unfold LZ.combined_efficiency, LZ._itp_eff. simpl LZ._itp.
  destruct (LZ.get_eff w) as [r w1]. simpl in Htbl. subst r.
  cbn [firstn]. rewrite interp1d_two_or_more by assumption.
  reflexivity.
Qed.

(** A query on an instance that holds an interpolator uses it, and changes
    neither the instance nor the world. *)
Lemma later_query rel itp e w :
  LZ.combined_efficiency rel (LZ.mk (Some itp)) e w =
    (Ok (scipy.call itp e), LZ.mk (Some itp), w).
Proof. reflexivity. Qed.

Lemma later_queries rel itp es : forall w,
  LZ.queries rel (LZ.mk (Some itp)) es w =
    (map (fun e => Ok (scipy.call itp e)) es, LZ.mk (Some itp), w).
Proof.
  induction es as [|e es IH]; intros w; [reflexivity|].
  cbn [LZ.queries]. rewrite later_query, IH. reflexivity.
Qed.

Lemma queries_fresh rel w xs ys more e es :
  fst (LZ.get_eff w) = Ok (xs :: ys :: more) ->
  length xs = length ys ->
  (2 <= length xs)%nat ->
  LZ.queries rel (LZ.mk None) (e :: es) w =
    (map (fun e' =>
            Ok (scipy.call
                  (scipy.mk_interp1d (np.sort_pts (combine xs ys)) (Num 0))
                  e')) (e :: es),
     LZ.mk (Some (scipy.mk_interp1d (np.sort_pts (combine xs ys)) (Num 0))),
     snd (LZ.get_eff w)).
Proof.
  intros Htbl Hlen H2. cbn [LZ.queries].
  rewrite (first_query rel w xs ys more e Htbl Hlen H2).
  rewrite later_queries. reflexivity.
Qed.

Lemma get_eff_reads w :
  (LZ.n_reads (snd (LZ.get_eff w)) <= S (LZ.n_reads w))%nat.
Proof.
  unfold LZ.get_eff.
  destruct (LZ.get_eff_cache w); [simpl; lia|].
  destruct (LZ.dataset w); simpl; lia.
Qed.



(** On the dataset of two rows the efficiency at 2 keV is 1/2, and it is
    0 at 0 keV and at 5 keV. *)
Lemma efficiency_world_values :
  fst (fst (LZ.queries scipy.MinOneEntry (LZ.mk None) [2; 0; 5]
              Scenario.efficiency_world))
  = [Ok (Num (1 / 2)); Ok (Num 0); Ok (Num 0)].
Proof.
  rewrite (queries_fresh scipy.MinOneEntry Scenario.efficiency_world
             [1; 3] [0; 1] [] 2 [0; 5] eq_refl eq_refl) by (simpl; lia).
  simpl fst. unfold scipy.call. simpl.
  destruct (Rle_dec 1 3) as [_|Hn]; [|lra]. simpl.
  repeat match goal with
         | |- context [Rlt_dec ?a ?b] =>
             destruct (Rlt_dec a b); try lra
         | |- context [Req_dec_T ?a ?b] =>
             destruct (Req_dec_T a b); try lra
         end.
  apply f_equal2; [|reflexivity]. do 2 apply f_equal. lra.
Qed.

(** C8, refuted.  With the dataset file missing, constructing the detector
    succeeds and leaves the world untouched; the failure is raised by the
    first efficiency query. *)
Lemma dataset_failure_is_deferred :
  LZ.new Scenario.missing_world = (LZ.mk None, Scenario.missing_world) /\
  LZ.combined_efficiency scipy.MinOneEntry
    (fst (LZ.new Scenario.missing_world)) 1
    (snd (LZ.new Scenario.missing_world))
  = (Raise FileNotFoundError, LZ.mk None,
     LZ.mk_world (Raise FileNotFoundError) None 1).
Proof. split; reflexivity. Qed.

(** C8, as the code has it.  Constructing the detector never reads the
    dataset and always succeeds.  When the file cannot be read, or the
    table has fewer than two columns, the failure is raised by the first
    efficiency query (the exception of the read, or a [TypeError]), which
    leaves the instance without an interpolator. *)
Theorem dataset_failure_raised_by_first_query rel w e :
  LZ.get_eff_cache w = None ->
  (exists err, LZ.dataset w = Raise err) \/
  (exists tbl, LZ.dataset w = Ok tbl /\ (length tbl < 2)%nat) ->
  LZ.new w = (LZ.mk None, w) /\
  exists w',
    LZ.combined_efficiency rel (fst (LZ.new w)) e (snd (LZ.new w)) =
      (Raise match LZ.dataset w with
             | Raise err => err
             | Ok _ => TypeError
             end,
       LZ.mk None, w') /\
    LZ.n_reads w' = S (LZ.n_reads w).
Proof.
  intros Hcache Hbad. split; [reflexivity|].
  unfold LZ.new, LZ.combined_efficiency, LZ._itp_eff, LZ.get_eff.
  cbn [fst snd LZ._itp]. rewrite Hcache.
  destruct Hbad as [[err Herr]|(tbl & Htbl & Hlen)].
  - rewrite Herr. eexists. split; reflexivity.
  - rewrite Htbl. destruct tbl as [|x [|y tbl]]; simpl in Hlen; try lia.
    + eexists. split; reflexivity.
    + eexists. split; reflexivity.
Qed.

Lemma dataset_failure_raised_by_first_query_witness :
  LZ.new Scenario.missing_world = (LZ.mk None, Scenario.missing_world) /\
  exists w',
    LZ.combined_efficiency scipy.MinOneEntry
      (fst (LZ.new Scenario.missing_world)) 1
      (snd (LZ.new Scenario.missing_world)) =
      (Raise match LZ.dataset Scenario.missing_world with
             | Raise err => err
             | Ok _ => TypeError
             end,
       LZ.mk None, w') /\
    LZ.n_reads w' = S (LZ.n_reads Scenario.missing_world).
Proof.
  apply (dataset_failure_raised_by_first_query scipy.MinOneEntry
           Scenario.missing_world 1).
  - reflexivity.
  - left. exists FileNotFoundError. reflexivity.
Defined.

(** ** Where the solved limit lies, with rounded interpolation *)

Section Bounds.

Variable rnd : R -> R.
Hypothesis rnd_ok : np.rounding rnd.

(** Towards a higher ordinate the rounded chord does not fall below the
    ordinate it starts from. *)
Lemma chord_fl_lower x0 y0 x1 y1 v :
  x0 <= v < x1 -> y0 <= y1 -> rnd y0 = y0 ->
  y0 <= rnd (rnd (rnd (rnd (y1 - y0) / rnd (x1 - x0)) * rnd (v - x0)) + y0).
Proof.
  destruct rnd_ok as [Hmono H0]. intros Hv Hy Hy0.
  assert (Hpos : forall a, 0 <= a -> 0 <= rnd a).
  { intros a Ha. rewrite <- H0. apply Hmono. exact Ha. }
  assert (Hd : 0 <= rnd (y1 - y0)) by (apply Hpos; lra).
  assert (Ha : 0 <= rnd (x1 - x0)) by (apply Hpos; lra).
  assert (Hb : 0 <= rnd (v - x0)) by (apply Hpos; lra).
  assert (Hi : 0 <= / rnd (x1 - x0)).
  { destruct (Req_dec_T (rnd (x1 - x0)) 0) as [E|E].
    - rewrite E, Rinv_0. lra.
    - apply Rlt_le, Rinv_0_lt_compat. lra. }
  assert (Hq : 0 <= rnd (rnd (y1 - y0) / rnd (x1 - x0))).
  { apply Hpos. unfold Rdiv. apply Rmult_le_pos; assumption. }
  assert (Hp : 0 <= rnd (rnd (rnd (y1 - y0) / rnd (x1 - x0)) * rnd (v - x0))).
  { apply Hpos. apply Rmult_le_pos; assumption. }
  rewrite <- Hy0 at 1. apply Hmono. lra.
Qed.

(** On points whose ordinates are floats of at least [m], and do not
    decrease from a point at or below [v] to a point above [v], the rounded
    interpolant at [v] is at least [m]. *)
Lemma interp_fl_lower m v : forall pts,
  (forall p rest, pts = p :: rest -> fst p <= v) ->
  (forall p, In p pts -> m <= snd p /\ rnd (snd p) = snd p) ->
  (forall p q, In p pts -> In q pts -> fst p <= v < fst q ->
     snd p <= snd q) ->
  pts <> [] ->
  m <= np.interp_fl rnd pts v.
Proof.
  induction pts as [|[x0 y0] rest IH]; intros Hhd Hall Hup Hne;
    [contradiction|].
  assert (H0 : x0 <= v) by exact (Hhd (x0, y0) rest eq_refl).
  assert (Hy0 : m <= y0 /\ rnd y0 = y0)
    by exact (Hall (x0, y0) (or_introl eq_refl)).
  destruct rest as [|[x1 y1] rest']; [simpl; tauto|].
  cbn [np.interp_fl].
  destruct (Rlt_dec v x1) as [Hlt|Hge].
  - destruct (Req_dec_T x0 v) as [_|Hneq]; [tauto|].
    apply Rle_trans with y0; [tauto|].
    apply chord_fl_lower; [lra| |tauto].
    apply (Hup (x0, y0) (x1, y1)); simpl; [auto|auto|lra].
  - apply IH.
    + intros p r E. injection E as <- _. simpl. lra.
    + intros p Hp. apply Hall. right. exact Hp.
    + intros p q Hp Hq. apply Hup; right; assumption.
    + discriminate.
Qed.

(** The same for an interpolator called at [v], when it returns a
    number. *)
Lemma call_fl_lower m x y v r :
  Forall (fun b => m <= b /\ rnd b = b) y ->
  (forall p q, In p (combine x y) -> In q (combine x y) ->
     fst p <= v < fst q -> snd p <= snd q) ->
  scipy.call_fl rnd (scipy.mk_interp1d (np.sort_pts (combine x y)) NaN) v
    = Num r ->
  m <= r.
Proof.
  intros Hy Hup Hcall. unfold scipy.call_fl in Hcall.
  cbn [scipy.itp_pts scipy.itp_fill] in Hcall.
  destruct (np.sort_pts (combine x y)) as [|p rest] eqn:E; [discriminate|].
  destruct (Rlt_dec v (fst p)) as [|Hp]; [discriminate|].
  destruct (Rlt_dec (fst (last rest p)) v); [discriminate|].
  assert (Hr : r = np.interp_fl rnd (p :: rest) v) by congruence.
  rewrite Hr. clear Hr Hcall.
  assert (Hin : forall q, In q (p :: rest) -> In q (combine x y)).
  { intros q Hq. rewrite <- E in Hq. apply (proj1 (sort_pts_In _ _)) in Hq.
    exact Hq. }
  apply interp_fl_lower.
  - intros p' rest' Ep. injection Ep as <- _. lra.
  - intros [qx qy] Hq. apply Hin, in_combine_r in Hq.
    rewrite Forall_forall in Hy. exact (Hy qy Hq).
  - intros q1 q2 H1 H2. apply Hup; apply Hin; assumption.
  - discriminate.
Qed.

(** An interpolator called between two of its abscissae returns a
    number. *)
Lemma call_fl_defined x y fill v a b :
  length x = length y -> In a x -> In b x -> a <= v <= b ->
  exists r,
    scipy.call_fl rnd (scipy.mk_interp1d (np.sort_pts (combine x y)) fill) v
      = Num r.
Proof.
  intros Hlen Ha Hb Hv.
  destruct (in_combine_of_l x y Hlen a Ha) as [sa Hsa].
  destruct (in_combine_of_l x y Hlen b Hb) as [sb Hsb].
  apply (proj2 (sort_pts_In _ _)) in Hsa.
  apply (proj2 (sort_pts_In _ _)) in Hsb.
  assert (Hs := sort_pts_sorted (combine x y)).
  unfold scipy.call_fl. cbn [scipy.itp_pts scipy.itp_fill].
  destruct (np.sort_pts (combine x y)) as [|p rest] eqn:E; [destruct Hsa|].
  assert (Hmin : fst p <= a)
    by exact (sorted_head_min p rest Hs (a, sa) Hsa).
  assert (Hmax : b <= fst (last rest p)).
  { rewrite <- (last_cons rest p p).
    exact (sorted_last_max _ Hs p (b, sb) Hsb). }
  destruct (Rlt_dec v (fst p)); [lra|].
  destruct (Rlt_dec (fst (last rest p)) v); [lra|].
  eexists. reflexivity.
Qed.

Variable pow10 : R -> R.
Variable rel : scipy.release.
Variable integrate_rate : R -> R -> py_result R.

Local Notation thr := LimitSetter.no_background_possion.
Local Notation observe := (LimitSetter.observe integrate_rate).
Local Notation limit_for_fl :=
  (LimitSetter.limit_for_fl rnd pow10 rel integrate_rate).
Local Notation valid_grid := (LimitSetter.valid_grid rnd pow10).

(** How the loop of [_get_limit] can end: by an exception, at the end of
    the grid without a count above the threshold, or at the first count
    above it. *)
Lemma observe_cases mw : forall sigmas,
  (exists e, snd (observe mw sigmas) = Raise e) \/
  (exists cs,
     Forall2 (fun s c => integrate_rate mw s = Ok c /\ c <= thr) sigmas cs) \/
  (exists pre cs s c post,
     sigmas = pre ++ s :: post /\
     Forall2 (fun s' c' => integrate_rate mw s' = Ok c' /\ c' <= thr) pre cs /\
     integrate_rate mw s = Ok c /\ c > thr).
Proof.
  induction sigmas as [|s rest IH].
  - right; left. exists []. constructor.
  - destruct (integrate_rate mw s) as [n_i|e] eqn:Hs.
    + destruct (Rgt_dec n_i thr) as [Hgt|Hle].
      * right; right. exists [], [], s, n_i, rest.
        split; [reflexivity|]. split; [constructor|]. auto.
      * destruct IH as [[e He]|[[cs Hcs]|(pre & cs & s' & c & post & E & Hpre
                                           & Hs' & Hc)]].
        -- left. exists e. simpl. rewrite Hs.
           destruct (Rgt_dec n_i thr); [contradiction|].
           destruct (observe mw rest) as [calls r]. simpl in He. subst r.
           reflexivity.
        -- right; left. exists (n_i :: cs).
           constructor; [split; [exact Hs|lra]|exact Hcs].
        -- right; right. exists (s :: pre), (n_i :: cs), s', c, post.
           rewrite E. split; [reflexivity|].
           split; [constructor; [split; [exact Hs|lra]|exact Hpre]|]. auto.
    + left. exists e. simpl. rewrite Hs. reflexivity.
Qed.

Lemma limit_for_fl_all mw sigmas cs :
  Forall2 (fun s c => integrate_rate mw s = Ok c /\ c <= thr) sigmas cs ->
  limit_for_fl sigmas mw =
    (itp <- scipy.interp1d rel cs (map pow10 sigmas) NaN ;;
     Ok (scipy.call_fl rnd itp thr)).
Proof.
  intros Hall. unfold LimitSetter.limit_for_fl.
  rewrite (observe_all integrate_rate mw sigmas cs Hall). simpl snd.
  unfold bind at 1. rewrite <- (Forall2_length Hall), firstn_all.
  reflexivity.
Qed.

Lemma limit_for_fl_prefix mw pre cs s c post :
  Forall2 (fun s' c' => integrate_rate mw s' = Ok c' /\ c' <= thr) pre cs ->
  integrate_rate mw s = Ok c -> c > thr ->
  limit_for_fl (pre ++ s :: post) mw =
    (itp <- scipy.interp1d rel (cs ++ [c]) (map pow10 (pre ++ [s])) NaN ;;
     Ok (scipy.call_fl rnd itp thr)).
Proof.
  intros Hpre Hs Hc. unfold LimitSetter.limit_for_fl.
  rewrite (observe_prefix integrate_rate mw pre cs s c post Hpre Hs Hc).
  simpl snd. unfold bind at 1.
  replace (pre ++ s :: post) with ((pre ++ [s]) ++ post)
    by (rewrite <- app_assoc; reflexivity).
  rewrite firstn_length_app; [reflexivity|].
  rewrite !length_app. simpl. rewrite (Forall2_length Hpre). reflexivity.
Qed.

Lemma interp1d_data x y fill itp :
  scipy.interp1d rel x y fill = Ok itp ->
  length x = length y /\
  itp = scipy.mk_interp1d (np.sort_pts (combine x y)) fill.
Proof.
  unfold scipy.interp1d. intros H.
  destruct (length x =? length y)%nat eqn:E; simpl in H; [|discriminate].
  apply Nat.eqb_eq in E.
  destruct (length x <? scipy.minval rel)%nat; [discriminate|].
  injection H as <-. auto.
Qed.

Lemma combine_snoc {A B : Type} (l : list A) : forall (l' : list B) a b,
  length l = length l' ->
  combine (l ++ [a]) (l' ++ [b]) = combine l l' ++ [(a, b)].
Proof.
  induction l as [|x l IH]; intros [|y l'] a b Hlen; try discriminate.
  - reflexivity.
  - simpl. rewrite IH by (injection Hlen; auto). reflexivity.
Qed.

Lemma sorted_before {A : Type} (le : A -> A -> Prop) (l1 : list A) :
  forall x l2, StronglySorted le (l1 ++ x :: l2) ->
  Forall (fun a => le a x) l1.
Proof.
  induction l1 as [|a l1 IH]; intros x l2 Hs; [constructor|].
  simpl in Hs. inversion Hs as [|? ? Hs' Ha]; subst.
  constructor.
  - rewrite Forall_forall in Ha. apply Ha. apply in_or_app.
    right. left. reflexivity.
  - exact (IH x l2 Hs').
Qed.

Lemma Forall2_In_r {A B : Type} (P : A -> B -> Prop) (l : list A)
  (l' : list B) b :
  Forall2 P l l' -> In b l' -> exists a, In a l /\ P a b.
Proof.
  induction 1 as [|a0 b0 l l' H0 _ IH]; intros Hb; [destruct Hb|].
  destruct Hb as [<-|Hb].
  - exists a0. split; [left; reflexivity|exact H0].
  - destruct (IH Hb) as (a & Ha & HP). exists a. split; [right|]; assumption.
Qed.

(** The points the solver interpolates: from a point whose count is at
    most the threshold to a point whose count is above it, the
    cross-section does not decrease. *)
Lemma solver_points_rise pre cs s c post mw :
  StronglySorted (fun a b => pow10 a <= pow10 b) (pre ++ s :: post) ->
  Forall2 (fun s' c' => integrate_rate mw s' = Ok c' /\ c' <= thr) pre cs ->
  c > thr ->
  forall p q,
    In p (combine (cs ++ [c]) (map pow10 (pre ++ [s]))) ->
    In q (combine (cs ++ [c]) (map pow10 (pre ++ [s]))) ->
    fst p <= thr < fst q -> snd p <= snd q.
Proof.
  intros Hsorted Hpre Hc p q Hp Hq [Hple Hqgt].
  assert (Hlen : length cs = length (map pow10 pre))
    by (rewrite length_map; symmetry; exact (Forall2_length Hpre)).
  rewrite map_app in Hp, Hq. simpl map in Hp, Hq.
  rewrite combine_snoc in Hp, Hq by exact Hlen.
  assert (Hlow : forall r, In r (combine cs (map pow10 pre)) ->
            fst r <= thr /\ snd r <= pow10 s).
  { intros [rx ry] Hr. split.
    - apply in_combine_l in Hr.
      destruct (Forall2_In_r _ _ _ _ Hpre Hr) as (a & _ & _ & Hle).
      exact Hle.
    - apply in_combine_r in Hr. apply in_map_iff in Hr.
      destruct Hr as (a & <- & Ha).
      pose proof (sorted_before _ pre s post Hsorted) as Hb.
      rewrite Forall_forall in Hb. exact (Hb a Ha). }
  apply in_app_or in Hq. destruct Hq as [Hq|[<-|[]]].
  - destruct (Hlow q Hq) as [Hq1 _]. lra.
  - apply in_app_or in Hp. destruct Hp as [Hp|[<-|[]]].
    + exact (proj2 (Hlow p Hp)).
    + simpl. lra.
Qed.

Lemma valid_grid_values sigmas l :
  valid_grid sigmas -> incl l sigmas ->
  Forall (fun b => 0 <= b /\ rnd b = b) (map pow10 l).
Proof.
  intros [_ Hfl] Hl. apply Forall_forall. intros b Hb.
  apply in_map_iff in Hb. destruct Hb as (a & <- & Ha).
  rewrite Forall_forall in Hfl. exact (Hfl a (Hl a Ha)).
Qed.

Lemma incl_prefix {A : Type} (pre : list A) s post :
  incl (pre ++ [s]) (pre ++ s :: post).
Proof.
  intros a Ha. apply in_app_or in Ha. apply in_or_app.
  destruct Ha as [Ha|[<-|[]]]; [left; exact Ha|right; left; reflexivity].
Qed.

(** The number the solver yields is not negative, on any valid grid. *)
Lemma limit_fl_not_negative mw sigmas v :
  valid_grid sigmas ->
  limit_for_fl sigmas mw = Ok (Num v) -> 0 <= v.
Proof.
  intros Hgrid Hlim.
  destruct (observe_cases mw sigmas)
    as [[e He]|[[cs Hcs]|(pre & cs & s & c & post & E & Hpre & Hs & Hc)]].
  - unfold LimitSetter.limit_for_fl in Hlim. rewrite He in Hlim.
    discriminate.
  - rewrite (limit_for_fl_all mw sigmas cs Hcs) in Hlim.
    destruct (scipy.interp1d rel cs (map pow10 sigmas) NaN) as [itp|e] eqn:Ei;
      [|discriminate].
    apply interp1d_data in Ei. destruct Ei as [Hlen ->].
    unfold bind in Hlim. injection Hlim as Hcall.
    apply (call_fl_lower 0 cs (map pow10 sigmas) thr v);
      [apply (valid_grid_values sigmas), incl_refl; exact Hgrid|
      |exact Hcall].
    intros p [qx qy] Hp Hq [_ Hgt]. exfalso.
    apply in_combine_l in Hq.
    destruct (Forall2_In_r _ _ _ _ Hcs Hq) as (a & _ & _ & Hle).
    simpl in Hgt. lra.
  - subst sigmas.
    rewrite (limit_for_fl_prefix mw pre cs s c post Hpre Hs Hc) in Hlim.
    destruct (scipy.interp1d rel (cs ++ [c]) (map pow10 (pre ++ [s])) NaN)
      as [itp|e] eqn:Ei; [|discriminate].
    apply interp1d_data in Ei. destruct Ei as [Hlen ->].
    unfold bind in Hlim. injection Hlim as Hcall.
    apply (call_fl_lower 0 (cs ++ [c]) (map pow10 (pre ++ [s])) thr v);
      [|exact (solver_points_rise pre cs s c post mw (proj1 Hgrid) Hpre Hc)
       |exact Hcall].
    apply (valid_grid_values (pre ++ s :: post)); [exact Hgrid|].
    apply incl_prefix.
Qed.

(** When the count first exceeds the threshold after the first grid
    point, the solver yields a number, not below the cross-section of the
    first grid point. *)
Lemma limit_fl_lower mw s0 c0 pre cs s c post :
  valid_grid (s0 :: pre ++ s :: post) ->
  integrate_rate mw s0 = Ok c0 -> c0 <= thr ->
  Forall2 (fun s' c' => integrate_rate mw s' = Ok c' /\ c' <= thr) pre cs ->
  integrate_rate mw s = Ok c -> c > thr ->
  exists v,
    limit_for_fl (s0 :: pre ++ s :: post) mw = Ok (Num v) /\
    pow10 s0 <= v.
Proof.
  intros Hgrid H0 Hc0 Hpre Hs Hc.
  assert (Hpre' : Forall2 (fun s' c' => integrate_rate mw s' = Ok c' /\
                     c' <= thr) (s0 :: pre) (c0 :: cs))
    by (constructor; [split; assumption|exact Hpre]).
  pose proof (limit_for_fl_prefix mw (s0 :: pre) (c0 :: cs) s c post
                Hpre' Hs Hc) as Hlim.
  change ((s0 :: pre) ++ s :: post) with (s0 :: pre ++ s :: post) in Hlim.
  assert (Hlen : length ((c0 :: cs) ++ [c])
                 = length (map pow10 ((s0 :: pre) ++ [s]))).
  { rewrite length_map, !length_app. simpl.
    rewrite (Forall2_length Hpre). reflexivity. }
  rewrite interp1d_two_or_more in Hlim;
    [|exact Hlen|simpl; rewrite length_app; simpl; lia].
  unfold bind in Hlim.
  destruct (call_fl_defined ((c0 :: cs) ++ [c])
              (map pow10 ((s0 :: pre) ++ [s])) NaN thr c0 c Hlen)
    as [v Hv].
  - left. reflexivity.
  - apply in_or_app. right. left. reflexivity.
  - lra.
  - exists v. split; [rewrite Hlim, Hv; reflexivity|].
    apply (call_fl_lower (pow10 s0) ((c0 :: cs) ++ [c])
             (map pow10 ((s0 :: pre) ++ [s])) thr v); [| |exact Hv].
    + destruct Hgrid as [Hsorted Hfl].
      apply Forall_forall. intros b Hb. apply in_map_iff in Hb.
      destruct Hb as (a & <- & Ha).
      assert (Hin : In a (s0 :: pre ++ s :: post))
        by (apply (incl_prefix (s0 :: pre) s post); exact Ha).
      split.
      * destruct Ha as [<-|Ha]; [lra|].
        inversion Hsorted as [|? ? _ Hall]; subst.
        rewrite Forall_forall in Hall. apply Hall.
        apply in_app_or in Ha. apply in_or_app.
        destruct Ha as [Ha|[<-|[]]];
          [left; exact Ha|right; left; reflexivity].
      * rewrite Forall_forall in Hfl. exact (proj2 (Hfl a Hin)).
    + exact (solver_points_rise (s0 :: pre) (c0 :: cs) s c post mw
               (proj1 Hgrid) Hpre' Hc).
Qed.

End Bounds.

(** Without rounding the rounded solver is the solver. *)
Lemma interp_fl_exact pts v :
  np.interp_fl (fun x => x) pts v = np.interp pts v.
Proof.
  induction pts as [|[x0 y0] rest IH]; [reflexivity|].
  destruct rest as [|[x1 y1] rest']; [reflexivity|].
  change (np.interp_fl (fun x => x) ((x0, y0) :: (x1, y1) :: rest') v) with
    (if Rlt_dec v x1 then
       if Req_dec_T x0 v then y0
       else (y1 - y0) / (x1 - x0) * (v - x0) + y0
     else np.interp_fl (fun x => x) ((x1, y1) :: rest') v).
  change (np.interp ((x0, y0) :: (x1, y1) :: rest') v) with
    (if Rlt_dec v x1 then
       if Req_dec_T x0 v then y0
       else (y1 - y0) / (x1 - x0) * (v - x0) + y0
     else np.interp ((x1, y1) :: rest') v).
  rewrite IH. reflexivity.
Qed.

Lemma limit_for_fl_exact rel integrate_rate sigmas mw :
  LimitSetter.limit_for_fl (fun x => x) (Rpower 10) rel integrate_rate
    sigmas mw
  = LimitSetter.limit_for rel integrate_rate sigmas mw.
Proof.
  unfold LimitSetter.limit_for_fl, LimitSetter.limit_for, np.pow10.
  destruct (snd (LimitSetter.observe integrate_rate mw sigmas)) as [ns|e];
    [|reflexivity].
  simpl.
  destruct (scipy.interp1d rel ns
              (map (Rpower 10) (firstn (length ns) sigmas)) NaN) as [itp|e];
    [|reflexivity].
  simpl. unfold scipy.call_fl, scipy.call.
  destruct (scipy.itp_pts itp) as [|p rest] eqn:E; [reflexivity|].
  rewrite interp_fl_exact. reflexivity.
Qed.



(** In binary64 the interpolation expression can end above the higher of
    its two ordinates: between the points (0.05223, 1) and
    (2.3000000000000003, 10), at the float of 2.3, it gives
    10.000000000000002. *)
Lemma binary64_chord_exceeds_ordinate :
  PrimFloat.leb binary64.low_count binary64.threshold = true /\
  PrimFloat.ltb binary64.threshold binary64.above_threshold = true /\
  PrimFloat.ltb binary64.ten
    (binary64.chord binary64.low_count binary64.one
       binary64.above_threshold binary64.ten binary64.threshold)
  = true.
Proof. repeat split; reflexivity. Qed.

(** ** The rate integrator *)

(** C6.  When the efficiency of the detector is below 1e-6 at every energy
    of the region of interest, the integrand is 0 there whatever the rate
    formula is (it is not evaluated), and [integrate_rate] returns 0,
    for any quadrature that integrates to 0 an integrand that is 0 on the
    region of interest. *)
Theorem integrate_rate_zero_efficiency nu det rate_wimp quad mw log_cs :
  (forall func,
     (forall e, fst (LimitSetter.e_roi det) <= e <=
                snd (LimitSetter.e_roi det) -> func e = Ok (Num 0)) ->
     exists abserr,
       quad func (fst (LimitSetter.e_roi det))
         (snd (LimitSetter.e_roi det)) (1 / 100) = Ok (Num 0, abserr)) ->
  (forall e, fst (LimitSetter.e_roi det) <= e <=
             snd (LimitSetter.e_roi det) ->
     exists eff, LimitSetter.combined_efficiency det e = Ok eff /\
                 value_lt eff (1 / 1000000) = true) ->
  (forall e, fst (LimitSetter.e_roi det) <= e <=
             snd (LimitSetter.e_roi det) ->
     LimitSetter.d_rate nu det rate_wimp mw log_cs e = Ok (Num 0)) /\
  LimitSetter.integrate_rate nu det rate_wimp quad mw log_cs = Ok (Num 0).
Proof.
  intros Hquad Heff.
  assert (Hd : forall e, fst (LimitSetter.e_roi det) <= e <=
                         snd (LimitSetter.e_roi det) ->
                 LimitSetter.d_rate nu det rate_wimp mw log_cs e
                 = Ok (Num 0)).
  { intros e He. destruct (Heff e He) as (eff & E & Hlt).
    unfold LimitSetter.d_rate. rewrite E. unfold bind at 1.
    rewrite Hlt. reflexivity. }
  split; [exact Hd|].
  unfold LimitSetter.integrate_rate.
  destruct (Hquad _ Hd) as [abserr Hq]. rewrite Hq. simpl.
  do 2 f_equal. ring.
Qed.

Lemma integrate_rate_zero_efficiency_witness :
  (forall e, fst (LimitSetter.e_roi Scenario.blind_detector) <= e <=
             snd (LimitSetter.e_roi Scenario.blind_detector) ->
     LimitSetter.d_rate Scenario.unit_system Scenario.blind_detector
       Scenario.raising_rate_wimp 50 (-45) e = Ok (Num 0)) /\
  LimitSetter.integrate_rate Scenario.unit_system Scenario.blind_detector
    Scenario.raising_rate_wimp Scenario.midpoint_quad 50 (-45)
    = Ok (Num 0).
Proof.
  apply (integrate_rate_zero_efficiency Scenario.unit_system
           Scenario.blind_detector Scenario.raising_rate_wimp
           Scenario.midpoint_quad 50 (-45)).
  - intros func Hf. exists 0. unfold Scenario.midpoint_quad.
    rewrite Hf by (simpl; lra). simpl. do 3 f_equal. ring.
  - intros e _. exists (Num 0). split; [reflexivity|].
    simpl. destruct (Rlt_dec 0 (1 / 1000000)); [reflexivity|lra].
Defined.

(** * Further properties of the limit setter *)

(** ** The cross-section grid *)

Lemma linspace_length start stop num :
  length (np.linspace start stop num) = num.
Proof.
  destruct num as [|[|k]]; [reflexivity|reflexivity|].
  unfold np.linspace. rewrite length_map, length_seq. reflexivity.
Qed.

Lemma linspace_nth start stop k i :
  (i < S (S k))%nat ->
  nth i (np.linspace start stop (S (S k))) 0
  = INR i * ((stop - start) / INR (S k)) + start.
Proof.
  intros Hi. unfold np.linspace.
  set (f := fun j => INR j * ((stop - start) / INR (S k)) + start).
  rewrite (nth_indep _ 0 (f 0%nat))
    by (rewrite length_map, length_seq; exact Hi).
  rewrite (map_nth f), seq_nth by exact Hi. reflexivity.
Qed.

Lemma linspace_point_bounds start stop k i :
  start <= stop -> (i <= S k)%nat ->
  start <= INR i * ((stop - start) / INR (S k)) + start <= stop.
Proof.
  intros Hle Hi.
  assert (Hk : 0 < INR (S k)) by (apply lt_0_INR; lia).
  assert (Hi0 : 0 <= INR i) by apply pos_INR.
  assert (Hik : INR i <= INR (S k)) by (apply le_INR; exact Hi).
  set (t := INR i / INR (S k)).
  assert (Ht0 : 0 <= t).
  { unfold t. apply Rmult_le_pos; [exact Hi0|].
    apply Rlt_le, Rinv_0_lt_compat, Hk. }
  assert (Ht1 : t <= 1).
  { unfold t. apply Rmult_le_reg_r with (INR (S k)); [exact Hk|].
    unfold Rdiv. rewrite Rmult_assoc, Rinv_l by lra. lra. }
  replace (INR i * ((stop - start) / INR (S k)) + start)
    with (start + t * (stop - start)) by (unfold t; field; lra).
  split; nra.
Qed.

Lemma linspace_within lo hi bins :
  lo <= hi -> Forall (fun s => lo <= s <= hi) (np.linspace lo hi bins).
Proof.
  intros Hle. destruct bins as [|[|k]].
  - constructor.
  - constructor; [lra|constructor].
  - apply Forall_forall. intros s Hs.
    apply (In_nth _ _ 0) in Hs. destruct Hs as (i & Hi & <-).
    rewrite linspace_length in Hi.
    rewrite linspace_nth by exact Hi.
    apply linspace_point_bounds; [exact Hle|lia].
Qed.


(** ** The loop of the limit solver *)

(** [n_i > 2.3] holds of the numbers above 2.3 and of nothing else. *)
Lemma exceeds_spec n_i :
  LimitSetter.exceeds n_i = true <->
  exists r, n_i = Num r /\ r > LimitSetter.no_background_possion.
Proof.
  destruct n_i as [r|]; simpl.
  - destruct (Rgt_dec r LimitSetter.no_background_possion) as [H|H]; split.
    + intros _. exists r. auto.
    + reflexivity.
    + discriminate.
    + intros (r' & E & Hr). injection E as <-. contradiction.
  - split; [discriminate|]. intros (r & E & _). discriminate.
Qed.

Lemma not_exceeds_spec n_i :
  LimitSetter.exceeds n_i = false ->
  n_i = NaN \/
  exists r, n_i = Num r /\ r <= LimitSetter.no_background_possion.
Proof.
  destruct n_i as [r|]; simpl; [|auto].
  destruct (Rgt_dec r LimitSetter.no_background_possion) as [H|H];
    [discriminate|].
  intros _. right. exists r. split; [reflexivity|lra].
Qed.

(** On an integrator that returns numbers the loop is the loop of the
    limit solver. *)
Lemma observe_counts_numeric (integrate_rate : R -> R -> py_result R) mw :
  forall sigmas,
  LimitSetter.observe_counts
    (fun m s => c <- integrate_rate m s ;; Ok (Num c)) mw sigmas
  = (fst (LimitSetter.observe integrate_rate mw sigmas),
     ns <- snd (LimitSetter.observe integrate_rate mw sigmas) ;;
     Ok (map Num ns)).
Proof.
  induction sigmas as [|s rest IH]; [reflexivity|].
  simpl. destruct (integrate_rate mw s) as [n_i|e]; simpl; [|reflexivity].
  destruct (Rgt_dec n_i LimitSetter.no_background_possion);
    [reflexivity|].
  rewrite IH.
  destruct (LimitSetter.observe integrate_rate mw rest) as [calls r].
  simpl. destruct r; reflexivity.
Qed.

(** A count of [nan] does not end the loop. *)
Lemma nan_count_does_not_stop_the_loop :
  LimitSetter.observe_counts Samples.nan_first_integrate_rate 50
    [-46; -45; -44]
  = ([-46; -45], Ok [NaN; Num 3]).
Proof.
  unfold Samples.nan_first_integrate_rate. simpl.
  destruct (Req_dec_T (-46) (-46)) as [_|H]; [|contradiction].
  simpl. destruct (Req_dec_T (-45) (-46)) as [H|_]; [lra|].
  simpl.
  destruct (Rgt_dec 3 LimitSetter.no_background_possion) as [_|H];
    [reflexivity|].
  exfalso. apply H. unfold LimitSetter.no_background_possion. lra.
Qed.

(** X2.  Whatever the integrator does (it may return a number or [nan],
    or raise), the loop of [_get_limit] calls it on a prefix of the grid,
    in grid order.  When the loop ends without an exception it has
    collected one count per call, every count but the last is [nan] or at
    most 2.3, and if a part of the grid was left out the last count is a
    number above 2.3.  When the loop is ended by an exception, it is the
    last call that raised. *)
Theorem observe_evaluates_a_prefix
  (integrate_rate : R -> R -> py_result value) mw sigmas :
  exists post,
    sigmas
    = fst (LimitSetter.observe_counts integrate_rate mw sigmas) ++ post /\
    (forall ns,
       snd (LimitSetter.observe_counts integrate_rate mw sigmas) = Ok ns ->
       Forall2 (fun s c => integrate_rate mw s = Ok c)
         (fst (LimitSetter.observe_counts integrate_rate mw sigmas)) ns /\
       Forall (fun c => c = NaN \/
                        exists r, c = Num r /\
                                  r <= LimitSetter.no_background_possion)
         (removelast ns) /\
       (post <> [] ->
        exists pre r, ns = pre ++ [Num r] /\
                      r > LimitSetter.no_background_possion)) /\
    (forall e,
       snd (LimitSetter.observe_counts integrate_rate mw sigmas) = Raise e ->
       exists pre s,
         fst (LimitSetter.observe_counts integrate_rate mw sigmas)
         = pre ++ [s] /\
         integrate_rate mw s = Raise e).
Proof.
  induction sigmas as [|s rest IH].
  - exists []. simpl. split; [reflexivity|]. split.
    + intros ns E. injection E as <-.
      split; [constructor|]. split; [constructor|]. intros H. contradiction.
    + intros e E. discriminate.
  - simpl. destruct (integrate_rate mw s) as [n_i|e0] eqn:Hs.
    + destruct (LimitSetter.exceeds n_i) eqn:Hex.
      * exists rest. simpl. split; [reflexivity|]. split.
        -- intros ns E. injection E as <-.
           split; [constructor; [exact Hs|constructor]|].
           split; [constructor|]. intros _.
           destruct (proj1 (exceeds_spec n_i) Hex) as (r & -> & Hr).
           exists [], r. auto.
        -- intros e E. discriminate.
      * destruct IH as (post & Hpre & Hok & Hraise).
        destruct (LimitSetter.observe_counts integrate_rate mw rest)
          as [calls r] eqn:Hobs.
        simpl in *. exists post. split; [rewrite <- Hpre; reflexivity|].
        split.
        -- intros ns E. destruct r as [ns'|e']; [|discriminate].
           simpl in E. injection E as <-.
           destruct (Hok ns' eq_refl) as (H2 & Hall & Hlast).
           split; [constructor; assumption|]. split.
           ++ destruct ns' as [|c ns'']; [constructor|].
              change (removelast (n_i :: c :: ns''))
                with (n_i :: removelast (c :: ns'')).
              constructor; [exact (not_exceeds_spec n_i Hex)|exact Hall].
           ++ intros Hp. destruct (Hlast Hp) as (pre & c & -> & Hc).
              exists (n_i :: pre), c. auto.
        -- intros e E. destruct r as [ns'|e']; [discriminate|].
           simpl in E. injection E as <-.
           destruct (Hraise e' eq_refl) as (pre & s' & -> & Hs').
           exists (s :: pre), s'. auto.
    + exists rest. simpl. split; [reflexivity|]. split.
      * intros ns E. discriminate.
      * intros e E. injection E as <-. exists [], s. auto.
Qed.

Lemma interp1d_enough rel x y fill :
  length x = length y -> (scipy.minval rel <= length x)%nat ->
  scipy.interp1d rel x y fill
    = Ok (scipy.mk_interp1d (np.sort_pts (combine x y)) fill).
Proof.
  intros Hlen Hmin. unfold scipy.interp1d.
  rewrite Hlen, Nat.eqb_refl. simpl negb. cbv iota.
  rewrite <- Hlen.
  destruct (length x <? scipy.minval rel)%nat eqn:E; [|reflexivity].
  apply Nat.ltb_lt in E. lia.
Qed.

(** X3.  When every count on the grid stays below 2.3 (the threshold is
    never reached) and the grid has as many points as the interpolator
    asks for, the solver does not extrapolate: 2.3 lies above every
    abscissa of the interpolator and the limit is [nan]. *)
Theorem unreached_threshold_gives_nan rel integrate_rate mw sigmas cs :
  Forall2 (fun s c => integrate_rate mw s = Ok c /\
                      c < LimitSetter.no_background_possion) sigmas cs ->
  (scipy.minval rel <= length sigmas)%nat ->
  fst (LimitSetter.observe integrate_rate mw sigmas) = sigmas /\
  LimitSetter.limit_for rel integrate_rate sigmas mw = Ok NaN.
Proof.
  intros Hall Hmin.
  assert (Hle : Forall2 (fun s c => integrate_rate mw s = Ok c /\
                           c <= LimitSetter.no_background_possion)
                  sigmas cs).
  { clear Hmin. induction Hall as [|s c l l' [H1 H2] _ IH]; constructor;
      [split; [exact H1|lra]|exact IH]. }
  assert (Hlt : forall a, In a cs -> a < LimitSetter.no_background_possion).
  { clear Hmin Hle. induction Hall as [|s c l l' [H1 H2] _ IH];
      intros a Ha; [destruct Ha|].
    destruct Ha as [<-|Ha]; [exact H2|exact (IH a Ha)]. }
  assert (Hlen := Forall2_length Hall).
  rewrite (observe_all integrate_rate mw sigmas cs Hle).
  split; [reflexivity|].
  unfold LimitSetter.limit_for.
  rewrite (observe_all integrate_rate mw sigmas cs Hle). simpl snd.
  unfold bind at 1. rewrite <- Hlen, firstn_all.
  rewrite interp1d_enough;
    [|unfold np.pow10; rewrite length_map; congruence|lia].
  unfold bind. f_equal. apply call_outside. right. exact Hlt.
Qed.

Lemma unreached_threshold_gives_nan_witness :
  fst (LimitSetter.observe Samples.faint_integrate_rate 50
         [-46; -91 / 2; -45; -89 / 2; -44])
    = [-46; -91 / 2; -45; -89 / 2; -44] /\
  LimitSetter.limit_for scipy.MinTwoEntries Samples.faint_integrate_rate
    [-46; -91 / 2; -45; -89 / 2; -44] 50 = Ok NaN.
Proof.
  apply (unreached_threshold_gives_nan scipy.MinTwoEntries
           Samples.faint_integrate_rate 50
           [-46; -91 / 2; -45; -89 / 2; -44] [1; 1; 1; 1; 1]).
  - repeat (constructor;
            [split; [reflexivity
                    |unfold LimitSetter.no_background_possion; lra]|]).
    constructor.
  - simpl. lia.
Defined.



(** ** The scheduler, at the edges of [n_threads] *)

(** X5.  Under a limit [n_threads] that is not negative, in every state a
    run of [set_limits] goes through, at most [n_threads + 1] solve tasks
    are alive. *)
Theorem alive_tasks_bounded rel integrate_rate mass_range range bins
  n_threads evs s :
  (0 <= n_threads)%Z ->
  LimitSetter.run rel integrate_rate mass_range range bins n_threads evs
    (LimitSetter.init mass_range) = Some s ->
  (Z.of_nat (LimitSetter.n_running s) <= n_threads + 1)%Z.
Proof.
  intros Hn Hrun.
  pose proof (n_running_bound rel integrate_rate mass_range range bins
                n_threads evs s Hrun).
  lia.
Qed.

Lemma alive_tasks_bounded_witness :
  (Z.of_nat (LimitSetter.n_running Samples.both_running) <= 1 + 1)%Z.
Proof.
  apply (alive_tasks_bounded scipy.MinOneEntry Scenario.mock_integrate_rate
           Samples.two_masses Scenario.log_sigma_range
           Scenario.n_sigma_bins 1
           [LimitSetter.Main; LimitSetter.Main] Samples.both_running).
  - lia.
  - reflexivity.
Defined.

Lemma negative_limit_stuck rel integrate_rate mass_range range bins
  n_threads evs :
  (n_threads < 0)%Z -> mass_range <> [] ->
  forall s,
    LimitSetter.run rel integrate_rate mass_range range bins n_threads evs
      (LimitSetter.init mass_range) = Some s ->
    s = LimitSetter.init mass_range.
Proof.
  intros Hn Hm. induction evs as [|ev evs IH]; intros s Hrun.
  - injection Hrun as <-. reflexivity.
  - simpl in Hrun. destruct ev as [|t].
    + (* the inner loop prunes an empty list and sleeps *)
      assert (E : LimitSetter.step_main mass_range n_threads
                    (LimitSetter.init mass_range)
                  = Some (LimitSetter.init mass_range)).
      { unfold LimitSetter.step_main, LimitSetter.init. simpl.
        destruct mass_range as [|m ms]; [contradiction|]. simpl.
        destruct (0 >? n_threads)%Z eqn:E0; [reflexivity|lia]. }
      simpl in Hrun. rewrite E in Hrun. exact (IH s Hrun).
    + discriminate.
Qed.

(** X6.  Under a negative [n_threads] and a mass grid that is not empty,
    the inner loop of [set_limits] never ends: no solve task is ever
    launched, no slot is written, and the call does not return. *)
Theorem negative_limit_never_launches rel integrate_rate mass_range range
  bins n_threads evs s :
  (n_threads < 0)%Z -> mass_range <> [] ->
  LimitSetter.run rel integrate_rate mass_range range bins n_threads evs
    (LimitSetter.init mass_range) = Some s ->
  LimitSetter.st_pc s = LimitSetter.Launching 0 /\
  LimitSetter.st_alive s = [] /\
  LimitSetter.st_results s = repeat (Num 0) (length mass_range) /\
  forall out, ~ LimitSetter.set_limits rel integrate_rate mass_range range
                  bins n_threads evs out.
Proof.
  intros Hn Hm Hrun.
  rewrite (negative_limit_stuck rel integrate_rate mass_range range bins
             n_threads evs Hn Hm s Hrun).
  repeat split.
  intros out (s' & Hrun' & Hpc).
  rewrite (negative_limit_stuck rel integrate_rate mass_range range bins
             n_threads evs Hn Hm s' Hrun') in Hpc.
  discriminate.
Qed.

Lemma negative_limit_never_launches_witness :
  LimitSetter.st_pc (LimitSetter.init Scenario.mass_range)
    = LimitSetter.Launching 0 /\
  LimitSetter.st_alive (LimitSetter.init Scenario.mass_range) = [] /\
  LimitSetter.st_results (LimitSetter.init Scenario.mass_range)
    = repeat (Num 0) (length Scenario.mass_range) /\
  forall out,
    ~ LimitSetter.set_limits scipy.MinOneEntry Scenario.mock_integrate_rate
        Scenario.mass_range Scenario.log_sigma_range Scenario.n_sigma_bins
        (-1) [LimitSetter.Main; LimitSetter.Main] out.
Proof.
  apply (negative_limit_never_launches scipy.MinOneEntry
           Scenario.mock_integrate_rate Scenario.mass_range
           Scenario.log_sigma_range Scenario.n_sigma_bins (-1)
           [LimitSetter.Main; LimitSetter.Main]
           (LimitSetter.init Scenario.mass_range)).
  - lia.
  - discriminate.
  - reflexivity.
Defined.

(** X7.  Under [n_threads = 0] the final loop is not entered.  From a state
    in which the last mass is about to be handled and no thread is
    tracked, three steps of the dispatching thread launch the last task
    and return the shared list as it is: the task is still alive and its
    slot in the vector returned is 0. *)
Theorem zero_limit_returns_before_last_task_ends rel integrate_rate
  mass_range range bins evs s i :
  LimitSetter.run rel integrate_rate mass_range range bins 0 evs
    (LimitSetter.init mass_range) = Some s ->
  LimitSetter.st_pc s = LimitSetter.Launching i ->
  S i = length mass_range ->
  LimitSetter.st_threads s = [] ->
  exists s',
    LimitSetter.run rel integrate_rate mass_range range bins 0
      [LimitSetter.Main; LimitSetter.Main; LimitSetter.Main] s = Some s' /\
    LimitSetter.st_pc s' = LimitSetter.Returned (LimitSetter.st_results s) /\
    In i (LimitSetter.st_alive s') /\
    nth i (LimitSetter.st_results s) (Num 0) = Num 0.
Proof.
  intros Hrun Hpc Hi Hth.
  destruct (invariant_run rel integrate_rate mass_range range bins 0%Z
              evs _ s (invariant_init rel integrate_rate mass_range range
                         bins 0%Z) Hrun)
    as [_ _ _ _ _ _ _ Hpend _ _].
  assert (Hmw : exists mw, nth_error mass_range i = Some mw).
  { destruct (nth_error mass_range i) as [mw|] eqn:E; [eauto|].
    apply nth_error_None in E. lia. }
  destruct Hmw as [mw Hmw].
  assert (Hnone : nth_error mass_range (S i) = None)
    by (apply nth_error_None; lia).
  exists (LimitSetter.mk_state
            (LimitSetter.Returned (LimitSetter.st_results s)) [i]
            (i :: LimitSetter.st_alive s) (LimitSetter.st_results s)).
  split.
  - cbn [LimitSetter.run LimitSetter.step].
    unfold LimitSetter.step_main at 1. rewrite Hpc, Hmw, Hth.
    cbn [length Z.of_nat Z.gtb Z.compare app].
    unfold LimitSetter.step_main at 1.
    cbn [LimitSetter.st_pc LimitSetter.st_threads LimitSetter.st_alive
         LimitSetter.st_results].
    rewrite Hnone.
    unfold LimitSetter.step_main.
    cbn [LimitSetter.st_pc LimitSetter.st_threads LimitSetter.st_alive
         LimitSetter.st_results Z.eqb].
    reflexivity.
  - split; [reflexivity|]. split; [left; reflexivity|].
    apply Hpend. left. unfold LimitSetter.launched. rewrite Hpc. lia.
Qed.

Lemma zero_limit_returns_before_last_task_ends_witness :
  exists s',
    LimitSetter.run scipy.MinOneEntry Scenario.mock_integrate_rate
      Scenario.mass_range Scenario.log_sigma_range Scenario.n_sigma_bins 0
      [LimitSetter.Main; LimitSetter.Main; LimitSetter.Main]
      (LimitSetter.init Scenario.mass_range) = Some s' /\
    LimitSetter.st_pc s'
      = LimitSetter.Returned
          (LimitSetter.st_results (LimitSetter.init Scenario.mass_range)) /\
    In 0%nat (LimitSetter.st_alive s') /\
    nth 0 (LimitSetter.st_results (LimitSetter.init Scenario.mass_range))
      (Num 0) = Num 0.
Proof.
  apply (zero_limit_returns_before_last_task_ends scipy.MinOneEntry
           Scenario.mock_integrate_rate Scenario.mass_range
           Scenario.log_sigma_range Scenario.n_sigma_bins []
           (LimitSetter.init Scenario.mass_range) 0%nat).
  - reflexivity.
  - reflexivity.
  - reflexivity.
  - reflexivity.
Defined.

(** *** Between the store of a worker and its end *)

Section FineGrain.

Variable rel : scipy.release.
Variable integrate_rate : R -> R -> py_result R.
Variable mass_range : list R.
Variable log_sigma_range : R * R.
Variable n_sigma_bins : nat.
Variable n_threads : Z.

Import LimitSetter.

Local Notation fine_step :=
  (LimitSetter.fine_step rel integrate_rate mass_range log_sigma_range
     n_sigma_bins n_threads).
Local Notation fine_run :=
  (LimitSetter.fine_run rel integrate_rate mass_range log_sigma_range
     n_sigma_bins n_threads).
Local Notation fine_invariant :=
  (LimitSetter.fine_invariant rel integrate_rate mass_range log_sigma_range
     n_sigma_bins).
Local Notation work :=
  (LimitSetter.work rel integrate_rate mass_range log_sigma_range
     n_sigma_bins).
Local Notation slot :=
  (LimitSetter.slot rel integrate_rate mass_range log_sigma_range
     n_sigma_bins).
Local Notation launched := (LimitSetter.launched mass_range).

Lemma has_stored_In fs t :
  has_stored fs t = true <-> In t (fs_stored fs).
Proof.
  unfold has_stored. rewrite existsb_exists. split.
  - intros (u & Hu & E). apply Nat.eqb_eq in E. subst. exact Hu.
  - intros H. exists t. split; [exact H|apply Nat.eqb_refl].
Qed.

Lemma alive_In (s : state) t : is_alive s t = true <-> In t (st_alive s).
Proof.
  unfold is_alive. rewrite existsb_exists. split.
  - intros (u & Hu & E). apply Nat.eqb_eq in E. subst. exact Hu.
  - intros H. exists t. split; [exact H|apply Nat.eqb_refl].
Qed.

(** What a worker stores, and what a worker that raises leaves. *)
Lemma work_stores (s : state) t r :
  (t < length (st_results s))%nat ->
  work s t = Ok r ->
  length r = length (st_results s) /\
  nth t r (Num 0) = slot t /\
  forall j, j <> t -> nth j r (Num 0) = nth j (st_results s) (Num 0).
Proof.
  intros Ht. unfold LimitSetter.work, LimitSetter.slot, _get_limit.
  destruct (nth_error mass_range t) as [mw|]; [|discriminate].
  destruct (limit_for rel integrate_rate
              (sigmas log_sigma_range n_sigma_bins) mw) as [v|e];
    [|discriminate].
  simpl. intros Hset.
  destruct (setitem_spec (st_results s) t v Ht) as (r' & Hr & H1 & H2 & H3).
  rewrite Hr in Hset. injection Hset as <-. auto.
Qed.

Lemma work_raises (s : state) t e :
  (t < length (st_results s))%nat ->
  (t < length mass_range)%nat ->
  work s t = Raise e ->
  slot t = Num 0.
Proof.
  intros Ht Hm. unfold LimitSetter.work, LimitSetter.slot, _get_limit.
  destruct (nth_error mass_range t) as [mw|] eqn:Hmw;
    [|apply nth_error_None in Hmw; lia].
  destruct (limit_for rel integrate_rate
              (sigmas log_sigma_range n_sigma_bins) mw) as [v|e'];
    [|reflexivity].
  simpl. intros Hset.
  destruct (setitem_spec (st_results s) t v Ht) as (r' & Hr & _).
  rewrite Hr in Hset. discriminate.
Qed.

Lemma fine_invariant_init : fine_invariant (fine_init mass_range).
Proof.
  constructor; unfold LimitSetter.launched; simpl.
  - apply repeat_length.
  - lia.
  - intros t [].
  - intros t [].
  - intros j [[]|[Hj _]]. lia.
  - intros j _ _.
    destruct (Nat.lt_ge_cases j (length mass_range)) as [Hlt|Hge].
    + apply nth_repeat_lt. exact Hlt.
    + apply nth_overflow. rewrite repeat_length. exact Hge.
Qed.

Lemma fine_invariant_dispatch (s s' : state) stored :
  fine_invariant (mk_fine s stored) ->
  step_main mass_range n_threads s = Some s' ->
  fine_invariant (mk_fine s' stored).
Proof.
  intros [Hlen Hl Hlt Hst Hdone Hpend] Hstep.
  cbn [fs_sched fs_stored] in *.
  unfold step_main in Hstep. unfold LimitSetter.launched in *.
  destruct (st_pc s) as [i|a|out] eqn:Hpc; [| |discriminate].
  - destruct (nth_error mass_range i) as [mw|] eqn:Hmw.
    + assert (Hi : (i < length mass_range)%nat)
        by (apply nth_error_Some; congruence).
      destruct (Z.of_nat (length (st_threads s)) >? n_threads)%Z;
        injection Hstep as <-.
      * constructor; cbn [fs_sched fs_stored]; unfold LimitSetter.launched;
          cbn [st_pc st_threads st_alive st_results]; assumption.
      * constructor; cbn [fs_sched fs_stored]; unfold LimitSetter.launched;
          cbn [st_pc st_threads st_alive st_results].
        -- exact Hlen.
        -- lia.
        -- intros t [<-|Ht]; [lia|]. apply Hlt in Ht. lia.
        -- intros t Ht. apply Hst in Ht. lia.
        -- intros j [Hj|[Hj Hn]]; apply Hdone; [left; exact Hj|right].
           assert (j <> i) by (intros ->; apply Hn; left; reflexivity).
           split; [lia|]. intros Hin. apply Hn. right. exact Hin.
        -- intros j Hns [Hj|[<-|Hj]]; apply Hpend; auto; left; lia.
    + assert (Hi : (length mass_range <= i)%nat)
        by (apply nth_error_None; exact Hmw).
      injection Hstep as <-.
      constructor; cbn [fs_sched fs_stored]; unfold LimitSetter.launched;
        cbn [st_pc st_threads st_alive st_results].
      * exact Hlen.
      * lia.
      * intros t Ht. apply Hlt in Ht. lia.
      * intros t Ht. apply Hst in Ht. lia.
      * intros j [Hj|[Hj Hn]]; apply Hdone; [left; exact Hj|right].
        split; [lia|exact Hn].
      * intros j Hns [Hj|Hj]; apply Hpend; auto; left; lia.
  - destruct (a =? 0)%Z; injection Hstep as <-;
      constructor; cbn [fs_sched fs_stored]; unfold LimitSetter.launched;
        cbn [st_pc st_threads st_alive st_results]; assumption.
Qed.

Lemma fine_invariant_step ev fs fs' :
  fine_invariant fs -> fine_step ev fs = Some fs' -> fine_invariant fs'.
Proof.
  destruct fs as [s stored]. intros Hinv Hstep.
  destruct ev as [|t|t]; unfold LimitSetter.fine_step in Hstep;
    cbn [fs_sched fs_stored] in Hstep.
  - destruct (step_main mass_range n_threads s) as [s1|] eqn:E;
      [|discriminate].
    injection Hstep as <-. exact (fine_invariant_dispatch s s1 stored Hinv E).
  - destruct Hinv as [Hlen Hl Hlt Hst Hdone Hpend].
    cbn [fs_sched fs_stored] in *.
    destruct (is_alive s t) eqn:Hal; [|discriminate].
    destruct (has_stored (mk_fine s stored) t) eqn:Hs; [discriminate|].
    simpl in Hstep.
    apply alive_In in Hal.
    assert (Hns : ~ In t stored).
    { intros H. apply (has_stored_In (mk_fine s stored)) in H. congruence. }
    assert (Ht : (t < length (st_results s))%nat)
      by (apply Hlt in Hal; lia).
    destruct (work s t) as [r|e] eqn:Hw; [|discriminate].
    injection Hstep as <-.
    destruct (work_stores s t r Ht Hw) as (Hrlen & Hrt & Hro).
    constructor; cbn [fs_sched fs_stored];
      unfold LimitSetter.launched in *;
      cbn [st_pc st_threads st_alive st_results].
    + lia.
    + exact Hl.
    + exact Hlt.
    + intros u [<-|Hu]; [exact (Hlt _ Hal)|exact (Hst u Hu)].
    + intros j Hj. destruct (Nat.eq_dec j t) as [->|Hjt]; [exact Hrt|].
      rewrite Hro by exact Hjt. apply Hdone.
      destruct Hj as [[Hj|Hj]|Hj]; [congruence|left; exact Hj|right; exact Hj].
    + intros j Hj Hw'.
      assert (Hjt : j <> t) by (intros ->; apply Hj; left; reflexivity).
      rewrite Hro by exact Hjt. apply Hpend; [|exact Hw'].
      intros H. apply Hj. right. exact H.
  - destruct Hinv as [Hlen Hl Hlt Hst Hdone Hpend].
    cbn [fs_sched fs_stored] in *.
    destruct (is_alive s t) eqn:Hal; [|discriminate].
    apply alive_In in Hal.
    assert (Ht : (t < length (st_results s))%nat)
      by (apply Hlt in Hal; lia).
    assert (Hm : (t < length mass_range)%nat) by lia.
    assert (Hslot : nth t (st_results s) (Num 0) = slot t).
    { destruct (has_stored (mk_fine s stored) t) eqn:Hs.
      - apply Hdone. left.
        apply (has_stored_In (mk_fine s stored)). exact Hs.
      - simpl in Hstep. destruct (work s t) as [r|e] eqn:Hw; [discriminate|].
        rewrite (work_raises s t e Ht Hm Hw). apply Hpend.
        + intros H. apply (has_stored_In (mk_fine s stored)) in H.
          congruence.
        + right. exact Hal. }
    destruct (has_stored (mk_fine s stored) t
              || match work s t with Ok _ => false | Raise _ => true end);
      [|discriminate].
    simpl in Hstep. injection Hstep as <-.
    constructor; cbn [fs_sched fs_stored];
      unfold LimitSetter.launched in *;
      cbn [st_pc st_threads st_alive st_results].
    + exact Hlen.
    + exact Hl.
    + intros u Hu. apply filter_In in Hu. apply Hlt, Hu.
    + exact Hst.
    + intros j [Hj|[Hj Hn]]; [apply Hdone; left; exact Hj|].
      destruct (Nat.eq_dec j t) as [->|Hjt]; [exact Hslot|].
      apply Hdone. right. split; [exact Hj|].
      intros Hin. apply Hn. apply filter_In. split; [exact Hin|].
      apply negb_true_iff, Nat.eqb_neq. congruence.
    + intros j Hj [Hw'|Hw']; apply Hpend; auto.
      right. apply filter_In in Hw'. apply Hw'.
Qed.

Lemma fine_invariant_run evs : forall fs fs',
  fine_invariant fs -> fine_run evs fs = Some fs' -> fine_invariant fs'.
Proof.
  induction evs as [|ev evs IH]; intros fs fs' Hinv Hrun; simpl in Hrun.
  - injection Hrun as <-. exact Hinv.
  - destruct (fine_step ev fs) as [fs1|] eqn:E; [|discriminate].
    exact (IH fs1 fs' (fine_invariant_step ev fs fs1 Hinv E) Hrun).
Qed.

(** The end of a worker in [step_finish] is its store followed by its
    exit, or its exit alone when it raises. *)
Lemma finish_is_store_then_exit t (s s' : state) stored :
  step_finish rel integrate_rate mass_range log_sigma_range n_sigma_bins
    t s = Some s' ->
  ~ In t stored ->
  fine_run [Store t; Exit t] (mk_fine s stored)
    = Some (mk_fine s' (t :: stored)) \/
  fine_run [Exit t] (mk_fine s stored) = Some (mk_fine s' stored).
Proof.
  intros Hstep Hns. unfold step_finish in Hstep.
  destruct (is_alive s t) eqn:Hal; [|discriminate].
  injection Hstep as <-.
  assert (Hs : has_stored (mk_fine s stored) t = false).
  { destruct (has_stored (mk_fine s stored) t) eqn:E; [|reflexivity].
    apply has_stored_In in E. contradiction. }
  assert (Hs' : forall r,
            has_stored (mk_fine r (t :: stored)) t = true).
  { intros r. apply has_stored_In. left. reflexivity. }
  unfold LimitSetter.fine_run, LimitSetter.fine_step.
  cbn [fs_sched fs_stored].
  rewrite Hal, Hs. cbn [negb andb orb].
  unfold LimitSetter.work.
  destruct (nth_error mass_range t) as [mw|].
  - destruct (_get_limit rel integrate_rate (st_results s)
                (sigmas log_sigma_range n_sigma_bins) t mw) as [r|e].
    + left. cbn [fs_sched fs_stored st_alive st_results st_pc st_threads].
      unfold is_alive in *. cbn [st_alive]. rewrite Hal.
      rewrite (Hs' (mk_state (st_pc s) (st_threads s) (st_alive s) r)).
      reflexivity.
    + right. reflexivity.
  - right. reflexivity.
Qed.

End FineGrain.

(** X8.  With the store of a worker and the end of its thread as separate
    events: the shared list [results] keeps the length of the mass grid; a
    slot holds the initial 0 as long as its task has not stored (the task
    not yet launched, or alive); and once its task has stored, also while
    that task is still alive, or has ended, it holds what the task of that
    slot leaves: a slot is written by its own task only. *)
Theorem slots_hold_zero_or_their_limit rel integrate_rate mass_range range
  bins n_threads evs fs :
  LimitSetter.fine_run rel integrate_rate mass_range range bins n_threads
    evs (LimitSetter.fine_init mass_range) = Some fs ->
  length (LimitSetter.st_results (LimitSetter.fs_sched fs))
    = length mass_range /\
  forall j,
    (In j (LimitSetter.fs_stored fs) \/
     ((j < LimitSetter.launched mass_range (LimitSetter.fs_sched fs))%nat /\
      ~ In j (LimitSetter.st_alive (LimitSetter.fs_sched fs))) ->
     nth j (LimitSetter.st_results (LimitSetter.fs_sched fs)) (Num 0)
       = LimitSetter.slot rel integrate_rate mass_range range bins j) /\
    (~ In j (LimitSetter.fs_stored fs) ->
     (LimitSetter.launched mass_range (LimitSetter.fs_sched fs) <= j)%nat \/
     In j (LimitSetter.st_alive (LimitSetter.fs_sched fs)) ->
     nth j (LimitSetter.st_results (LimitSetter.fs_sched fs)) (Num 0)
       = Num 0).
Proof.
  intros Hrun.
  destruct (fine_invariant_run rel integrate_rate mass_range range bins
              n_threads evs _ fs
              (fine_invariant_init rel integrate_rate mass_range range bins)
              Hrun)
    as [Hlen _ _ _ Hdone Hpend].
  split; [exact Hlen|]. intros j. split; [apply Hdone|apply Hpend].
Qed.

(** Two tasks launched, the first has stored [nan] and is still alive. *)
Lemma stored_while_alive :
  LimitSetter.fine_run scipy.MinOneEntry Scenario.saturated_integrate_rate
    Samples.two_masses Scenario.log_sigma_range Scenario.n_sigma_bins 1
    [LimitSetter.Dispatch; LimitSetter.Dispatch; LimitSetter.Store 0]
    (LimitSetter.fine_init Samples.two_masses)
  = Some (LimitSetter.mk_fine
            (LimitSetter.mk_state (LimitSetter.Launching 2) [0; 1]%nat
               [1; 0]%nat [NaN; Num 0])
            [0%nat]).
Proof.
  cbn [LimitSetter.fine_run].
  change (LimitSetter.fine_step scipy.MinOneEntry
            Scenario.saturated_integrate_rate Samples.two_masses
            Scenario.log_sigma_range Scenario.n_sigma_bins 1
            LimitSetter.Dispatch (LimitSetter.fine_init Samples.two_masses))
    with (Some (LimitSetter.mk_fine
                  (LimitSetter.mk_state (LimitSetter.Launching 1) [0%nat]
                     [0%nat] [Num 0; Num 0]) [])).
  cbv iota.
  change (LimitSetter.fine_step scipy.MinOneEntry
            Scenario.saturated_integrate_rate Samples.two_masses
            Scenario.log_sigma_range Scenario.n_sigma_bins 1
            LimitSetter.Dispatch
            (LimitSetter.mk_fine
               (LimitSetter.mk_state (LimitSetter.Launching 1) [0%nat]
                  [0%nat] [Num 0; Num 0]) []))
    with (Some (LimitSetter.mk_fine
                  (LimitSetter.mk_state (LimitSetter.Launching 2)
                     [0; 1]%nat [1; 0]%nat [Num 0; Num 0]) [])).
  cbv iota.
  unfold LimitSetter.fine_step.
  cbn [LimitSetter.fs_sched LimitSetter.fs_stored LimitSetter.is_alive
       LimitSetter.has_stored LimitSetter.st_alive existsb Nat.eqb orb negb
       andb].
  unfold LimitSetter.work, Samples.two_masses. cbn [nth_error].
  unfold LimitSetter._get_limit.
  cbn [LimitSetter.st_results LimitSetter.st_pc LimitSetter.st_threads
       LimitSetter.st_alive].
  rewrite (saturated_limit scipy.MinOneEntry). reflexivity.
Qed.

Lemma slots_hold_zero_or_their_limit_witness :
  length [NaN; Num 0] = length Samples.two_masses /\
  forall j,
    (In j [0%nat] \/
     ((j < 2)%nat /\ ~ In j [1; 0]%nat) ->
     nth j [NaN; Num 0] (Num 0)
       = LimitSetter.slot scipy.MinOneEntry
           Scenario.saturated_integrate_rate Samples.two_masses
           Scenario.log_sigma_range Scenario.n_sigma_bins j) /\
    (~ In j [0%nat] ->
     (2 <= j)%nat \/ In j [1; 0]%nat ->
     nth j [NaN; Num 0] (Num 0) = Num 0).
Proof.
  apply (slots_hold_zero_or_their_limit scipy.MinOneEntry
           Scenario.saturated_integrate_rate Samples.two_masses
           Scenario.log_sigma_range Scenario.n_sigma_bins 1
           [LimitSetter.Dispatch; LimitSetter.Dispatch; LimitSetter.Store 0]
           (LimitSetter.mk_fine
              (LimitSetter.mk_state (LimitSetter.Launching 2) [0; 1]%nat
                 [1; 0]%nat [NaN; Num 0])
              [0%nat])).
  apply stored_while_alive.
Defined.

(** ** The detector model, further *)

Lemma insert_pt_perm p l : Permutation (np.insert_pt p l) (p :: l).
Proof.
  induction l as [|q l IH]; simpl; [apply Permutation_refl|].
  destruct (Rle_dec (fst p) (fst q)); [apply Permutation_refl|].
  apply Permutation_trans with (q :: p :: l);
    [apply perm_skip; exact IH|apply perm_swap].
Qed.

Lemma sort_pts_perm l : Permutation (np.sort_pts l) l.
Proof.
  induction l as [|p l IH]; simpl; [apply perm_nil|].
  apply Permutation_trans with (p :: np.sort_pts l);
    [apply insert_pt_perm|apply perm_skip; exact IH].
Qed.

Lemma map_fst_combine (x y : list R) :
  length x = length y -> map fst (combine x y) = x.
Proof.
  revert y. induction x as [|a x IH]; intros [|b y] Hlen; try discriminate;
    [reflexivity|].
  simpl. rewrite IH by (injection Hlen; auto). reflexivity.
Qed.

(** On points sorted by abscissa, with abscissae that differ from one
    another, the interpolant at an abscissa is the ordinate tabulated for
    it: no arithmetic is involved. *)
Lemma interp_at_point : forall pts,
  StronglySorted np.le_x pts -> NoDup (map fst pts) ->
  forall x y, In (x, y) pts -> np.interp pts x = y.
Proof.
  induction pts as [|[x0 y0] rest IH]; intros Hs Hnd x y Hin;
    [destruct Hin|].
  destruct rest as [|[x1 y1] rest'].
  - destruct Hin as [E|[]]. injection E as _ <-. reflexivity.
  - change (np.interp ((x0, y0) :: (x1, y1) :: rest') x) with
      (if Rlt_dec x x1 then
         if Req_dec_T x0 x then y0
         else (y1 - y0) / (x1 - x0) * (x - x0) + y0
       else np.interp ((x1, y1) :: rest') x).
    inversion Hs as [|? ? Hs' Hle]; subst.
    inversion Hnd as [|? ? Hnotin Hnd']; subst.
    destruct (Rlt_dec x x1) as [Hlt|Hge].
    + destruct Hin as [E|Hin].
      * injection E as -> <-.
        destruct (Req_dec_T x x); [reflexivity|contradiction].
      * exfalso.
        pose proof (sorted_head_min (x1, y1) rest' Hs' (x, y) Hin) as H1.
        simpl in H1. lra.
    + destruct Hin as [E|Hin]; [|exact (IH Hs' Hnd' x y Hin)].
      exfalso. injection E as -> _.
      rewrite Forall_forall in Hle.
      assert (H1 : np.le_x (x, y0) (x1, y1))
        by (apply Hle; left; reflexivity).
      unfold np.le_x in H1. simpl in H1.
      apply Hnotin. left. simpl. lra.
Qed.

(** An interpolator called at one of its abscissae, which differ from one
    another, returns the ordinate given for it. *)
Lemma call_at_point xs ys fill x y :
  length xs = length ys -> NoDup xs -> In (x, y) (combine xs ys) ->
  scipy.call (scipy.mk_interp1d (np.sort_pts (combine xs ys)) fill) x
    = Num y.
Proof.
  intros Hlen Hnd Hin.
  assert (Hs := sort_pts_sorted (combine xs ys)).
  assert (Hnd' : NoDup (map fst (np.sort_pts (combine xs ys)))).
  { apply (Permutation_NoDup (l := xs)); [|exact Hnd].
    rewrite <- (map_fst_combine xs ys Hlen) at 1.
    apply Permutation_map, Permutation_sym, sort_pts_perm. }
  assert (Hin' : In (x, y) (np.sort_pts (combine xs ys)))
    by (apply sort_pts_In; exact Hin).
  unfold scipy.call. cbn [scipy.itp_pts scipy.itp_fill].
  destruct (np.sort_pts (combine xs ys)) as [|p rest] eqn:E;
    [destruct Hin'|].
  pose proof (sorted_head_min p rest Hs (x, y) Hin') as Hmin.
  pose proof (sorted_last_max _ Hs p (x, y) Hin') as Hmax.
  rewrite last_cons in Hmax. simpl in Hmin, Hmax.
  destruct (Rlt_dec x (fst p)); [lra|].
  destruct (Rlt_dec (fst (last rest p)) x); [lra|].
  f_equal. apply interp_at_point; assumption.
Qed.

(** X9.  The detector model reproduces its table.  On a dataset whose
    first two columns have the same length, of at least two rows, with
    tabulated energies that differ from one another: at a tabulated energy
    an efficiency query on a fresh instance returns the efficiency
    tabulated for it, as it is in the table, whatever the order of the
    rows. *)
Theorem efficiency_reproduces_table rel w xs ys more x y :
  fst (LZ.get_eff w) = Ok (xs :: ys :: more) ->
  length xs = length ys ->
  (2 <= length xs)%nat ->
  NoDup xs ->
  In (x, y) (combine xs ys) ->
  fst (fst (LZ.combined_efficiency rel (LZ.mk None) x w)) = Ok (Num y).
Proof.
  intros Htbl Hlen H2 Hnd Hin.
  rewrite (first_query rel w xs ys more x Htbl Hlen H2). simpl fst.
  rewrite (call_at_point xs ys (Num 0) x y Hlen Hnd Hin). reflexivity.
Qed.

Lemma efficiency_reproduces_table_witness :
  fst (fst (LZ.combined_efficiency scipy.MinOneEntry (LZ.mk None) 3
              Scenario.efficiency_world)) = Ok (Num 1).
Proof.
  apply (efficiency_reproduces_table scipy.MinOneEntry
           Scenario.efficiency_world [1; 3] [0; 1] [] 3 1).
  - reflexivity.
  - reflexivity.
  - simpl. lia.
  - constructor; [intros [H|[]]; lra|].
    constructor; [intros []|constructor].
  - right. left. reflexivity.
Defined.

(** X10.  The table is read once per process.  After the first query of a
    fresh instance has read the dataset, a second fresh instance builds
    the same interpolator from the cached table without reading the file:
    whatever has become of the file in the meantime, the query is
    answered and the count of reads stays one above where it started. *)
Theorem table_read_once_across_instances rel w xs ys more e1 e2 dataset' :
  LZ.get_eff_cache w = None ->
  LZ.dataset w = Ok (xs :: ys :: more) ->
  length xs = length ys ->
  (2 <= length xs)%nat ->
  LZ.n_reads (snd (LZ.combined_efficiency rel (LZ.mk None) e1 w))
    = S (LZ.n_reads w) /\
  LZ.combined_efficiency rel (LZ.mk None) e2
    (LZ.mk_world dataset'
       (LZ.get_eff_cache (snd (LZ.combined_efficiency rel (LZ.mk None) e1 w)))
       (LZ.n_reads (snd (LZ.combined_efficiency rel (LZ.mk None) e1 w))))
  = (Ok (scipy.call
           (scipy.mk_interp1d (np.sort_pts (combine xs ys)) (Num 0)) e2),
     LZ.mk (Some (scipy.mk_interp1d (np.sort_pts (combine xs ys)) (Num 0))),
     LZ.mk_world dataset' (Some (xs :: ys :: more)) (S (LZ.n_reads w))).
Proof.
  intros Hc Hd Hlen H2.
  assert (Hget : LZ.get_eff w
                 = (Ok (xs :: ys :: more),
                    LZ.mk_world (LZ.dataset w) (Some (xs :: ys :: more))
                      (S (LZ.n_reads w))))
    by (unfold LZ.get_eff; rewrite Hc, Hd; reflexivity).
  rewrite (first_query rel w xs ys more e1) by (rewrite ?Hget; auto).
  rewrite Hget. cbn [snd LZ.get_eff_cache LZ.n_reads]. split; [reflexivity|].
  rewrite (first_query rel _ xs ys more e2) by auto.
  reflexivity.
Qed.

Lemma table_read_once_across_instances_witness :
  LZ.n_reads (snd (LZ.combined_efficiency scipy.MinOneEntry (LZ.mk None) 2
                     Scenario.efficiency_world))
    = S (LZ.n_reads Scenario.efficiency_world) /\
  LZ.combined_efficiency scipy.MinOneEntry (LZ.mk None) 5
    (LZ.mk_world (Raise FileNotFoundError)
       (LZ.get_eff_cache
          (snd (LZ.combined_efficiency scipy.MinOneEntry (LZ.mk None) 2
                  Scenario.efficiency_world)))
       (LZ.n_reads
          (snd (LZ.combined_efficiency scipy.MinOneEntry (LZ.mk None) 2
                  Scenario.efficiency_world))))
  = (Ok (scipy.call
           (scipy.mk_interp1d (np.sort_pts (combine [1; 3] [0; 1])) (Num 0))
           5),
     LZ.mk (Some (scipy.mk_interp1d (np.sort_pts (combine [1; 3] [0; 1]))
                    (Num 0))),
     LZ.mk_world (Raise FileNotFoundError) (Some ([1; 3] :: [0; 1] :: []))
       (S (LZ.n_reads Scenario.efficiency_world))).
Proof.
  apply (table_read_once_across_instances scipy.MinOneEntry
           Scenario.efficiency_world [1; 3] [0; 1] [] 2 5
           (Raise FileNotFoundError)).
  - reflexivity.
  - reflexivity.
  - reflexivity.
  - simpl. lia.
Defined.

(** X11.  A failed read is not cached.  While the dataset cannot be read,
    every query of a run raises the exception of the read again, each
    after one more attempt to read the file, and the instance stays
    without an interpolator. *)
Theorem failed_load_is_retried rel err es : forall w,
  LZ.get_eff_cache w = None ->
  LZ.dataset w = Raise err ->
  LZ.queries rel (LZ.mk None) es w =
    (map (fun _ => Raise err) es, LZ.mk None,
     LZ.mk_world (LZ.dataset w) None (length es + LZ.n_reads w)).
Proof.
  induction es as [|e es IH]; intros w Hc Hd.
  - simpl. destruct w as [d c n]. simpl in *. subst. reflexivity.
  - cbn [LZ.queries].
    assert (E : LZ.combined_efficiency rel (LZ.mk None) e w
                = (Raise err, LZ.mk None,
                   LZ.mk_world (LZ.dataset w) None (S (LZ.n_reads w)))).
    { unfold LZ.combined_efficiency, LZ._itp_eff, LZ.get_eff.
      cbn [LZ._itp]. rewrite Hc, Hd. reflexivity. }
    rewrite E, IH by (simpl; auto).
    cbn [LZ.dataset LZ.n_reads map length].
    rewrite Nat.add_succ_r. reflexivity.
Qed.

Lemma failed_load_is_retried_witness :
  LZ.queries scipy.MinOneEntry (LZ.mk None) [1; 2; 3] Scenario.missing_world
  = (map (fun _ => Raise FileNotFoundError) [1; 2; 3], LZ.mk None,
     LZ.mk_world (LZ.dataset Scenario.missing_world) None
       (length [1; 2; 3] + LZ.n_reads Scenario.missing_world)).
Proof.
  apply (failed_load_is_retried scipy.MinOneEntry FileNotFoundError
           [1; 2; 3] Scenario.missing_world).
  - reflexivity.
  - reflexivity.
Defined.

(** * Properties of the helpers of [main.py] *)

(** ** Strings *)

Lemma append_assoc (s1 s2 s3 : string) :
  ((s1 ++ s2) ++ s3 = s1 ++ (s2 ++ s3))%string.
Proof.
  induction s1 as [|c s1 IH]; simpl; [reflexivity|].
  rewrite IH. reflexivity.
Qed.

Lemma append_nil_r (s : string) : (s ++ "" = s)%string.
Proof.
  induction s as [|c s IH]; simpl; [reflexivity|].
  rewrite IH. reflexivity.
Qed.

Lemma append_length (s1 s2 : string) :
  String.length (s1 ++ s2) = (String.length s1 + String.length s2)%nat.
Proof.
  induction s1 as [|c s1 IH]; simpl; [reflexivity|].
  rewrite IH. reflexivity.
Qed.

Lemma append_cancel_r (t : string) : forall s1 s2 : string,
  (s1 ++ t = s2 ++ t)%string -> s1 = s2.
Proof.
  induction s1 as [|c s1 IH]; intros s2 H.
  - destruct s2 as [|d s2]; [reflexivity|exfalso].
    apply (f_equal String.length) in H.
    simpl in H. rewrite append_length in H. lia.
  - destruct s2 as [|d s2].
    + exfalso. apply (f_equal String.length) in H.
      simpl in H. rewrite append_length in H. lia.
    + simpl in H. injection H as -> H. rewrite (IH s2 H). reflexivity.
Qed.

Lemma prefix_empty (s : string) : String.prefix "" s = true.
Proof. destruct s; reflexivity. Qed.

(** Replacing the spaces goes character by character. *)
Lemma escape_step c (s : string) :
  str.replace_from 0 " " "\ " (String c s) =
  if Ascii.eqb c " "
  then String "\" (String " " (str.replace_from 0 " " "\ " s))
  else String c (str.replace_from 0 " " "\ " s).
Proof.
  cbn [str.replace_from]. unfold String.prefix. fold String.prefix.
  destruct (ascii_dec " " c) as [<-|Hne].
  - rewrite prefix_empty. reflexivity.
  - destruct (Ascii.eqb_spec c " ") as [->|_]; [contradiction|reflexivity].
Qed.

Lemma escape_no_leading_space (s t : string) :
  str.replace_from 0 " " "\ " s <> String " " t.
Proof.
  destruct s as [|c s]; [discriminate|].
  rewrite escape_step.
  destruct (Ascii.eqb_spec c " ") as [->|Hne]; [discriminate|].
  intros H. injection H as H _. contradiction.
Qed.

Lemma escape_injective : forall s1 s2 : string,
  str.replace_from 0 " " "\ " s1 = str.replace_from 0 " " "\ " s2 ->
  s1 = s2.
Proof.
  induction s1 as [|c1 s1 IH]; intros [|c2 s2] H.
  - reflexivity.
  - rewrite escape_step in H. simpl in H.
    destruct (Ascii.eqb c2 " "); discriminate.
  - rewrite escape_step in H. simpl in H.
    destruct (Ascii.eqb c1 " "); discriminate.
  - rewrite !escape_step in H.
    destruct (Ascii.eqb_spec c1 " ") as [->|H1];
      destruct (Ascii.eqb_spec c2 " ") as [->|H2].
    + injection H as H. rewrite (IH s2 H). reflexivity.
    + injection H as _ H. symmetry in H.
      exfalso. exact (escape_no_leading_space _ _ H).
    + injection H as _ H.
      exfalso. exact (escape_no_leading_space _ _ H).
    + injection H as -> H. rewrite (IH s2 H). reflexivity.
Qed.

Lemma escape_no_bare_space : forall (s : string) b,
  main.bare_space_after b (str.replace_from 0 " " "\ " s ++ "}$") = false.
Proof.
  induction s as [|c s IH]; intros b; [reflexivity|].
  rewrite escape_step.
  destruct (Ascii.eqb_spec c " ") as [->|Hne].
  - simpl. apply IH.
  - simpl. destruct (Ascii.eqb_spec c " ") as [->|_]; [contradiction|].
    apply IH.
Qed.

(** X13.  In the label [string_to_mathrm] returns, every space follows a
    backslash, whatever the string is; and the label is at least eleven
    characters longer than the string. *)
Theorem mathrm_escapes_every_space (s : string) :
  main.has_bare_space (main.string_to_mathrm s) = false /\
  (String.length s + 11 <= String.length (main.string_to_mathrm s))%nat.
Proof.
  split.
  - unfold main.has_bare_space, main.string_to_mathrm, str.replace.
    simpl. apply escape_no_bare_space.
  - unfold main.string_to_mathrm, str.replace.
    rewrite !append_length. simpl String.length.
    assert (H : forall t : string,
              (String.length t
               <= String.length (str.replace_from 0 " " "\ " t))%nat).
    { induction t as [|c t IH]; [simpl; lia|].
      rewrite escape_step. destruct (Ascii.eqb c " "); simpl; lia. }
    specialize (H s). lia.
Qed.

(** X14.  [string_to_mathrm] is injective: two strings with one label are
    one string. *)
Theorem mathrm_injective (s1 s2 : string) :
  main.string_to_mathrm s1 = main.string_to_mathrm s2 -> s1 = s2.
Proof.
  unfold main.string_to_mathrm, str.replace. intros H.
  simpl in H. injection H as H.
  apply append_cancel_r in H. apply escape_injective. exact H.
Qed.

Lemma mathrm_injective_witness : "a b"%string = "a b"%string.
Proof.
  apply (mathrm_injective "a b" "a b"). reflexivity.
Defined.

(** ** [settings_name] *)

Lemma drop_last_snoc (s : string) : str.drop_last (s ++ "_") = s.
Proof.
  induction s as [|c s IH]; [reflexivity|].
  simpl. rewrite IH. destruct s; reflexivity.
Qed.

Lemma concat_empty_cons (x : string) (l : list string) :
  String.concat "" (x :: l) = (x ++ String.concat "" l)%string.
Proof.
  destruct l as [|y l]; simpl; [rewrite append_nil_r|]; reflexivity.
Qed.

Lemma concat_cons2 (sep x y : string) (l : list string) :
  String.concat sep (x :: y :: l)
  = (x ++ sep ++ String.concat sep (y :: l))%string.
Proof. reflexivity. Qed.

Lemma settings_join (item : string * string)
  (rest : list (string * string)) :
  (String.concat ""
     (map (fun it : string * string =>
             fst it ++ "_" ++ snd it ++ "_") (item :: rest))
   = String.concat "_"
       (flat_map (fun it : string * string => [fst it; snd it])
          (item :: rest)) ++ "_")%string.
Proof.
  revert item. induction rest as [|item' rest IH]; intros [n v].
  - simpl. rewrite append_assoc. reflexivity.
  - rewrite map_cons, concat_empty_cons, IH.
    destruct item' as [n' v'].
    change (flat_map (fun it : string * string => [fst it; snd it])
              ((n, v) :: (n', v') :: rest))
      with (n :: v :: flat_map (fun it : string * string => [fst it; snd it])
                        ((n', v') :: rest)).
    change (flat_map (fun it : string * string => [fst it; snd it])
              ((n', v') :: rest))
      with (n' :: v' :: flat_map
                          (fun it : string * string => [fst it; snd it])
                          rest).
    rewrite !(concat_cons2 "_").
    cbn [fst snd]. rewrite !append_assoc. cbn [String.append].
    reflexivity.
Qed.

(** X15.  [settings_name] is the names and values of the settings, in
    the order of the [dict], joined by underscores: the underscore after
    the last value is dropped, and no other character is.  For the three
    settings of the halo model it is
    [v_0_<v_0>_v_esc_<v_esc>_rho_dm_<rho_dm>]; for no setting at all it is
    empty. *)
Theorem settings_name_joins_with_underscores :
  (forall item rest,
     StandardHaloModelReadable.settings_name (item :: rest)
     = str.join "_"
         (flat_map (fun it : string * string => [fst it; snd it])
            (item :: rest))) /\
  (forall v_0 v_esc rho_dm,
     StandardHaloModelReadable.settings_name
       (StandardHaloModelReadable.settings v_0 v_esc rho_dm)
     = ("v_0_" ++ v_0 ++ "_v_esc_" ++ v_esc ++ "_rho_dm_" ++ rho_dm)%string)
  /\
  StandardHaloModelReadable.settings_name [] = ""%string.
Proof.
  assert (H : forall item rest,
     StandardHaloModelReadable.settings_name (item :: rest)
     = str.join "_"
         (flat_map (fun it : string * string => [fst it; snd it])
            (item :: rest))).
  { intros item rest.
    unfold StandardHaloModelReadable.settings_name, str.join.
    rewrite settings_join. apply drop_last_snoc. }
  split; [exact H|]. split; [|reflexivity].
  intros v_0 v_esc rho_dm.
  unfold StandardHaloModelReadable.settings. rewrite H.
  unfold str.join. simpl. rewrite ?append_assoc. reflexivity.
Qed.

(** ** [hashablize] *)


Lemma string_compare_trans : forall s1 s2 s3 : string,
  String.compare s1 s2 <> Gt -> String.compare s2 s3 <> Gt ->
  String.compare s1 s3 <> Gt.
Proof.
  induction s1 as [|a s1 IH]; intros [|b s2] [|c s3] H12 H23;
    simpl in *; try congruence.
  unfold Ascii.compare in *.
  destruct (N.compare_spec (N_of_ascii a) (N_of_ascii b)) as [E1|L1|G1];
    destruct (N.compare_spec (N_of_ascii b) (N_of_ascii c)) as [E2|L2|G2];
    try congruence.
  - rewrite E1, E2, N.compare_refl. exact (IH s2 s3 H12 H23).
  - rewrite E1. rewrite (proj2 (N.compare_lt_iff _ _) L2). discriminate.
  - rewrite <- E2. rewrite (proj2 (N.compare_lt_iff _ _) L1). discriminate.
  - rewrite (proj2 (N.compare_lt_iff _ _) (N.lt_trans _ _ _ L1 L2)).
    discriminate.
Qed.

Lemma string_leb_trans (s1 s2 s3 : string) :
  String.leb s1 s2 = true -> String.leb s2 s3 = true ->
  String.leb s1 s3 = true.
Proof.
  unfold String.leb. intros H12 H23.
  assert (String.compare s1 s3 <> Gt).
  { apply (string_compare_trans s1 s2 s3).
    - destruct (String.compare s1 s2); congruence.
    - destruct (String.compare s2 s3); congruence. }
  destruct (String.compare s1 s3); congruence.
Qed.

Lemma key_leb_total k1 k2 :
  main.key_leb k1 k2 = true \/ main.key_leb k2 k1 = true.
Proof.
  destruct k1 as [s1|z1], k2 as [s2|z2]; simpl; auto.
  - apply String.leb_total.
  - destruct (Z.leb_spec z1 z2); [left; reflexivity|right].
    apply Z.leb_le. lia.
Qed.

Lemma key_leb_antisym k1 k2 :
  main.key_leb k1 k2 = true -> main.key_leb k2 k1 = true -> k1 = k2.
Proof.
  destruct k1 as [s1|z1], k2 as [s2|z2]; simpl; try discriminate.
  - intros H1 H2. f_equal. apply String.leb_antisym; assumption.
  - intros H1 H2. apply Z.leb_le in H1, H2. f_equal. lia.
Qed.

Lemma key_leb_trans k1 k2 k3 :
  main.key_leb k1 k2 = true -> main.key_leb k2 k3 = true ->
  main.key_leb k1 k3 = true.
Proof.
  destruct k1 as [s1|z1], k2 as [s2|z2], k3 as [s3|z3]; simpl;
    try discriminate; auto.
  - apply string_leb_trans.
  - intros H1 H2. apply Z.leb_le in H1, H2. apply Z.leb_le. lia.
Qed.

Section SortByKey.

Variable A : Type.
Implicit Types (p q : main.key * A) (l : list (main.key * A)).

Lemma insert_item_In p q l :
  In q (main.insert_item p l) <-> q = p \/ In q l.
Proof.
  induction l as [|a l IH]; simpl.
  - intuition.
  - destruct (main.key_leb (fst p) (fst a)); simpl; rewrite ?IH; intuition.
Qed.

Lemma sort_by_key_In q l : In q (main.sort_by_key l) <-> In q l.
Proof.
  induction l as [|a l IH]; simpl; [tauto|].
  rewrite insert_item_In, IH. intuition.
Qed.

(** Inserting two items of different keys gives one list, in whichever
    order they are inserted. *)
Lemma insert_item_comm p q l :
  fst p <> fst q ->
  main.insert_item p (main.insert_item q l)
  = main.insert_item q (main.insert_item p l).
Proof.
  intros Hne. induction l as [|a l IH].
  - simpl.
    destruct (main.key_leb (fst p) (fst q)) eqn:Epq;
      destruct (main.key_leb (fst q) (fst p)) eqn:Eqp; try reflexivity.
    + exfalso. apply Hne. apply key_leb_antisym; assumption.
    + destruct (key_leb_total (fst p) (fst q)); congruence.
  - simpl.
    destruct (main.key_leb (fst p) (fst a)) eqn:Epa;
      destruct (main.key_leb (fst q) (fst a)) eqn:Eqa; simpl;
      rewrite ?Epa, ?Eqa.
    + destruct (main.key_leb (fst p) (fst q)) eqn:Epq;
        destruct (main.key_leb (fst q) (fst p)) eqn:Eqp;
        simpl; rewrite ?Epa, ?Eqa; try reflexivity.
      * exfalso. apply Hne. apply key_leb_antisym; assumption.
      * destruct (key_leb_total (fst p) (fst q)); congruence.
    + destruct (main.key_leb (fst q) (fst p)) eqn:Eqp; [|reflexivity].
      rewrite (key_leb_trans _ _ _ Eqp Epa) in Eqa. discriminate.
    + destruct (main.key_leb (fst p) (fst q)) eqn:Epq; [|reflexivity].
      rewrite (key_leb_trans _ _ _ Epq Eqa) in Epa. discriminate.
    + rewrite IH. reflexivity.
Qed.

Lemma sort_by_key_perm l l' :
  Permutation l l' -> NoDup (map fst l) ->
  main.sort_by_key l = main.sort_by_key l'.
Proof.
  induction 1 as [|x l l' Hp IH|x y l|l l' l'' Hp1 IH1 Hp2 IH2]; intros Hnd.
  - reflexivity.
  - simpl in *. inversion Hnd; subst. rewrite IH by assumption. reflexivity.
  - simpl in *. apply insert_item_comm.
    inversion Hnd as [|? ? Hin _]; subst.
    intros E. apply Hin. left. symmetry. exact E.
  - rewrite IH1 by exact Hnd. apply IH2.
    apply (Permutation_NoDup (Permutation_map fst Hp1) Hnd).
Qed.

Lemma same_kind_trans k1 k2 k3 :
  main.same_kind k1 k2 = true -> main.same_kind k1 k3 = true ->
  main.same_kind k2 k3 = true.
Proof. destruct k1, k2, k3; simpl; congruence. Qed.

Lemma same_kind_refl k : main.same_kind k k = true.
Proof. destruct k; reflexivity. Qed.

(** [sorted] raises on the items exactly when two keys are of different
    kinds. *)
Lemma sorted_items_spec l :
  (forall p q, In p l -> In q l ->
               main.same_kind (fst p) (fst q) = true) ->
  main.sorted_items l = Ok (main.sort_by_key l).
Proof.
  intros H. destruct l as [|[k a] rest]; [reflexivity|].
  unfold main.sorted_items.
  replace (forallb (fun q => main.same_kind k (fst q)) rest) with true;
    [reflexivity|].
  symmetry. apply forallb_forall. intros q Hq.
  apply (H (k, a) q); [left; reflexivity|right; exact Hq].
Qed.

Lemma sorted_items_mixed l p q :
  In p l -> In q l -> main.same_kind (fst p) (fst q) = false ->
  main.sorted_items l = Raise TypeError.
Proof.
  intros Hp Hq Hk. destruct l as [|[k a] rest]; [destruct Hp|].
  unfold main.sorted_items.
  destruct (forallb (fun q => main.same_kind k (fst q)) rest) eqn:E;
    [exfalso|reflexivity].
  rewrite forallb_forall in E.
  assert (Hall : forall r, In r ((k, a) :: rest) ->
                           main.same_kind k (fst r) = true).
  { intros r [<-|Hr]; [apply same_kind_refl|exact (E r Hr)]. }
  rewrite (same_kind_trans k (fst p) (fst q) (Hall p Hp) (Hall q Hq)) in Hk.
  discriminate.
Qed.

Lemma sorted_items_perm l l' :
  Permutation l l' -> NoDup (map fst l) ->
  main.sorted_items l = main.sorted_items l'.
Proof.
  intros Hp Hnd.
  assert (Hdec : (forall p q, In p l -> In q l ->
                              main.same_kind (fst p) (fst q) = true) \/
                 (exists p q, In p l /\ In q l /\
                              main.same_kind (fst p) (fst q) = false)).
  { clear. induction l as [|a l IH].
    - left. intros p q [].
    - destruct IH as [Hall|(p & q & Hp & Hq & Hk)].
      + destruct (forallb (fun q => main.same_kind (fst a) (fst q)) l)
          eqn:E.
        * left. rewrite forallb_forall in E.
          assert (Ha : forall r, In r (a :: l) ->
                                 main.same_kind (fst a) (fst r) = true).
          { intros r [<-|Hr]; [apply same_kind_refl|exact (E r Hr)]. }
          intros p q Hp Hq.
          exact (same_kind_trans _ _ _ (Ha p Hp) (Ha q Hq)).
        * right. apply Bool.not_true_iff_false in E.
          rewrite forallb_forall in E.
          destruct l as [|b l']; [exfalso; apply E; intros x []|].
          assert (Hex : exists r, In r (b :: l') /\
                          main.same_kind (fst a) (fst r) = false).
          { clear -E. induction (b :: l') as [|c m IHm].
            - exfalso. apply E. intros x [].
            - destruct (main.same_kind (fst a) (fst c)) eqn:Ec.
              + destruct IHm as (r & Hr & Hk).
                * intros Hm. apply E. intros x [<-|Hx]; auto.
                * exists r. split; [right; exact Hr|exact Hk].
              + exists c. split; [left; reflexivity|exact Ec]. }
          destruct Hex as (r & Hr & Hk).
          exists a, r. split; [left; reflexivity|].
          split; [right; exact Hr|exact Hk].
      + right. exists p, q. split; [right; exact Hp|].
        split; [right; exact Hq|exact Hk]. }
  destruct Hdec as [Hall|(p & q & Hpl & Hql & Hk)].
  - rewrite (sorted_items_spec l Hall).
    rewrite (sorted_items_spec l').
    + f_equal. apply sort_by_key_perm; assumption.
    + intros p q Hp' Hq'. apply Hall.
      * apply (Permutation_in _ (Permutation_sym Hp) Hp').
      * apply (Permutation_in _ (Permutation_sym Hp) Hq').
  - rewrite (sorted_items_mixed l p q Hpl Hql Hk).
    symmetry. apply (sorted_items_mixed l' p q); auto.
    + apply (Permutation_in _ Hp Hpl).
    + apply (Permutation_in _ Hp Hql).
Qed.

End SortByKey.

Lemma obj_nested_ind (P : main.obj -> Prop)
  (HNone : P main.PNone)
  (HInt : forall z, P (main.PInt z))
  (HStr : forall s, P (main.PStr s))
  (HBytes : forall s, P (main.PBytes s))
  (HTuple : forall l, Forall P l -> P (main.PTuple l))
  (HList : forall l, Forall P l -> P (main.PList l))
  (HDict : forall items,
     Forall (fun kv => P (snd kv)) items -> P (main.PDict items))
  (HSeries : forall l, Forall P l -> P (main.PSeries l))
  (HArray : forall l, Forall P l -> P (main.PArray l))
  (HObject : forall b n, P (main.PObject b n)) :
  forall o, P o.
Proof.
  fix IH 1. intros [ | z | s | s | l | l | items | l | l | b n].
  - exact HNone.
  - apply HInt.
  - apply HStr.
  - apply HBytes.
  - apply HTuple. induction l as [|x l IHl]; constructor;
      [apply IH|exact IHl].
  - apply HList. induction l as [|x l IHl]; constructor;
      [apply IH|exact IHl].
  - apply HDict. induction items as [|[k v] items IHl]; constructor;
      [apply IH|exact IHl].
  - apply HSeries. induction l as [|x l IHl]; constructor;
      [apply IH|exact IHl].
  - apply HArray. induction l as [|x l IHl]; constructor;
      [apply IH|exact IHl].
  - apply HObject.
Qed.

Lemma hashablize_eq o :
  main.hashablize o =
  if main.hashable o then Ok o
  else
    match o with
    | main.PDict items =>
        sorted <- main.sorted_items
                    (map (fun kv : main.key * main.obj =>
                            let (k, v) := kv in (k, main.hashablize v))
                       items) ;;
        elems <- main.sequence
                   (map (fun kr : main.key * py_result main.obj =>
                           v <- snd kr ;;
                           Ok (main.PTuple [main.key_obj (fst kr); v]))
                      sorted) ;;
        Ok (main.PTuple elems)
    | main.PTuple l | main.PList l | main.PSeries l | main.PArray l =>
        elems <- main.sequence (map main.hashablize l) ;;
        Ok (main.PTuple elems)
    | _ => Raise TypeError
    end.
Proof. destruct o; reflexivity. Qed.

Lemma hashablize_hashable o :
  main.hashable o = true -> main.hashablize o = Ok o.
Proof. intros H. rewrite hashablize_eq, H. reflexivity. Qed.

Lemma sequence_hashable (l : list main.obj) : forall elems,
  Forall (fun x => forall h, main.hashablize x = Ok h ->
                             main.hashable h = true) l ->
  main.sequence (map main.hashablize l) = Ok elems ->
  forallb main.hashable elems = true.
Proof.
  induction l as [|x l IH]; intros elems Hall Hseq; simpl in Hseq.
  - injection Hseq as <-. reflexivity.
  - inversion Hall as [|? ? Hx Hl]; subst.
    destruct (main.hashablize x) as [h|e] eqn:Ex; [|discriminate].
    simpl in Hseq.
    destruct (main.sequence (map main.hashablize l)) as [rest|e] eqn:Er;
      [|discriminate].
    simpl in Hseq. injection Hseq as <-. simpl.
    rewrite (Hx h eq_refl), (IH rest Hl eq_refl). reflexivity.
Qed.

Lemma sequence_items_hashable
  (sorted : list (main.key * py_result main.obj)) : forall elems,
  Forall (fun kr => forall h, snd kr = Ok h -> main.hashable h = true)
    sorted ->
  main.sequence
    (map (fun kr : main.key * py_result main.obj =>
            v <- snd kr ;; Ok (main.PTuple [main.key_obj (fst kr); v]))
       sorted) = Ok elems ->
  forallb main.hashable elems = true.
Proof.
  induction sorted as [|[k r] l IH]; intros elems Hall Hseq; simpl in Hseq.
  - injection Hseq as <-. reflexivity.
  - inversion Hall as [|? ? Hx Hl]; subst. simpl in Hx.
    destruct r as [h|e]; [|discriminate]. simpl in Hseq.
    destruct (main.sequence _) as [rest|e] eqn:Er; [|discriminate].
    simpl in Hseq. injection Hseq as <-. simpl.
    rewrite (Hx h eq_refl), (IH rest Hl eq_refl).
    destruct k; reflexivity.
Qed.

Lemma hashablize_gives_hashable : forall o h,
  main.hashablize o = Ok h -> main.hashable h = true.
Proof.
  apply (obj_nested_ind
           (fun o => forall h, main.hashablize o = Ok h ->
                               main.hashable h = true)).
  - intros h H. injection H as <-. reflexivity.
  - intros z h H. injection H as <-. reflexivity.
  - intros s h H. injection H as <-. reflexivity.
  - intros s h H. injection H as <-. reflexivity.
  - intros l Hall h H. rewrite hashablize_eq in H.
    destruct (main.hashable (main.PTuple l)) eqn:E.
    + injection H as <-. exact E.
    + destruct (main.sequence (map main.hashablize l)) as [elems|e] eqn:Es;
        [|discriminate].
      simpl in H. injection H as <-. simpl.
      exact (sequence_hashable l elems Hall Es).
  - intros l Hall h H. rewrite hashablize_eq in H. simpl in H.
    destruct (main.sequence (map main.hashablize l)) as [elems|e] eqn:Es;
      [|discriminate].
    simpl in H. injection H as <-. simpl.
    exact (sequence_hashable l elems Hall Es).
  - intros items Hall h H. rewrite hashablize_eq in H. simpl in H.
    destruct (main.sorted_items _) as [sorted|e] eqn:Es; [|discriminate].
    simpl in H.
    destruct (main.sequence _) as [elems|e] eqn:Eq; [|discriminate].
    simpl in H. injection H as <-. simpl.
    apply (sequence_items_hashable sorted elems); [|exact Eq].
    (* every sorted item is one of the items *)
    assert (Hin : forall kr, In kr sorted ->
              In kr (map (fun kv : main.key * main.obj =>
                            let (k, v) := kv in (k, main.hashablize v))
                       items)).
    { intros kr Hkr.
      destruct (map _ items) as [|[k0 r0] rest] eqn:Em.
      - simpl in Es. injection Es as <-. destruct Hkr.
      - unfold main.sorted_items in Es.
        destruct (forallb _ rest); [|discriminate].
        injection Es as <-.
        change (In kr (main.sort_by_key ((k0, r0) :: rest))) in Hkr.
        apply (proj1 (sort_by_key_In _ _ _)) in Hkr. exact Hkr. }
    apply Forall_forall. intros kr Hkr h Hh.
    apply Hin in Hkr. apply in_map_iff in Hkr.
    destruct Hkr as ([k v] & <- & Hkv). simpl in Hh.
    rewrite Forall_forall in Hall.
    exact (Hall (k, v) Hkv h Hh).
  - intros l Hall h H. rewrite hashablize_eq in H. simpl in H.
    destruct (main.sequence (map main.hashablize l)) as [elems|e] eqn:Es;
      [|discriminate].
    simpl in H. injection H as <-. simpl.
    exact (sequence_hashable l elems Hall Es).
  - intros l Hall h H. rewrite hashablize_eq in H. simpl in H.
    destruct (main.sequence (map main.hashablize l)) as [elems|e] eqn:Es;
      [|discriminate].
    simpl in H. injection H as <-. simpl.
    exact (sequence_hashable l elems Hall Es).
  - intros b n h H. rewrite hashablize_eq in H. simpl in H.
    destruct b; [|discriminate]. injection H as <-. reflexivity.
Qed.

Lemma sequence_of_hashable (l : list main.obj) :
  forallb main.hashable l = true ->
  main.sequence (map main.hashablize l) = Ok l.
Proof.
  induction l as [|x l IH]; intros H; [reflexivity|].
  simpl in H. apply andb_true_iff in H. destruct H as [Hx Hl].
  simpl. rewrite (hashablize_hashable x Hx). simpl.
  rewrite (IH Hl). reflexivity.
Qed.

Lemma hashablize_dict_perm items items' :
  Permutation items items' -> NoDup (map fst items) ->
  main.hashablize (main.PDict items) = main.hashablize (main.PDict items').
Proof.
  intros Hp Hnd. rewrite !hashablize_eq. simpl.
  rewrite (sorted_items_perm _ _ _
             (Permutation_map
                (fun kv : main.key * main.obj =>
                   let (k, v) := kv in (k, main.hashablize v)) Hp)).
  - reflexivity.
  - rewrite map_map.
    replace (map (fun x : main.key * main.obj =>
                    fst (let (k, v) := x in (k, main.hashablize v))) items)
      with (map fst items); [exact Hnd|].
    apply map_ext. intros [k v]. reflexivity.
Qed.

(** X16.  What [hashablize] returns can be hashed, and [hashablize]
    returns it unchanged when it is given it again; in particular an
    object that can be hashed is returned as it is. *)
Theorem hashablize_result_is_hashable o h :
  main.hashablize o = Ok h ->
  main.hashable h = true /\ main.hashablize h = Ok h.
Proof.
  intros H. pose proof (hashablize_gives_hashable o h H) as Hh.
  split; [exact Hh|apply hashablize_hashable; exact Hh].
Qed.

Lemma hashablize_result_is_hashable_witness :
  main.hashable
    (main.PTuple [main.PTuple [main.PStr "a"; main.PTuple [main.PInt 1]];
                  main.PTuple [main.PStr "b"; main.PInt 2]]) = true /\
  main.hashablize
    (main.PTuple [main.PTuple [main.PStr "a"; main.PTuple [main.PInt 1]];
                  main.PTuple [main.PStr "b"; main.PInt 2]])
  = Ok (main.PTuple
          [main.PTuple [main.PStr "a"; main.PTuple [main.PInt 1]];
           main.PTuple [main.PStr "b"; main.PInt 2]]).
Proof.
  apply (hashablize_result_is_hashable
           (main.PDict [(main.KStr "b", main.PInt 2);
                        (main.KStr "a", main.PList [main.PInt 1])])).
  reflexivity.
Defined.

(** X17.  [hashablize] does not tell a list from a tuple, nor from a
    [pd.Series] or an [np.ndarray], of the same elements: all four give
    the same outcome. *)
Theorem hashablize_forgets_the_container l :
  main.hashablize (main.PList l) = main.hashablize (main.PTuple l) /\
  main.hashablize (main.PSeries l) = main.hashablize (main.PTuple l) /\
  main.hashablize (main.PArray l) = main.hashablize (main.PTuple l).
Proof.
  assert (H : main.hashablize (main.PTuple l)
              = (elems <- main.sequence (map main.hashablize l) ;;
                 Ok (main.PTuple elems))).
  { rewrite hashablize_eq.
    destruct (main.hashable (main.PTuple l)) eqn:E; [|reflexivity].
    simpl in E. rewrite (sequence_of_hashable l E). reflexivity. }
  rewrite H, !hashablize_eq. simpl. auto.
Qed.

(** X18.  The outcome of [hashablize] on a [dict] does not depend on the
    order in which its items were inserted: two lists of items that are
    permutations of one another, with keys that differ from one another,
    give the same tuple or the same exception. *)
Theorem hashablize_ignores_insertion_order items items' :
  Permutation items items' -> NoDup (map fst items) ->
  main.hashablize (main.PDict items) = main.hashablize (main.PDict items').
Proof. exact (hashablize_dict_perm items items'). Qed.

Lemma hashablize_ignores_insertion_order_witness :
  main.hashablize
    (main.PDict [(main.KStr "b", main.PInt 2);
                 (main.KStr "a", main.PList [main.PInt 1])])
  = main.hashablize
      (main.PDict [(main.KStr "a", main.PList [main.PInt 1]);
                   (main.KStr "b", main.PInt 2)]).
Proof.
  apply (hashablize_ignores_insertion_order
           [(main.KStr "b", main.PInt 2);
            (main.KStr "a", main.PList [main.PInt 1])]
           [(main.KStr "a", main.PList [main.PInt 1]);
            (main.KStr "b", main.PInt 2)]).
  - apply perm_swap.
  - simpl. constructor.
    + intros [H|[]]. discriminate.
    + constructor; [intros []|constructor].
Defined.

(** ** [deterministic_hash] *)

Lemma string_of_list_ascii_length (l : list ascii) :
  String.length (string_of_list_ascii l) = length l.
Proof.
  induction l as [|c l IH]; simpl; [reflexivity|].
  rewrite IH. reflexivity.
Qed.

Lemma encode_quantum_length q : length (main.encode_quantum q) = 8%nat.
Proof. reflexivity. Qed.

Lemma b32_char_in_alphabet n : In (main.b32_char n) main.b32_alphabet.
Proof.
  unfold main.b32_char. apply nth_In.
  change (length main.b32_alphabet) with (N.to_nat 32).
  pose proof (N.mod_lt n 32 ltac:(discriminate)) as Hlt. lia.
Qed.

Lemma encode_quantum_alphabet q :
  Forall (fun c => In c main.b32_alphabet) (main.encode_quantum q).
Proof.
  unfold main.encode_quantum. apply Forall_forall. intros c Hc.
  apply in_map_iff in Hc. destruct Hc as (k & <- & _).
  apply b32_char_in_alphabet.
Qed.

(** The encoding of twenty bytes: thirty-two characters of the alphabet,
    without padding. *)
Lemma b32encode_digest (digest : list Byte.byte) :
  length digest = 20%nat ->
  length (main.b32encode digest) = 32%nat /\
  Forall (fun c => In c main.b32_alphabet) (main.b32encode digest).
Proof.
  intros Hlen.
  do 20 (destruct digest as [|? digest]; [discriminate|]).
  destruct digest; [|discriminate].
  cbn [main.b32encode]. split.
  - rewrite !length_app, !encode_quantum_length. reflexivity.
  - repeat (apply Forall_app; split; [apply encode_quantum_alphabet|]).
    constructor.
Qed.

Lemma lower_alphabet c :
  In c main.b32_alphabet ->
  In (main.lower c)
     (list_ascii_of_string "abcdefghijklmnopqrstuvwxyz234567").
Proof.
  unfold main.b32_alphabet. simpl.
  intros H.
  repeat (destruct H as [<-|H];
          [vm_compute; repeat (first [left; reflexivity|right])|]).
  destruct H.
Qed.

Lemma slice_to_length {A : Type} (s : list A) (stop : Z) :
  length (main.slice_to s stop) =
  if (0 <=? stop)%Z then Nat.min (Z.to_nat stop) (length s)
  else (length s - Z.to_nat (- stop))%nat.
Proof.
  unfold main.slice_to. destruct (0 <=? stop)%Z.
  - apply length_firstn.
  - rewrite length_firstn. lia.
Qed.

Lemma in_firstn {A : Type} (n : nat) : forall (l : list A) x,
  In x (firstn n l) -> In x l.
Proof.
  induction n as [|n IH]; intros [|a l] x H; simpl in H; try contradiction.
  destruct H as [<-|H]; [left; reflexivity|right; exact (IH l x H)].
Qed.

Lemma slice_to_Forall {A : Type} (P : A -> Prop) (s : list A) stop :
  Forall P s -> Forall P (main.slice_to s stop).
Proof.
  intros H. unfold main.slice_to. rewrite Forall_forall in *.
  destruct (0 <=? stop)%Z; intros x Hx; apply H;
    exact (in_firstn _ _ _ Hx).
Qed.

(** X19.  When [sha1] yields its twenty bytes, the string
    [deterministic_hash] returns is made of lower-case letters and the
    digits 2 to 7 only; it has [length] characters for a [length] from 0
    to 32, thirty-two for a larger one, and for a negative [length] the
    thirty-two characters less that many at the end. *)
Theorem deterministic_hash_shape json_dumps sha1_digest thing len h :
  (forall data, length (sha1_digest data) = 20%nat) ->
  main.deterministic_hash json_dumps sha1_digest thing len = Ok h ->
  String.length h
    = (if (0 <=? len)%Z then Nat.min (Z.to_nat len) 32
       else 32 - Z.to_nat (- len))%nat /\
  Forall (fun c =>
            In c (list_ascii_of_string "abcdefghijklmnopqrstuvwxyz234567"))
    (list_ascii_of_string h).
Proof.
  intros Hsha H. unfold main.deterministic_hash in H.
  destruct (main.hashablize thing) as [hashable|e]; [|discriminate].
  simpl in H. destruct (json_dumps hashable) as [jsonned|e]; [|discriminate].
  simpl in H. injection H as <-.
  destruct (b32encode_digest (sha1_digest jsonned) (Hsha jsonned))
    as [Hlen Hall].
  split.
  - rewrite string_of_list_ascii_length, length_map, slice_to_length, Hlen.
    reflexivity.
  - rewrite list_ascii_of_string_of_list_ascii.
    apply Forall_forall. intros c Hc. apply in_map_iff in Hc.
    destruct Hc as (c0 & <- & Hc0). apply lower_alphabet.
    pose proof (slice_to_Forall _ _ len Hall) as Hs.
    rewrite Forall_forall in Hs. exact (Hs c0 Hc0).
Qed.

Lemma deterministic_hash_shape_witness :
  String.length "aaaaaa"
    = (if (0 <=? 6)%Z then Nat.min (Z.to_nat 6) 32
       else 32 - Z.to_nat (- 6))%nat /\
  Forall (fun c =>
            In c (list_ascii_of_string "abcdefghijklmnopqrstuvwxyz234567"))
    (list_ascii_of_string "aaaaaa").
Proof.
  apply (deterministic_hash_shape Samples.json_stub Samples.zero_digest
           Samples.config 6 "aaaaaa").
  - reflexivity.
  - reflexivity.
Defined.

(** X20.  [deterministic_hash] does not depend on the order in which the
    items of a [dict] were inserted: for items that are permutations of
    one another, with keys that differ from one another, it returns the
    same string or raises the same exception. *)
Theorem deterministic_hash_ignores_insertion_order json_dumps sha1_digest
  items items' len :
  Permutation items items' -> NoDup (map fst items) ->
  main.deterministic_hash json_dumps sha1_digest (main.PDict items) len
  = main.deterministic_hash json_dumps sha1_digest (main.PDict items') len.
Proof.
  intros Hp Hnd. unfold main.deterministic_hash.
  rewrite (hashablize_dict_perm items items' Hp Hnd). reflexivity.
Qed.

Lemma deterministic_hash_ignores_insertion_order_witness :
  main.deterministic_hash Samples.json_stub Samples.zero_digest
    Samples.config 6
  = main.deterministic_hash Samples.json_stub Samples.zero_digest
      Samples.config_swapped 6.
Proof.
  apply (deterministic_hash_ignores_insertion_order Samples.json_stub
           Samples.zero_digest
           [(main.KStr "b", main.PInt 2);
            (main.KStr "a", main.PList [main.PInt 1])]
           [(main.KStr "a", main.PList [main.PInt 1]);
            (main.KStr "b", main.PInt 2)] 6).
  - apply perm_swap.
  - simpl. constructor.
    + intros [H|[]]. discriminate.
    + constructor; [intros []|constructor].
Defined.

(** ** The table of versions *)

Section VersionsTable.

Variable import_module : main.obj -> py_result (option main.module_info).
Variable open_repo : option string -> main.repo.
Variable format : main.obj -> string.
Variable python_version sys_executable getfqdn : string.
Variable to_string : main.columns -> string.

Local Notation _version_info_for_module :=
  (main._version_info_for_module import_module open_repo format).
Local Notation collect := (main.collect import_module open_repo format).
Local Notation print_versions :=
  (main.print_versions import_module open_repo format python_version
     sys_executable getfqdn to_string).
Local Notation installed := (main.installed import_module).
Local Notation not_found := (main.not_found import_module).
Local Notation not_installed_line := (main.not_installed_line format).
Local Notation table_of := main.table_of.

Lemma version_info_cases m include_git :
  (exists e, _version_info_for_module m include_git = ([], Raise e) /\
             installed m = false /\ not_found m = false) \/
  (_version_info_for_module m include_git = ([not_installed_line m], Ok None) /\
   installed m = false /\ not_found m = true) \/
  (_version_info_for_module m include_git = ([], Raise IndexError) /\
   installed m = true /\ not_found m = false) \/
  (exists v p g,
     _version_info_for_module m include_git = ([], Ok (Some (v, p, g))) /\
     installed m = true /\ not_found m = false /\
     (include_git = false -> g = main.PNone)).
Proof.
  unfold main._version_info_for_module, main.installed, main.not_found,
    main.not_installed_line.
  destruct (import_module m) as [[info|]|e].
  - destruct (main.dunder_path info) as [[|p l]|].
    + right; right; left. auto.
    + right; right; right. do 3 eexists. repeat split.
      intros ->. reflexivity.
    + right; right; right. do 3 eexists. repeat split.
      intros ->. reflexivity.
  - right; left. auto.
  - left. exists e. auto.
Qed.

Lemma append_row include_git ms d m v p g :
  table_of include_git ms d ->
  (include_git = false -> g = main.PNone) ->
  table_of include_git (ms ++ [m])
    (main.append_to
       (main.append_to
          (main.append_to (main.append_to d "module" m) "version" v)
          "path" p) "git" g).
Proof.
  intros [[-> ->]|(vs & ps & gs & -> & Hv & Hp & Hg & Hn)] Hgit; right.
  - exists [v], [p], [g]. repeat split.
    intros H. constructor; [symmetry; auto|constructor].
  - exists (vs ++ [v]), (ps ++ [p]), (gs ++ [g]).
    split; [reflexivity|].
    rewrite !length_app. simpl. repeat split; try lia.
    intros H. apply Forall_app. split; [auto|].
    constructor; [symmetry; auto|constructor].
Qed.

Lemma collect_spec include_git : forall names ms d printed df,
  table_of include_git ms d ->
  collect names include_git d = (printed, Ok df) ->
  table_of include_git (ms ++ filter installed names) df /\
  printed = map not_installed_line (filter not_found names).
Proof.
  induction names as [|m names IH]; intros ms d printed df Hd Hrun.
  - simpl in Hrun. injection Hrun as <- <-.
    rewrite app_nil_r. split; [exact Hd|reflexivity].
  - cbn [main.collect] in Hrun. cbn [filter].
    destruct (version_info_cases m include_git)
      as [(e & Hv & -> & ->)|[(Hv & -> & ->)|[(Hv & -> & ->)
         |(v & p & g & Hv & -> & -> & Hgit)]]];
      rewrite Hv in Hrun.
    + discriminate.
    + destruct (collect names include_git d) as [printed' r] eqn:Hrest.
      injection Hrun as <- ->.
      destruct (IH ms d printed' df Hd Hrest) as [Ht ->].
      split; [exact Ht|reflexivity].
    + discriminate.
    + pose proof (append_row include_git ms d m v p g Hd Hgit) as Hd'.
      match type of Hrun with
      | (let (_, _) := collect names include_git ?d' in _) = _ =>
          destruct (collect names include_git d') as [printed' r] eqn:Hrest
      end.
      injection Hrun as <- ->.
      destruct (IH _ _ printed' df Hd' Hrest) as [Ht ->].
      rewrite <- app_assoc in Ht. split; [exact Ht|reflexivity].
Qed.

Lemma collect_raises include_git e m : forall pre post d,
  Forall (fun n => exists r, snd (_version_info_for_module n include_git) = Ok r) pre ->
  snd (_version_info_for_module m include_git) = Raise e ->
  snd (collect (pre ++ m :: post) include_git d) = Raise e.
Proof.
  induction pre as [|n pre IH]; intros post d Hpre Hm.
  - cbn [app main.collect].
    destruct (_version_info_for_module m include_git) as [pr r].
    simpl in Hm. subst r. reflexivity.
  - inversion Hpre as [|? ? [r Hr] Hpre']; subst.
    cbn [app main.collect].
    destruct (_version_info_for_module n include_git) as [pr r0].
    simpl in Hr. subst r0.
    destruct r as [[[v p] g]|].
    + match goal with
      | |- snd (let (_, _) := collect _ _ ?d' in _) = _ =>
          specialize (IH post d' Hpre' Hm);
          destruct (collect (pre ++ m :: post) include_git d') as [pr' r']
      end.
      exact IH.
    + specialize (IH post d Hpre' Hm).
      destruct (collect (pre ++ m :: post) include_git d) as [pr' r'].
      exact IH.
Qed.

Lemma print_versions_spec modules names print_output include_python
  return_string include_git printed out :
  main.to_str_tuple modules = Ok (main.PTuple names) ->
  print_versions modules print_output include_python return_string
    include_git = (printed, Ok out) ->
  exists df,
    table_of include_git
      ((if include_python then [main.PStr "python"] else [])
       ++ filter installed names) df /\
    out = (if return_string
           then inr ("Host " ++ getfqdn ++ String "010" (to_string df))%string
           else inl df) /\
    printed
    = map not_installed_line (filter not_found names)
      ++ (if print_output
          then [("Host " ++ getfqdn ++ String "010" (to_string df))%string]
          else []).
Proof.
  intros Hnames Hrun. unfold main.print_versions in Hrun.
  rewrite Hnames in Hrun.
  match type of Hrun with
  | (let (_, _) := collect names include_git ?d in _) = _ =>
      assert (Hd : table_of include_git
                     (if include_python then [main.PStr "python"] else []) d);
      [|destruct (collect names include_git d) as [printed' [df|e]] eqn:Hrest]
  end.
  - destruct include_python.
    + right. exists [main.PStr python_version], [main.PStr sys_executable],
        [main.PNone].
      repeat split. intros _. constructor; [reflexivity|constructor].
    + left. split; reflexivity.
  - destruct (collect_spec include_git names _ _ printed' df Hd Hrest)
      as [Ht ->].
    exists df. split; [exact Ht|].
    injection Hrun as <- <-. split; [reflexivity|].
    destruct print_output; [reflexivity|].
    rewrite app_nil_r. reflexivity.
  - discriminate.
Qed.

(** X21.  The data frame of [print_versions]: when the call returns the
    frame, it has no column at all (python is left out and none of the
    modules is installed) or exactly the columns module, version, path
    and git in this order, all of one length; the column of modules is
    python, when it is included, followed by the installed ones of the
    modules asked for, in the order given; without git information the
    last column holds [None] only. *)
Theorem print_versions_table modules names print_output include_python
  include_git printed df :
  main.to_str_tuple modules = Ok (main.PTuple names) ->
  print_versions modules print_output include_python false include_git
  = (printed, Ok (inl df)) ->
  (include_python = false /\ filter installed names = [] /\ df = []) \/
  exists vs ps gs,
    df = main.table
           ((if include_python then [main.PStr "python"] else [])
            ++ filter installed names) vs ps gs /\
    length vs = length ps /\ length ps = length gs /\
    length gs
    = ((if include_python then 1 else 0)
       + length (filter installed names))%nat /\
    (include_git = false -> Forall (eq main.PNone) gs).
Proof.
  intros Hnames Hrun.
  destruct (print_versions_spec _ _ _ _ _ _ _ _ Hnames Hrun)
    as (df' & Ht & Hout & _).
  injection Hout as <-.
  destruct Ht as [[Hnil ->]|(vs & ps & gs & -> & Hv & Hp & Hg & Hn)].
  - left. destruct include_python; [discriminate|].
    repeat split. exact Hnil.
  - right. exists vs, ps, gs. split; [reflexivity|].
    rewrite length_app in Hv, Hp, Hg.
    repeat split; [lia|lia| |exact Hn].
    rewrite Hg. destruct include_python; reflexivity.
Qed.

(** X22.  What [print_versions] prints: one line for each module that is
    not installed, in the order given, and after them the message, when
    [print_output] is set; the message is the one returned with
    [return_string]. *)
Theorem print_versions_output modules names print_output include_python
  include_git printed info :
  main.to_str_tuple modules = Ok (main.PTuple names) ->
  print_versions modules print_output include_python true include_git
  = (printed, Ok (inr info)) ->
  printed
  = map not_installed_line (filter not_found names)
    ++ (if print_output then [info] else []).
Proof.
  intros Hnames Hrun.
  destruct (print_versions_spec _ _ _ _ _ _ _ _ Hnames Hrun)
    as (df' & _ & Hout & ->).
  injection Hout as ->. reflexivity.
Qed.

(** X23.  A module whose [__path__] is an empty list makes
    [print_versions] raise [IndexError], from the subscript 0 in
    [_version_info_for_module]: no frame and no message is returned,
    whatever the other modules are, provided the modules before it are
    handled without an exception. *)
Theorem empty_path_aborts_print_versions modules pre m post info
  print_output include_python return_string include_git :
  main.to_str_tuple modules = Ok (main.PTuple (pre ++ m :: post)) ->
  Forall (fun n =>
            exists r, snd (_version_info_for_module n include_git) = Ok r)
    pre ->
  import_module m = Ok (Some info) ->
  main.dunder_path info = Some [] ->
  snd (print_versions modules print_output include_python return_string
         include_git) = Raise IndexError.
Proof.
  intros Hnames Hpre Himp Hpath. unfold main.print_versions.
  rewrite Hnames.
  assert (Hm : snd (_version_info_for_module m include_git)
               = Raise IndexError).
  { unfold main._version_info_for_module. rewrite Himp, Hpath. reflexivity. }
  match goal with
  | |- snd (let (_, _) := collect _ _ ?d in _) = _ =>
      pose proof (collect_raises include_git IndexError m pre post d Hpre Hm)
        as H;
      destruct (collect (pre ++ m :: post) include_git d) as [pr r]
  end.
  simpl in H. subst r. reflexivity.
Qed.

End VersionsTable.

Lemma print_versions_table_witness :
  (true = false /\
   filter (main.installed Samples.import_stub)
     [main.PStr "numpy"; main.PStr "scipy"] = [] /\
   main.table [main.PStr "python"; main.PStr "numpy"]
     [main.PStr "3.11"; main.PStr "1.26"]
     [main.PStr "/bin/python"; main.PStr "/site/numpy"]
     [main.PNone; main.PNone] = []) \/
  exists vs ps gs,
    main.table [main.PStr "python"; main.PStr "numpy"]
      [main.PStr "3.11"; main.PStr "1.26"]
      [main.PStr "/bin/python"; main.PStr "/site/numpy"]
      [main.PNone; main.PNone]
    = main.table
        ((if true then [main.PStr "python"] else [])
         ++ filter (main.installed Samples.import_stub)
              [main.PStr "numpy"; main.PStr "scipy"]) vs ps gs /\
    length vs = length ps /\ length ps = length gs /\
    length gs
    = ((if true then 1 else 0)
       + length (filter (main.installed Samples.import_stub)
                   [main.PStr "numpy"; main.PStr "scipy"]))%nat /\
    (true = false -> Forall (eq main.PNone) gs).
Proof.
  apply (print_versions_table Samples.import_stub Samples.no_repo
           Samples.format_stub "3.11" "/bin/python" "host"
           Samples.to_string_stub
           (main.PList [main.PStr "numpy"; main.PStr "scipy"])
           [main.PStr "numpy"; main.PStr "scipy"] false true true
           ["scipy is not installed"%string]).
  - reflexivity.
  - reflexivity.
Defined.

Lemma print_versions_output_witness :
  ["scipy is not installed"; "Host host" ++ String "010" ""]%string
  = (map (main.not_installed_line Samples.format_stub)
       (filter (main.not_found Samples.import_stub)
          [main.PStr "numpy"; main.PStr "scipy"])
     ++ (if true then [("Host host" ++ String "010" "")%string] else [])).
Proof.
  apply (print_versions_output Samples.import_stub Samples.no_repo
           Samples.format_stub "3.11" "/bin/python" "host"
           Samples.to_string_stub
           (main.PList [main.PStr "numpy"; main.PStr "scipy"])
           [main.PStr "numpy"; main.PStr "scipy"] true true true).
  - reflexivity.
  - reflexivity.
Defined.

Lemma empty_path_aborts_print_versions_witness :
  snd (main.print_versions Samples.import_stub Samples.no_repo
         Samples.format_stub "3.11" "/bin/python" "host"
         Samples.to_string_stub
         (main.PList [main.PStr "numpy"; main.PStr "hollow"; main.PStr "scipy"])
         true true false true) = Raise IndexError.
Proof.
  apply (empty_path_aborts_print_versions Samples.import_stub Samples.no_repo
           Samples.format_stub "3.11" "/bin/python" "host"
           Samples.to_string_stub
           (main.PList [main.PStr "numpy"; main.PStr "hollow"; main.PStr "scipy"])
           [main.PStr "numpy"] (main.PStr "hollow") [main.PStr "scipy"]
           (main.mk_module None (Some []))).
  - reflexivity.
  - constructor; [|constructor]. eexists. reflexivity.
  - reflexivity.
  - reflexivity.
Defined.
